(** * Respiration-controlled music: the signal-to-MIDI pipeline

    A shallow embedding of the four bridge scripts of [resp_music]
    ([resp_live_play], [resp_live_mod], [resp_prerec_play],
    [resp_prerec_mod]) and the properties of their amplitude mappers,
    note state machine, calibration gate, relay queue, filter
    construction and stream selection.

    Modelling conventions.
    - Python floats (amplitudes, timestamps, frequencies) are exact
      rationals [Q] in the workers: their arithmetic is read without
      rounding error, overflow or NaN.  Where the rounding of a single
      operation decides the result (the rounding mode of the note
      mapper), the mapper is also given in binary64 ([B64]), operation
      by operation as the interpreter computes it.
    - MIDI note numbers, velocities, indices are Python ints: [Z].
    - A Python exception is a value of [exn]; a call that may raise
      returns a [result].
    - Library calls ([round], [min], [max], [numpy.clip],
      [queue.Queue], list indexing, [scipy.signal.lfilter]) are written
      out with the behaviour their documentation gives.  The Butterworth
      design itself has no rational closed form and is a parameter.
    - [mido.Message] checks its data when it is built: a note,
      velocity, controller or value outside 0..127, or a channel
      outside 0..15, raises [ValueError] and nothing reaches the port.
    - A prerecorded file has one column; [np.loadtxt] turns a single
      data row into a 0-d array, which cannot be iterated.
    - A worker is a thread: its loop is unfolded into one event per
      pass, interleaved with the visualiser's redraws; a daemon thread
      killed with the process is a run that simply has no further
      event. *)

From Stdlib Require Import ZArith QArith Qround Qminmax Lqa Lia List Bool.
From Stdlib Require Import String.
From Stdlib Require Import Floats.SpecFloat.
Import ListNotations.

Local Open Scope Z_scope.
Local Open Scope Q_scope.

(** ** Exceptions and results *)

Inductive exn : Type :=
| ZeroDivisionError
| ValueError
| IndexError
| RuntimeError
| TypeError
| OverflowError
| Full
| KeyboardInterrupt.

Inductive result (A : Type) : Type :=
| Ok (a : A)
| Raise (e : exn).
Arguments Ok {A} a.
Arguments Raise {A} e.

Definition rbind {A B : Type} (r : result A) (k : A -> result B) : result B :=
  match r with
  | Ok a => k a
  | Raise e => Raise e
  end.

Notation "x <- r ;; k" := (rbind r (fun x => k))
  (at level 61, r at next level, right associativity).

(** ** Python and numpy primitives *)
Module Py.

(** [a / b] on floats: raises [ZeroDivisionError] on a zero divisor. *)
Definition truediv (a b : Q) : result Q :=
  if Qeq_bool b 0 then Raise ZeroDivisionError else Ok (a / b).

(** The built-in [min(a, b)]: the first argument unless the second is
    strictly smaller. *)
Definition min (a b : Q) : Q := if Qlt_le_dec b a then b else a.

(** The built-in [max(a, b)]: the first argument unless the second is
    strictly larger. *)
Definition max (a b : Q) : Q := if Qlt_le_dec a b then b else a.

(** [numpy.clip(x, lo, hi)] is [minimum(maximum(x, lo), hi)]. *)
Definition clip (x lo hi : Q) : Q :=
  let m := if Qlt_le_dec x lo then lo else x in
  if Qlt_le_dec hi m then hi else m.

(** [round(x)] with no digits argument: the nearest integer, a tie
    going to the even neighbour (the same rule for a Python float and
    for a numpy float64). *)
Definition round (x : Q) : Z :=
  let n := Qfloor x in
  match Qcompare (x - inject_Z n) (1 # 2) with
  | Lt => n
  | Gt => (n + 1)%Z
  | Eq => if Z.even n then n else (n + 1)%Z
  end.

(** [l[i]] on a Python list: a negative index counts from the end,
    an index outside the list raises [IndexError]. *)
Definition getitem {A : Type} (l : list A) (i : Z) : result A :=
  let len := Z.of_nat (List.length l) in
  let j := if (i <? 0)%Z then (i + len)%Z else i in
  if (j <? 0)%Z then Raise IndexError
  else match nth_error l (Z.to_nat j) with
       | Some a => Ok a
       | None => Raise IndexError
       end.

End Py.

(** ** AmplitudeMapper: [map_amp_to_note] and [map_amp_to_cc] *)

(** [resp_live_play.map_amp_to_note], the same function as
    [resp_prerec_play.map_amp_to_note]. *)
Definition map_amp_to_note (x xmin xmax : Q) (note_min note_max : Z) : result Z :=
  if Qle_bool xmax xmin then Ok note_min
  else
    frac <- Py.truediv (x - xmin) (xmax - xmin) ;;
    let frac := Py.clip frac 0 1 in
    let note := inject_Z note_min + frac * inject_Z (note_max - note_min) in
    Ok (Py.round note).

(** [resp_live_mod.map_amp_to_cc], the same function as
    [resp_prerec_mod.map_amp_to_cc]. *)
Definition map_amp_to_cc (x xmin xmax : Q) : result Z :=
  if Qle_bool xmax xmin then Ok 0%Z
  else
    frac <- Py.truediv (x - xmin) (xmax - xmin) ;;
    let frac := Py.clip frac 0 1 in
    let value := frac * 127 in
    Ok (Py.round value).

(** ** The note mapper in binary64

    The same function with every operation rounded as the interpreter
    rounds it: amplitudes are binary64 values ([spec_float] at
    precision 53), each of [-], [/], [*], [+] rounds to nearest-even,
    and the two integers are converted to floats where they meet one. *)
Module B64.

Definition float : Type := spec_float.
Definition prec : Z := 53.
Definition emax : Z := 1024.

(** [m * 2^e], rounded to the nearest float. *)
Definition dyadic (m e : Z) : float := binary_normalize prec emax m e false.

Definition zero : float := S754_zero false.
Definition one : float := dyadic 1 0.

(** A Python int where a float is needed: the nearest float,
    [OverflowError] beyond the largest one. *)
Definition of_int (n : Z) : result float :=
  match dyadic n 0 with
  | S754_infinity _ => Raise OverflowError
  | f => Ok f
  end.

Definition add : float -> float -> float := SFadd prec emax.
Definition sub : float -> float -> float := SFsub prec emax.
Definition mul : float -> float -> float := SFmul prec emax.

(** [a <= b], false when either side is NaN. *)
Definition leb : float -> float -> bool := SFleb.
Definition ltb : float -> float -> bool := SFltb.

Definition is_nan (f : float) : bool :=
  match f with
  | S754_nan => true
  | _ => false
  end.

Definition is_zero (f : float) : bool :=
  match f with
  | S754_zero _ => true
  | _ => false
  end.

(** [a / b]: [ZeroDivisionError] on a zero divisor (as for two Python
    floats; past the mapper's range test the divisor is a difference
    of two distinct floats or not a number, so it is not zero). *)
Definition truediv (a b : float) : result float :=
  if is_zero b then Raise ZeroDivisionError else Ok (SFdiv prec emax a b).

(** [numpy.maximum] and [numpy.minimum]: NaN goes through. *)
Definition maximum (a b : float) : float :=
  if is_nan a then a else if is_nan b then b else if ltb a b then b else a.

Definition minimum (a b : float) : float :=
  if is_nan a then a else if is_nan b then b else if ltb b a then b else a.

(** [numpy.clip(x, lo, hi)] *)
Definition clip (x lo hi : float) : float := minimum (maximum x lo) hi.

(** The rational a finite float stands for. *)
Definition value (f : float) : Q :=
  match f with
  | S754_finite s m e =>
      let v := if (0 <=? e)%Z then inject_Z (Zpos m * 2 ^ e)
               else Zpos m # (2 ^ Z.to_pos (- e)) in
      if s then - v else v
  | _ => 0
  end.

(** [int(round(f))]: NaN cannot be converted ([ValueError]), nor an
    infinity ([OverflowError]); a finite float goes to the nearest
    integer, a tie to the even one. *)
Definition round (f : float) : result Z :=
  match f with
  | S754_nan => Raise ValueError
  | S754_infinity _ => Raise OverflowError
  | _ => Ok (Py.round (value f))
  end.

(** [map_amp_to_note] on floats. *)
Definition map_amp_to_note (x xmin xmax : float) (note_min note_max : Z)
  : result Z :=
  if leb xmax xmin then Ok note_min
  else
    frac <- truediv (sub x xmin) (sub xmax xmin) ;;
    let frac := clip frac zero one in
    span <- of_int (note_max - note_min) ;;
    lo <- of_int note_min ;;
    let note := add lo (mul frac span) in
    round note.

End B64.

(** ** StreamingFilter: [RespFilter] *)

(** What [scipy.signal.butter(2, Wn, btype="low")] returns: numerator
    [b0 b1 b2] and denominator [1 a1 a2] (the leading denominator
    coefficient of a designed filter is 1). *)
Record coeffs : Type := { b0 : Q; b1 : Q; b2 : Q; a1 : Q; a2 : Q }.

(** The numeric part of scipy that the scripts call and that has no
    rational closed form: the Butterworth design for a valid normalised
    cutoff, and the steady-state initial conditions. *)
Record scipy_signal : Type := {
  butter_design : Q -> coeffs;
  lfilter_zi : coeffs -> Q * Q
}.

(** The filter object: attributes [b], [a] and [z]. *)
Record RespFilter : Type := { ba : coeffs; z : Q * Q }.

Section Filter.
Context (sp : scipy_signal).

(** [butter] on a digital design rejects a critical frequency outside
    the open interval (0, 1) with [ValueError]. *)
Definition butter (Wn : Q) : result coeffs :=
  if Qlt_le_dec 0 Wn then
    if Qlt_le_dec Wn 1 then Ok (butter_design sp Wn) else Raise ValueError
  else Raise ValueError.

(** [RespFilter.__init__(fs, cutoff)]. *)
Definition RespFilter_init (fs cutoff : Q) : result RespFilter :=
  let nyq := (1 # 2) * fs in
  norm <- Py.truediv cutoff nyq ;;
  c <- butter norm ;;
  let zi := lfilter_zi sp c in
  Ok {| ba := c; z := (fst zi * 0, snd zi * 0) |}.

End Filter.

(** [RespFilter.add(x)]: [lfilter] on the one-sample input [[x]] with
    the stored state (transposed direct form II of order 2); returns
    the output sample and the filter with its state replaced. *)
Definition RespFilter_add (f : RespFilter) (x : Q) : Q * RespFilter :=
  let c := ba f in
  let y := fst (z f) + b0 c * x in
  let z0 := snd (z f) + b1 c * x - a1 c * y in
  let z1 := b2 c * x - a2 c * y in
  (y, {| ba := c; z := (z0, z1) |}).

(** The list comprehension [[filt.add(float(x)) for x in data]]. *)
Fixpoint filter_all (f : RespFilter) (data : list Q) : list Q :=
  match data with
  | [] => []
  | x :: rest => let '(y, f') := RespFilter_add f x in y :: filter_all f' rest
  end.

(** ** BoundedRelay: [queue.Queue] and the visualiser that drains it *)

Record Queue : Type := { maxsize : Z; items : list Q }.

Definition Queue_init (size : Z) : Queue := {| maxsize := size; items := [] |}.

Definition qsize (q : Queue) : Z := Z.of_nat (List.length (items q)).

(** [Queue.full()]: a positive [maxsize] reached by the item count. *)
Definition Queue_full (q : Queue) : bool :=
  ((0 <? maxsize q) && (maxsize q <=? qsize q))%Z.

(** [Queue.put_nowait(v)]: raises [Full] on a full queue, otherwise
    stores [v] behind the items already there. *)
Definition put_nowait (q : Queue) (v : Q) : result Queue :=
  if Queue_full q then Raise Full
  else Ok {| maxsize := maxsize q; items := items q ++ [v] |}.

(** [deque(maxlen=n).append(v)]: the oldest entries fall off the left. *)
Definition deque_append (maxlen : nat) (buf : list Q) (v : Q) : list Q :=
  let b := buf ++ [v] in skipn (List.length b - maxlen) b.

(** [RespVisualiser.update]: moves every queued value to the rolling
    buffer, oldest first, leaving the queue empty. *)
Definition RespVisualiser_update (buffer_len : nat) (q : Queue) (buf : list Q)
  : Queue * list Q :=
  ({| maxsize := maxsize q; items := [] |},
   fold_left (deque_append buffer_len) (items q) buf).

(** ** Device sink: [MidiOut] *)

Inductive message : Type :=
| note_on (note velocity : Z)
| note_off (note : Z)
| control_change (control value channel : Z).

(** Lines written by [logging]. *)
Inductive log_record : Type :=
| LoadingFile
| ResolvingStreams
| NoStreamsFound
| UsingStream (name : string) (fs : Q)
| PleaseWait
| CalibrationComplete (amp_min amp_max : option Q)
| Stopping.

(** ** The world a worker thread acts on *)

Record world : Type := {
  device : list message;        (* messages sent to the MIDI port, oldest first *)
  vis_queue : Queue;            (* the relay shared with the visualiser *)
  vis_buffer : list Q;          (* the visualiser's rolling buffer *)
  log : list log_record;        (* log lines, oldest first *)
  output_names : list string  (* MIDI ports that can be opened *)
}.

(** Worker code: acts on a state and returns or raises; what was done
    before an exception stays done.  The state is the world alone for
    setup code, and the loop's local variables with the world for a
    loop body. *)
Definition M (S A : Type) : Type := S -> result A * S.

Definition mret {S A : Type} (a : A) : M S A := fun s => (Ok a, s).

Definition mbind {S A B : Type} (m : M S A) (k : A -> M S B) : M S B :=
  fun s => match m s with
           | (Ok a, s') => k a s'
           | (Raise e, s') => (Raise e, s')
           end.

Definition mlift {S A : Type} (r : result A) : M S A := fun s => (r, s).

Notation "x <~ m ;; k" := (mbind m (fun x => k))
  (at level 61, m at next level, right associativity).
Notation "m ;;; k" := (mbind m (fun _ => k))
  (at level 61, right associativity).

(** Reading and assigning local variables. *)
Definition locals_get {L : Type} : M (L * world) L := fun s => (Ok (fst s), s).

Definition assign {L : Type} (f : L -> L) : M (L * world) unit :=
  fun s => (Ok tt, (f (fst s), snd s)).

(** World code run from inside a loop body. *)
Definition in_world {L A : Type} (m : M world A) : M (L * world) A :=
  fun s => let '(r, w) := m (snd s) in (r, (fst s, w)).

(** A MIDI data byte. *)
Definition data_byte (v : Z) : bool := ((0 <=? v) && (v <=? 127))%Z.

(** What [mido.Message] accepts: data bytes in 0..127, the channel in
    0..15 (a note message goes out on the default channel 0). *)
Definition mido_valid (m : message) : bool :=
  match m with
  | note_on note velocity => data_byte note && data_byte velocity
  | note_off note => data_byte note
  | control_change control value channel =>
      data_byte control && data_byte value
      && ((0 <=? channel) && (channel <=? 15))%Z
  end.

(** [mido.Message(...)]: [ValueError] on data out of range. *)
Definition mido_Message (m : message) : result message :=
  if mido_valid m then Ok m else Raise ValueError.

(** [outport.send(msg)] *)
Definition send (m : message) : M world unit :=
  fun w => (Ok tt, {| device := device w ++ [m]; vis_queue := vis_queue w;
                      vis_buffer := vis_buffer w; log := log w;
                      output_names := output_names w |}).

(** [self.outport.send(mido.Message(...))]: the message is built, and
    checked, before anything is sent. *)
Definition emit (m : message) : M world unit :=
  fun w => match mido_Message m with
           | Ok msg => send msg w
           | Raise e => (Raise e, w)
           end.

Definition logging_info (r : log_record) : M world unit :=
  fun w => (Ok tt, {| device := device w; vis_queue := vis_queue w;
                      vis_buffer := vis_buffer w; log := log w ++ [r];
                      output_names := output_names w |}).

(** [vis_queue.put_nowait(v)] from the worker. *)
Definition vis_put (v : Q) : M world unit :=
  fun w => match put_nowait (vis_queue w) v with
           | Ok q => (Ok tt, {| device := device w; vis_queue := q;
                                vis_buffer := vis_buffer w; log := log w;
                                output_names := output_names w |})
           | Raise e => (Raise e, w)
           end.

(** [MidiOut(port_name)]: [mido.open_output] fails on a port that is
    not there, which the constructor turns into [RuntimeError]. *)
Definition MidiOut_init (port_name : string) : M world unit :=
  fun w => if existsb (String.eqb port_name) (output_names w)
           then (Ok tt, w) else (Raise RuntimeError, w).

Definition MidiOut_note_on (note velocity : Z) : M world unit :=
  emit (note_on note velocity).
Definition MidiOut_note_off (note : Z) : M world unit :=
  emit (note_off note).
Definition MidiOut_send_cc (cc value channel : Z) : M world unit :=
  emit (control_change cc value channel).

(** [time.sleep(dt)]: [ValueError] on a negative length. *)
Definition time_sleep (dt : Q) : M world unit :=
  fun w => if Qlt_le_dec dt 0 then (Raise ValueError, w) else (Ok tt, w).

(** ** NoteStateMachine: the [prev_note] branch of both note workers

    [prev_note = None] is Silent, [prev_note = Some n] is Sounding(n).
    [get] and [set] read and assign the worker's [prev_note].  The two
    workers differ in the first branch only: the live worker assigns
    [prev_note] before it sends the note_on ([assign_first]), the
    prerecorded one after. *)
Section NoteStateMachine.
Context {L : Type} (get : L -> option Z) (set : Z -> L -> L).

Definition note_update (assign_first : bool) (velocity note : Z)
  : M (L * world) unit :=
  l <~ locals_get ;;
  match get l with
  | None =>
      if assign_first then
        assign (set note) ;;;
        in_world (MidiOut_note_on note velocity)
      else
        in_world (MidiOut_note_on note velocity) ;;;
        assign (set note)
  | Some p =>
      if (note =? p)%Z then mret tt
      else
        in_world (MidiOut_note_off p) ;;;
        in_world (MidiOut_note_on note velocity) ;;;
        assign (set note)
  end.

End NoteStateMachine.

(** ** Threads, events and runs

    A worker is its setup code followed by a loop.  One [Iterate] event
    is one pass through the loop body with the input the environment
    supplies; [Redraw] is the visualiser's timer firing; [Interrupt] is
    a [KeyboardInterrupt] raised inside the worker's [try] block. *)

Inductive exit : Type :=
| NormalExit               (* the function returned *)
| Cancelled                (* [except KeyboardInterrupt] ran *)
| Failed (e : exn).        (* an exception left the function *)

Inductive status (L : Type) : Type :=
| Running (l : L)          (* inside the loop, with these locals *)
| Stopped (how : exit) (l : L)  (* left the loop, with these locals *)
| Aborted (how : exit).    (* never reached the loop *)
Arguments Running {L} l.
Arguments Stopped {L} how l.
Arguments Aborted {L} how.

Inductive event (I : Type) : Type :=
| Iterate (i : I)
| Redraw
| Interrupt.
Arguments Iterate {I} i.
Arguments Redraw {I}.
Arguments Interrupt {I}.

Record sys (L : Type) : Type := { thread : status L; env : world }.
Arguments thread {L} s.
Arguments env {L} s.

(** [main]: the relay is [queue.Queue(maxsize=2000)], the visualiser
    keeps [deque(maxlen=20000)]. *)
Definition relay_capacity : Z := 2000.
Definition buffer_len : nat := Z.to_nat 20000.

Definition main_world (ports : list string) : world :=
  {| device := []; vis_queue := Queue_init relay_capacity; vis_buffer := [];
     log := []; output_names := ports |}.

Definition redraw (w : world) : world :=
  let '(q, buf) := RespVisualiser_update buffer_len (vis_queue w) (vis_buffer w) in
  {| device := device w; vis_queue := q; vis_buffer := buf; log := log w;
     output_names := output_names w |}.

Section Run.
Context {L I : Type}.
(** The loop body: returns whether the loop goes on. *)
Context (body : I -> M (L * world) bool).

Definition step (s : sys L) (e : event I) : sys L :=
  match e with
  | Redraw => {| thread := thread s; env := redraw (env s) |}
  | Iterate i =>
      match thread s with
      | Running l =>
          match body i (l, env s) with
          | (Ok true, (l', w')) => {| thread := Running l'; env := w' |}
          | (Ok false, (l', w')) => {| thread := Stopped NormalExit l'; env := w' |}
          | (Raise x, (l', w')) => {| thread := Stopped (Failed x) l'; env := w' |}
          end
      | _ => s
      end
  | Interrupt =>
      match thread s with
      | Running l =>
          {| thread := Stopped Cancelled l;
             env := snd (logging_info Stopping (env s)) |}
      | _ => s
      end
  end.

Definition run (s : sys L) (es : list (event I)) : sys L := fold_left step es s.

(** The thread as started by [main]: setup, then the loop. *)
Definition boot (setup : M world (option L)) (ports : list string) : sys L :=
  match setup (main_world ports) with
  | (Ok (Some l), w) => {| thread := Running l; env := w |}
  | (Ok None, w) => {| thread := Aborted NormalExit; env := w |}
  | (Raise x, w) => {| thread := Aborted (Failed x); env := w |}
  end.

End Run.

(** What [np.loadtxt(file, delimiter=',', skiprows=1)] makes of the
    data rows of a one-column file: a single row gives a 0-d array,
    any other number of rows (none included) a one-dimensional one. *)
Inductive ndarray : Type :=
| Array0 (x : Q)
| Array1 (xs : list Q).

Definition np_loadtxt (rows : list Q) : ndarray :=
  match rows with
  | [x] => Array0 x
  | _ => Array1 rows
  end.

(** [for x in data]: a 0-d array cannot be iterated ([TypeError]). *)
Definition iterate (data : ndarray) : result (list Q) :=
  match data with
  | Array0 _ => Raise TypeError
  | Array1 xs => Ok xs
  end.

(** [np.min] and [np.max] of a one-dimensional array: [ValueError] on
    an empty one. *)
Definition np_min (l : list Q) : result Q :=
  match l with
  | [] => Raise ValueError
  | x :: rest => Ok (fold_left Py.min rest x)
  end.

Definition np_max (l : list Q) : result Q :=
  match l with
  | [] => Raise ValueError
  | x :: rest => Ok (fold_left Py.max rest x)
  end.

(** ** Sensor source (live mode) *)

(** A resolved LSL stream: [name()] (a missing name being the empty
    string, as [s.name() or ""] makes it) and [nominal_srate()]. *)
Record stream_info : Type := { name : string; nominal_srate : Q }.

(** ["OpenSignals" in s] *)
Definition contains_OpenSignals (s : string) : bool :=
  match String.index 0 "OpenSignals"%string s with
  | Some _ => true
  | None => false
  end.

(** [[s for s in resolve_streams() if "OpenSignals" in (s.name() or "")]] *)
Definition matching_streams (resolved : list stream_info) : list stream_info :=
  filter (fun s => contains_OpenSignals (name s)) resolved.

(** [streams[min(args.stream_index, len(streams)-1)]] *)
Definition select_stream (streams : list stream_info) (stream_index : Z)
  : result stream_info :=
  Py.getitem streams (Z.min stream_index (Z.of_nat (List.length streams) - 1)).

(** [info.nominal_srate() or 100.0] *)
Definition stream_fs (info : stream_info) : Q :=
  if Qeq_bool (nominal_srate info) 0 then 100 else nominal_srate info.

(** What one pass of a live loop sees: the result of
    [inlet.pull_sample(timeout=0.0)] and the clock [time.time()]. *)
Record poll : Type := { sample : option (list Q); now : Q }.

Definition calibration_duration : Q := 30.

(** The running min/max of both live workers: the first value sets
    both bounds, later ones widen them ([amp_max] is set whenever
    [amp_min] is, both being assigned together). *)
Definition observe (amp_min amp_max : option Q) (filtered : Q)
  : option Q * option Q :=
  match amp_min with
  | None => (Some filtered, Some filtered)
  | Some lo =>
      (Some (Py.min lo filtered),
       match amp_max with
       | Some hi => Some (Py.max hi filtered)
       | None => None
       end)
  end.

(** The calibrated bounds as the mappers receive them: a bound still
    [None] makes the comparison in the mapper raise [TypeError]. *)
Definition bounds (amp_min amp_max : option Q) : result (Q * Q) :=
  match amp_min, amp_max with
  | Some lo, Some hi => Ok (lo, hi)
  | _, _ => Raise TypeError
  end.

(** ** [resp_live_play.bridge_worker] *)
Module LivePlay.

Record args : Type := {
  midi_port : string; note_low : Z; note_high : Z; velocity : Z;
  cutoff : Q; channel : Z; stream_index : Z
}.

Record locals : Type := {
  filt : RespFilter; start_time : Q; calibrating : bool;
  amp_min : option Q; amp_max : option Q;
  prev_note : option Z; calibration_msg_shown : bool
}.

Definition set_filt (f : RespFilter) (l : locals) : locals :=
  {| filt := f; start_time := start_time l; calibrating := calibrating l;
     amp_min := amp_min l; amp_max := amp_max l; prev_note := prev_note l;
     calibration_msg_shown := calibration_msg_shown l |}.

Definition set_calibrating (b : bool) (l : locals) : locals :=
  {| filt := filt l; start_time := start_time l; calibrating := b;
     amp_min := amp_min l; amp_max := amp_max l; prev_note := prev_note l;
     calibration_msg_shown := calibration_msg_shown l |}.

Definition set_amp (r : option Q * option Q) (l : locals) : locals :=
  {| filt := filt l; start_time := start_time l; calibrating := calibrating l;
     amp_min := fst r; amp_max := snd r; prev_note := prev_note l;
     calibration_msg_shown := calibration_msg_shown l |}.

Definition set_prev_note (n : option Z) (l : locals) : locals :=
  {| filt := filt l; start_time := start_time l; calibrating := calibrating l;
     amp_min := amp_min l; amp_max := amp_max l; prev_note := n;
     calibration_msg_shown := calibration_msg_shown l |}.

Definition set_calibration_msg_shown (b : bool) (l : locals) : locals :=
  {| filt := filt l; start_time := start_time l; calibrating := calibrating l;
     amp_min := amp_min l; amp_max := amp_max l; prev_note := prev_note l;
     calibration_msg_shown := b |}.

Section Worker.
Context (sp : scipy_signal) (a : args).

(** Lines 127-149: everything before the loop.  [t0] is the clock
    read into [start_time], [resolved] what [resolve_streams()]
    returns. *)
Definition setup (t0 : Q) (resolved : list stream_info)
  : M world (option locals) :=
  logging_info ResolvingStreams ;;;
  let streams := matching_streams resolved in
  match streams with
  | [] => logging_info NoStreamsFound ;;; mret None
  | _ :: _ =>
      info <~ mlift (select_stream streams (stream_index a)) ;;
      let fs := stream_fs info in
      logging_info (UsingStream (name info) fs) ;;;
      f <~ mlift (RespFilter_init sp fs (cutoff a)) ;;
      MidiOut_init (midi_port a) ;;;
      mret (Some {| filt := f; start_time := t0; calibrating := true;
                    amp_min := None; amp_max := None;
                    prev_note := None; calibration_msg_shown := false |})
  end.

(** Lines 163-182: the body of [if calibrating:]. *)
Definition calibrate (filtered t : Q) : M (locals * world) unit :=
  l <~ locals_get ;;
  (if calibration_msg_shown l then mret tt
   else in_world (logging_info PleaseWait) ;;;
        assign (set_calibration_msg_shown true)) ;;;
  assign (fun l => set_amp (observe (amp_min l) (amp_max l) filtered) l) ;;;
  l <~ locals_get ;;
  if Qle_bool calibration_duration (t - start_time l) then
    assign (set_calibrating false) ;;;
    assign (set_prev_note None) ;;;
    in_world (logging_info (CalibrationComplete (amp_min l) (amp_max l)))
  else mret tt.

(** Lines 187-198: the body of [if not calibrating:]. *)
Definition play (filtered : Q) : M (locals * world) unit :=
  l <~ locals_get ;;
  r <~ mlift (bounds (amp_min l) (amp_max l)) ;;
  note <~ mlift (map_amp_to_note filtered (fst r) (snd r)
                   (note_low a) (note_high a)) ;;
  note_update prev_note (fun n => set_prev_note (Some n)) true
              (velocity a) note.

(** Lines 153-198: one pass through [while True]. *)
Definition body (p : poll) : M (locals * world) bool :=
  match sample p with
  | None => mret true             (* sleep 1 ms, continue *)
  | Some s =>
      raw <~ mlift (Py.getitem s (channel a)) ;;
      l <~ locals_get ;;
      let '(filtered, f) := RespFilter_add (filt l) raw in
      assign (set_filt f) ;;;
      (if calibrating l then calibrate filtered (now p) else mret tt) ;;;
      in_world (vis_put filtered) ;;;
      l <~ locals_get ;;
      (if negb (calibrating l) then play filtered else mret tt) ;;;
      mret true
  end.

Definition bridge_worker (t0 : Q) (resolved : list stream_info)
           (ports : list string) : sys locals :=
  boot (setup t0 resolved) ports.

End Worker.
End LivePlay.

(** ** [resp_live_mod.bridge_worker] *)
Module LiveMod.

Record args : Type := {
  midi_port : string; cc : Z; channel_midi : Z;
  cutoff : Q; channel : Z; stream_index : Z
}.

Record locals : Type := {
  filt : RespFilter; start_time : Q; calibrating : bool;
  amp_min : option Q; amp_max : option Q; calibration_msg_shown : bool
}.

Definition set_filt (f : RespFilter) (l : locals) : locals :=
  {| filt := f; start_time := start_time l; calibrating := calibrating l;
     amp_min := amp_min l; amp_max := amp_max l;
     calibration_msg_shown := calibration_msg_shown l |}.

Definition set_calibrating (b : bool) (l : locals) : locals :=
  {| filt := filt l; start_time := start_time l; calibrating := b;
     amp_min := amp_min l; amp_max := amp_max l;
     calibration_msg_shown := calibration_msg_shown l |}.

Definition set_amp (r : option Q * option Q) (l : locals) : locals :=
  {| filt := filt l; start_time := start_time l; calibrating := calibrating l;
     amp_min := fst r; amp_max := snd r;
     calibration_msg_shown := calibration_msg_shown l |}.

Definition set_calibration_msg_shown (b : bool) (l : locals) : locals :=
  {| filt := filt l; start_time := start_time l; calibrating := calibrating l;
     amp_min := amp_min l; amp_max := amp_max l;
     calibration_msg_shown := b |}.

Section Worker.
Context (sp : scipy_signal) (a : args).

(** Lines 115-136: everything before the loop. *)
Definition setup (t0 : Q) (resolved : list stream_info)
  : M world (option locals) :=
  logging_info ResolvingStreams ;;;
  let streams := matching_streams resolved in
  match streams with
  | [] => logging_info NoStreamsFound ;;; mret None
  | _ :: _ =>
      info <~ mlift (select_stream streams (stream_index a)) ;;
      let fs := stream_fs info in
      logging_info (UsingStream (name info) fs) ;;;
      f <~ mlift (RespFilter_init sp fs (cutoff a)) ;;
      MidiOut_init (midi_port a) ;;;
      mret (Some {| filt := f; start_time := t0; calibrating := true;
                    amp_min := None; amp_max := None;
                    calibration_msg_shown := false |})
  end.

(** Lines 150-166: the body of [if calibrating:]. *)
Definition calibrate (filtered t : Q) : M (locals * world) unit :=
  l <~ locals_get ;;
  (if calibration_msg_shown l then mret tt
   else in_world (logging_info PleaseWait) ;;;
        assign (set_calibration_msg_shown true)) ;;;
  assign (fun l => set_amp (observe (amp_min l) (amp_max l) filtered) l) ;;;
  l <~ locals_get ;;
  if Qle_bool calibration_duration (t - start_time l) then
    assign (set_calibrating false) ;;;
    in_world (logging_info (CalibrationComplete (amp_min l) (amp_max l)))
  else mret tt.

(** Lines 167-169: the body of [else:]. *)
Definition modulate (filtered : Q) : M (locals * world) unit :=
  l <~ locals_get ;;
  r <~ mlift (bounds (amp_min l) (amp_max l)) ;;
  cc_value <~ mlift (map_amp_to_cc filtered (fst r) (snd r)) ;;
  in_world (MidiOut_send_cc (cc a) cc_value (channel_midi a)).

(** Lines 140-169: one pass through [while True]. *)
Definition body (p : poll) : M (locals * world) bool :=
  match sample p with
  | None => mret true             (* continue *)
  | Some s =>
      raw <~ mlift (Py.getitem s (channel a)) ;;
      l <~ locals_get ;;
      let '(filtered, f) := RespFilter_add (filt l) raw in
      assign (set_filt f) ;;;
      in_world (vis_put filtered) ;;;
      (if calibrating l then calibrate filtered (now p)
       else modulate filtered) ;;;
      mret true
  end.

Definition bridge_worker (t0 : Q) (resolved : list stream_info)
           (ports : list string) : sys locals :=
  boot (setup t0 resolved) ports.

End Worker.
End LiveMod.

(** ** [resp_prerec_play.bridge_worker] *)
Module PrerecPlay.

Record args : Type := {
  sampling_rate : Q; midi_port : string;
  note_low : Z; note_high : Z; velocity : Z; cutoff : Q
}.

(** [remaining] is what the [for] loop has not visited yet. *)
Record locals : Type := {
  remaining : list Q; dt : Q; amp_min : Q; amp_max : Q; prev_note : option Z
}.

Definition set_remaining (r : list Q) (l : locals) : locals :=
  {| remaining := r; dt := dt l; amp_min := amp_min l; amp_max := amp_max l;
     prev_note := prev_note l |}.

Definition set_prev_note (n : option Z) (l : locals) : locals :=
  {| remaining := remaining l; dt := dt l; amp_min := amp_min l;
     amp_max := amp_max l; prev_note := n |}.

Section Worker.
Context (sp : scipy_signal) (a : args).

(** Lines 107-126: load, filter the whole recording, calibrate on
    it.  [rows] are the data rows of the input file. *)
Definition setup (rows : list Q) : M world (option locals) :=
  logging_info LoadingFile ;;;
  let data := np_loadtxt rows in
  let fs := sampling_rate a in
  d <~ mlift (Py.truediv 1 fs) ;;
  f <~ mlift (RespFilter_init sp fs (cutoff a)) ;;
  MidiOut_init (midi_port a) ;;;
  logging_info PleaseWait ;;;
  xs <~ mlift (iterate data) ;;
  let filtered_data := filter_all f xs in
  lo <~ mlift (np_min filtered_data) ;;
  hi <~ mlift (np_max filtered_data) ;;
  logging_info (CalibrationComplete (Some lo) (Some hi)) ;;;
  mret (Some {| remaining := filtered_data; dt := d;
                amp_min := lo; amp_max := hi; prev_note := None |}).

(** Lines 130-149: one pass through [for filtered in filtered_data],
    or leaving the loop when the data is used up. *)
Definition body (_ : unit) : M (locals * world) bool :=
  l <~ locals_get ;;
  match remaining l with
  | [] => mret false
  | filtered :: rest =>
      assign (set_remaining rest) ;;;
      in_world (vis_put filtered) ;;;
      note <~ mlift (map_amp_to_note filtered (amp_min l) (amp_max l)
                       (note_low a) (note_high a)) ;;
      note_update prev_note (fun n => set_prev_note (Some n)) false
                  (velocity a) note ;;;
      in_world (time_sleep (dt l)) ;;;
      mret true
  end.

Definition bridge_worker (rows : list Q) (ports : list string) : sys locals :=
  boot (setup rows) ports.

End Worker.
End PrerecPlay.

(** ** [resp_prerec_mod.bridge_worker] *)
Module PrerecMod.

Record args : Type := {
  sampling_rate : Q; midi_port : string;
  cc : Z; channel_midi : Z; cutoff : Q
}.

Record locals : Type := {
  remaining : list Q; dt : Q; amp_min : Q; amp_max : Q
}.

Definition set_remaining (r : list Q) (l : locals) : locals :=
  {| remaining := r; dt := dt l; amp_min := amp_min l; amp_max := amp_max l |}.

Section Worker.
Context (sp : scipy_signal) (a : args).

(** Lines 107-124: load, filter the whole recording, calibrate.
    [rows] are the data rows of the input file. *)
Definition setup (rows : list Q) : M world (option locals) :=
  logging_info LoadingFile ;;;
  let data := np_loadtxt rows in
  let fs := sampling_rate a in
  d <~ mlift (Py.truediv 1 fs) ;;
  f <~ mlift (RespFilter_init sp fs (cutoff a)) ;;
  MidiOut_init (midi_port a) ;;;
  logging_info PleaseWait ;;;
  xs <~ mlift (iterate data) ;;
  let filtered_data := filter_all f xs in
  lo <~ mlift (np_min filtered_data) ;;
  hi <~ mlift (np_max filtered_data) ;;
  logging_info (CalibrationComplete (Some lo) (Some hi)) ;;;
  mret (Some {| remaining := filtered_data; dt := d;
                amp_min := lo; amp_max := hi |}).

(** Lines 128-134: one pass through the [for] loop, or leaving it. *)
Definition body (_ : unit) : M (locals * world) bool :=
  l <~ locals_get ;;
  match remaining l with
  | [] => mret false
  | filtered :: rest =>
      assign (set_remaining rest) ;;;
      in_world (vis_put filtered) ;;;
      cc_value <~ mlift (map_amp_to_cc filtered (amp_min l) (amp_max l)) ;;
      in_world (MidiOut_send_cc (cc a) cc_value (channel_midi a)) ;;;
      in_world (time_sleep (dt l)) ;;;
      mret true
  end.

Definition bridge_worker (rows : list Q) (ports : list string) : sys locals :=
  boot (setup rows) ports.

End Worker.
End PrerecMod.

(** ** What a run leaves behind *)

(** The locals of a worker that reached its loop, running or stopped. *)
Definition locals_of {L : Type} (s : sys L) : option L :=
  match thread s with
  | Running l | Stopped _ l => Some l
  | Aborted _ => None
  end.

Definition terminated {L : Type} (s : sys L) : bool :=
  match thread s with
  | Running _ => false
  | _ => true
  end.

Definition how_stopped {L : Type} (s : sys L) : option exit :=
  match thread s with
  | Running _ => None
  | Stopped how _ | Aborted how => Some how
  end.

(** The device trace seen from the state machine: nothing was sent
    while Silent at the start, and in Sounding(n) the last message is
    the note_on of [n], with no note_off after it. *)
Definition last_is_note_on (velocity : Z) (st : option Z) (dev : list message)
  : Prop :=
  match st with
  | None => dev = []
  | Some n => exists earlier, dev = earlier ++ [note_on n velocity]
  end.

(** The same, with the sounding note between the two configured
    notes. *)
Definition sounding_trace (note_low note_high velocity : Z) (st : option Z)
           (dev : list message) : Prop :=
  last_is_note_on velocity st dev
  /\ (forall p, st = Some p ->
                (Z.min note_low note_high <= p <= Z.max note_low note_high)%Z).

(** Still calibrating since [t0], nothing sent. *)
Definition live_play_calibrating (t0 : Q) (l : LivePlay.locals)
           (dev : list message) : Prop :=
  LivePlay.calibrating l = true /\ LivePlay.start_time l = t0 /\ dev = [].

Definition live_mod_calibrating (t0 : Q) (l : LiveMod.locals)
           (dev : list message) : Prop :=
  LiveMod.calibrating l = true /\ LiveMod.start_time l = t0 /\ dev = [].

(** Every sample of the events was read while the calibration window
    that opened at [t0] was still open. *)
Definition window_open (t0 : Q) (es : list (event poll)) : Prop :=
  Forall (fun e => match e with
                   | Iterate p => now p - t0 < calibration_duration
                   | _ => True
                   end) es.

(** ** The command line's default arguments ([cli.py]) *)

Definition default_live_play : LivePlay.args :=
  {| LivePlay.midi_port := "HCI 1"; LivePlay.note_low := 40;
     LivePlay.note_high := 80; LivePlay.velocity := 100;
     LivePlay.cutoff := 1; LivePlay.channel := 1; LivePlay.stream_index := 0 |}.

Definition default_live_mod : LiveMod.args :=
  {| LiveMod.midi_port := "HCI 1"; LiveMod.cc := 115; LiveMod.channel_midi := 0;
     LiveMod.cutoff := 1; LiveMod.channel := 1; LiveMod.stream_index := 0 |}.

Definition default_prerec_play : PrerecPlay.args :=
  {| PrerecPlay.sampling_rate := 1000; PrerecPlay.midi_port := "HCI 1";
     PrerecPlay.note_low := 40; PrerecPlay.note_high := 80;
     PrerecPlay.velocity := 100; PrerecPlay.cutoff := 1 |}.

Definition default_prerec_mod : PrerecMod.args :=
  {| PrerecMod.sampling_rate := 1000; PrerecMod.midi_port := "HCI 1";
     PrerecMod.cc := 115; PrerecMod.channel_midi := 0; PrerecMod.cutoff := 1 |}.

(** ** The relay under a sequence of operations *)

(** What can happen to the relay: the worker offers a value with
    [put_nowait] (a refused value leaves the queue as it was), or the
    visualiser's timer drains it. *)
Inductive relay_op : Type :=
| Enqueue (v : Q)
| Drain.

Definition relay_apply (q : Queue) (op : relay_op) : Queue :=
  match op with
  | Enqueue v => match put_nowait q v with
                 | Ok q' => q'
                 | Raise _ => q
                 end
  | Drain => fst (RespVisualiser_update buffer_len q [])
  end.

(** The relay that [main] constructs, after a sequence of operations. *)
Definition relay_after (ops : list relay_op) : Queue :=
  fold_left relay_apply ops (Queue_init relay_capacity).

(** ** Reference definitions that follow the specification's wording *)



(** The value the note mapper rounds: the clamped fraction interpolated
    into the note range. *)
Definition interpolated (x xmin xmax : Q) (note_low note_high : Z) : Q :=
  inject_Z note_low
  + Py.clip ((x - xmin) / (xmax - xmin)) 0 1 * inject_Z (note_high - note_low).


(** The state machine on its own: the note is the only local, and a
    sequence of mapped notes is fed to it one after the other, in the
    live worker's order of statements ([assign_first]) or in the
    prerecorded worker's; an exception ends the feed. *)
Fixpoint drive (assign_first : bool) (velocity : Z) (notes : list Z)
  : M (option Z * world) unit :=
  match notes with
  | [] => mret tt
  | n :: rest =>
      note_update (fun st => st) (fun m _ => Some m) assign_first velocity n ;;;
      drive assign_first velocity rest
  end.

(** Arguments with which every message a note worker builds passes
    [mido.Message]: both notes and the velocity are data bytes. *)
Definition midi_note_args (note_low note_high velocity : Z) : Prop :=
  (0 <= note_low <= 127)%Z /\ (0 <= note_high <= 127)%Z
  /\ (0 <= velocity <= 127)%Z.

(** The same for a controller worker: the controller is a data byte
    and the channel one of the sixteen. *)
Definition midi_cc_args (cc channel : Z) : Prop :=
  (0 <= cc <= 127)%Z /\ (0 <= channel <= 15)%Z.

(** A sample scipy: the design of [butter(2, 0.002)] (1 Hz at 1 kHz) to
    eight decimals for every cutoff, and its steady-state conditions. *)
Definition sample_scipy : scipy_signal :=
  {| butter_design := fun _ =>
       {| b0 := 982591 # 100000000000; b1 := 1965182 # 100000000000;
          b2 := 982591 # 100000000000;
          a1 := - (199111429 # 100000000); a2 := 99115360 # 100000000 |};
     lfilter_zi := fun c => (1 - b0 c, b2 c - a2 c) |}.

(** ** Vocabulary for the properties of the relay *)

(** The values the worker offered, in order. *)
Fixpoint offered (ops : list relay_op) : list Q :=
  match ops with
  | [] => []
  | Enqueue v :: rest => v :: offered rest
  | Drain :: rest => offered rest
  end.

(** The relay together with what the visualiser has taken out of it so
    far: [update] takes every queued value, oldest first. *)
Definition relay_deliver (s : Queue * list Q) (op : relay_op) : Queue * list Q :=
  match op with
  | Enqueue v => (relay_apply (fst s) (Enqueue v), snd s)
  | Drain => (relay_apply (fst s) Drain, snd s ++ items (fst s))
  end.

Definition delivered (ops : list relay_op) : Queue * list Q :=
  fold_left relay_deliver ops (Queue_init relay_capacity, []).

(** [l] is [m] with some elements left out, the others in order. *)
Inductive subseq {A : Type} : list A -> list A -> Prop :=
| subseq_nil : subseq [] []
| subseq_skip (x : A) (l m : list A) : subseq l m -> subseq l (x :: m)
| subseq_take (x : A) (l m : list A) : subseq l m -> subseq (x :: l) (x :: m).

(** ** Vocabulary for the properties of the calibrator *)

(** The running bounds are unset, or set and in order. *)
Definition bounds_in_order (amp_min amp_max : option Q) : Prop :=
  (amp_min = None /\ amp_max = None)
  \/ exists lo hi, amp_min = Some lo /\ amp_max = Some hi /\ lo <= hi.

(** The live workers' calibration state is consistent: bounds in order,
    and set once calibration is over. *)
Definition live_play_calibrated (l : LivePlay.locals) : Prop :=
  bounds_in_order (LivePlay.amp_min l) (LivePlay.amp_max l)
  /\ (LivePlay.calibrating l = false -> LivePlay.amp_min l <> None).

Definition live_mod_calibrated (l : LiveMod.locals) : Prop :=
  bounds_in_order (LiveMod.amp_min l) (LiveMod.amp_max l)
  /\ (LiveMod.calibrating l = false -> LiveMod.amp_min l <> None).

(** How a live loop can be left: by cancellation, on a sample without
    the configured channel, on a full relay, with the [ValueError] of
    a rejected message (or of a value that is not a number), or with
    the [OverflowError] of a number too large for the operation it
    meets (which exact arithmetic does not produce). *)
Definition live_exit (how : exit) : Prop :=
  how = Cancelled \/ how = Failed IndexError \/ how = Failed Full
  \/ how = Failed ValueError \/ how = Failed OverflowError.

(** How a prerecorded loop with a positive pace can be left: at the
    end of the recording, or as a live loop but for the sample's
    channel. *)
Definition prerec_exit (how : exit) : Prop :=
  how = NormalExit \/ how = Cancelled \/ how = Failed Full
  \/ how = Failed ValueError \/ how = Failed OverflowError.

(** ** Vocabulary for the properties of the device trace *)

(** A control change on the configured controller and channel, with a
    value that is a MIDI data byte. *)
Definition is_cc (cc channel : Z) (m : message) : Prop :=
  exists v : Z, m = control_change cc v channel /\ (0 <= v <= 127)%Z.

(** A note message of the configured velocity, on a note between the
    two configured notes. *)
Definition is_note (note_low note_high velocity : Z) (m : message) : Prop :=
  exists n : Z,
    (m = note_on n velocity \/ m = note_off n)
    /\ (Z.min note_low note_high <= n <= Z.max note_low note_high)%Z.

(** A monophonic instrument listening to the device: nothing heard
    yet, a note sounding, or a note just released. *)
Inductive voice : Type :=
| Fresh
| Sounding (n : Z)
| Released (n : Z).

(** What the instrument makes of one more message; [None] when the
    message does not fit: a note_on over a sounding note, a note_on
    that repeats the note just released, a note_off of a note that is
    not sounding, or anything that is not a note message. *)
Definition hear (st : option voice) (m : message) : option voice :=
  match st, m with
  | Some Fresh, note_on n _ => Some (Sounding n)
  | Some (Released p), note_on n _ =>
      if (n =? p)%Z then None else Some (Sounding n)
  | Some (Sounding p), note_off n =>
      if (n =? p)%Z then Some (Released p) else None
  | _, _ => None
  end.

Definition hear_all (dev : list message) : option voice :=
  fold_left hear dev (Some Fresh).

(** The voice that goes with the state machine's state. *)
Definition voice_of (prev_note : option Z) : voice :=
  match prev_note with
  | None => Fresh
  | Some n => Sounding n
  end.

(** A property [R] of the state machine's state and the device trace,
    for a live note worker that has sent nothing and is Silent for as
    long as it calibrates. *)
Definition live_trace_invariant (R : option Z -> list message -> Prop)
           (l : LivePlay.locals) (dev : list message) : Prop :=
  (LivePlay.calibrating l = true -> dev = [] /\ LivePlay.prev_note l = None)
  /\ R (LivePlay.prev_note l) dev.

(** Every message on the device is a note message of the configured
    velocity within the two notes, and so is the sounding note. *)
Definition in_range_trace (note_low note_high velocity : Z) (st : option Z)
           (dev : list message) : Prop :=
  Forall (is_note note_low note_high velocity) dev
  /\ (forall p, st = Some p ->
                (Z.min note_low note_high <= p <= Z.max note_low note_high)%Z).

(** The device trace of a note worker in state [st]: the instrument
    follows it and ends in the voice of [st], and every message is a
    note message of the configured velocity within the two notes. *)
Definition note_trace (note_low note_high velocity : Z) (st : option Z)
           (dev : list message) : Prop :=
  hear_all dev = Some (voice_of st)
  /\ Forall (is_note note_low note_high velocity) dev
  /\ (forall p, st = Some p ->
                (Z.min note_low note_high <= p <= Z.max note_low note_high)%Z).

(** ** Vocabulary for the properties of a prerecorded run *)


(** The controller value and the note a sample maps to (the rational
    mappers return on every input; the default is not used). *)
Definition cc_value (amp_min amp_max y : Q) : Z :=
  match map_amp_to_cc y amp_min amp_max with
  | Ok v => v
  | Raise _ => 0%Z
  end.


(** A world that differs from [w] in the device trace only. *)
Definition with_device (dev : list message) (w : world) : world :=
  {| device := dev; vis_queue := vis_queue w; vis_buffer := vis_buffer w;
     log := log w; output_names := output_names w |}.

(** * Properties *)

(** ** Rounding and clipping *)

Lemma round_compat (x y : Q) : x == y -> Py.round x = Py.round y.
Proof.
  intros E. unfold Py.round.
  rewrite (Qfloor_comp _ _ E).
  assert (C : Qcompare (x - inject_Z (Qfloor y)) (1 # 2)
              = Qcompare (y - inject_Z (Qfloor y)) (1 # 2)).
  { apply Qcompare_comp; [rewrite E; reflexivity | reflexivity]. }
  rewrite C. reflexivity.
Qed.

Lemma floor_bounds (x : Q) :
  inject_Z (Qfloor x) <= x /\ x < inject_Z (Qfloor x) + 1.
Proof.
  split; [apply Qfloor_le|].
  pose proof (Qlt_floor x) as H.
  rewrite inject_Z_plus in H. exact H.
Qed.

(** The three cases of [round], with what each says about [x]. *)
Lemma round_cases (x : Q) :
  let n := Qfloor x in
  (x - inject_Z n < 1 # 2 /\ Py.round x = n)
  \/ (1 # 2 < x - inject_Z n /\ Py.round x = (n + 1)%Z)
  \/ (x - inject_Z n == 1 # 2 /\ Py.round x = if Z.even n then n else (n + 1)%Z).
Proof.
  intros n. unfold Py.round. fold n.
  destruct (Qcompare (x - inject_Z n) (1 # 2)) eqn:C.
  - right; right. split; [apply Qeq_alt; exact C | reflexivity].
  - left. split; [apply Qlt_alt; exact C | reflexivity].
  - right; left. split; [apply Qgt_alt; exact C | reflexivity].
Qed.

Lemma round_inject_Z (n : Z) : Py.round (inject_Z n) = n.
Proof.
  pose proof (round_cases (inject_Z n)) as H. cbv zeta in H.
  rewrite Qfloor_Z in H.
  destruct H as [[_ H] | [[H _] | [H _]]]; [exact H | exfalso; lra | exfalso; lra].
Qed.



Lemma round_monotone (x y : Q) : x <= y -> (Py.round x <= Py.round y)%Z.
Proof.
  intros L.
  pose proof (Qfloor_resp_le _ _ L) as FL.
  pose proof (floor_bounds x) as [X1 X2].
  pose proof (floor_bounds y) as [Y1 Y2].
  pose proof (round_cases x) as HX. pose proof (round_cases y) as HY.
  cbv zeta in HX, HY.
  destruct (Z.eq_dec (Qfloor x) (Qfloor y)) as [E | NE].
  - rewrite E in *.
    destruct HX as [[HX EX] | [[HX EX] | [HX EX]]];
      destruct HY as [[HY EY] | [[HY EY] | [HY EY]]];
      rewrite EX, EY; clear EX EY FL; try destruct (Z.even (Qfloor y));
      try lia; exfalso; lra.
  - assert (Qfloor x + 1 <= Qfloor y)%Z by lia.
    assert (Py.round x <= Qfloor x + 1)%Z.
    { destruct HX as [[_ EX] | [[_ EX] | [_ EX]]]; rewrite EX;
        try destruct (Z.even (Qfloor x)); lia. }
    assert (Qfloor y <= Py.round y)%Z.
    { destruct HY as [[_ EY] | [[_ EY] | [_ EY]]]; rewrite EY;
        try destruct (Z.even (Qfloor y)); lia. }
    lia.
Qed.

Lemma round_between (v : Q) (a b : Z) :
  inject_Z a <= v <= inject_Z b -> (a <= Py.round v <= b)%Z.
Proof.
  intros [A B]. split.
  - rewrite <- (round_inject_Z a). apply round_monotone, A.
  - rewrite <- (round_inject_Z b). apply round_monotone, B.
Qed.

Lemma clip_bounds (x lo hi : Q) : lo <= hi -> lo <= Py.clip x lo hi <= hi.
Proof.
  intros L. unfold Py.clip.
  destruct (Qlt_le_dec x lo); cbv zeta;
    match goal with |- context [Qlt_le_dec ?a ?b] => destruct (Qlt_le_dec a b) end;
    split; lra.
Qed.

Lemma clip_monotone (x y lo hi : Q) :
  x <= y -> Py.clip x lo hi <= Py.clip y lo hi.
Proof.
  intros L. unfold Py.clip.
  destruct (Qlt_le_dec x lo); destruct (Qlt_le_dec y lo); cbv zeta;
    repeat match goal with
           | |- context [Qlt_le_dec ?a ?b] => destruct (Qlt_le_dec a b)
           end; lra.
Qed.

Lemma clip_compat (x y lo hi : Q) : x == y -> Py.clip x lo hi == Py.clip y lo hi.
Proof.
  intros E. apply Qle_antisym; apply clip_monotone; lra.
Qed.

Lemma clip_inside (x lo hi : Q) : lo <= x <= hi -> Py.clip x lo hi == x.
Proof.
  intros [L H]. unfold Py.clip.
  destruct (Qlt_le_dec x lo); cbv zeta;
    match goal with |- context [Qlt_le_dec ?a ?b] => destruct (Qlt_le_dec a b) end;
    lra.
Qed.

(** ** The mappers in closed form *)

Lemma truediv_nonzero (a b : Q) : ~ b == 0 -> Py.truediv a b = Ok (a / b).
Proof.
  intros NZ. unfold Py.truediv.
  destruct (Qeq_bool b 0) eqn:E; [|reflexivity].
  apply Qeq_bool_iff in E. contradiction.
Qed.

Lemma map_amp_to_note_wide (x xmin xmax : Q) (lo hi : Z) :
  xmin < xmax ->
  map_amp_to_note x xmin xmax lo hi = Ok (Py.round (interpolated x xmin xmax lo hi)).
Proof.
  intros L. unfold map_amp_to_note.
  destruct (Qle_bool xmax xmin) eqn:E.
  - apply Qle_bool_iff in E. lra.
  - rewrite truediv_nonzero by lra. reflexivity.
Qed.

Lemma map_amp_to_cc_wide (x xmin xmax : Q) :
  xmin < xmax ->
  map_amp_to_cc x xmin xmax
  = Ok (Py.round (Py.clip ((x - xmin) / (xmax - xmin)) 0 1 * 127)).
Proof.
  intros L. unfold map_amp_to_cc.
  destruct (Qle_bool xmax xmin) eqn:E.
  - apply Qle_bool_iff in E. lra.
  - rewrite truediv_nonzero by lra. reflexivity.
Qed.

Lemma fraction_monotone (x1 x2 xmin xmax : Q) :
  xmin < xmax -> x1 <= x2 ->
  (x1 - xmin) / (xmax - xmin) <= (x2 - xmin) / (xmax - xmin).
Proof.
  intros L X. unfold Qdiv.
  apply Qmult_le_compat_r; [lra|].
  apply Qlt_le_weak, Qinv_lt_0_compat. lra.
Qed.

Lemma interpolated_bounds (x xmin xmax : Q) (lo hi : Z) :
  (lo <= hi)%Z ->
  inject_Z lo <= interpolated x xmin xmax lo hi <= inject_Z hi.
Proof.
  intros L. unfold interpolated.
  pose proof (clip_bounds ((x - xmin) / (xmax - xmin)) 0 1 ltac:(lra)) as [C0 C1].
  set (c := Py.clip _ 0 1) in *.
  assert (D : 0 <= inject_Z (hi - lo)).
  { change 0 with (inject_Z 0). rewrite <- Zle_Qle. lia. }
  assert (E : inject_Z hi == inject_Z lo + inject_Z (hi - lo)).
  { rewrite <- inject_Z_plus. apply inject_Z_injective. lia. }
  split.
  - pose proof (Qmult_le_0_compat _ _ C0 D). lra.
  - rewrite E.
    assert (c * inject_Z (hi - lo) <= 1 * inject_Z (hi - lo)).
    { apply Qmult_le_compat_r; assumption. }
    lra.
Qed.

Lemma interpolated_monotone (x1 x2 xmin xmax : Q) (lo hi : Z) :
  xmin < xmax -> (lo <= hi)%Z -> x1 <= x2 ->
  interpolated x1 xmin xmax lo hi <= interpolated x2 xmin xmax lo hi.
Proof.
  intros L N X. unfold interpolated.
  pose proof (clip_monotone _ _ 0 1 (fraction_monotone x1 x2 xmin xmax L X)) as C.
  assert (D : 0 <= inject_Z (hi - lo)).
  { change 0 with (inject_Z 0). rewrite <- Zle_Qle. lia. }
  pose proof (Qmult_le_compat_r _ _ _ C D). lra.
Qed.



(** ** The amplitude mappers: claims *)

(** C5. On a degenerate calibration range ([xmax <= xmin]) the note
    mapper returns the lowest note and the controller mapper returns 0,
    whatever the input; both return normally, so no division by the
    zero-width range takes place. *)
Theorem degenerate_range_fallback (x xmin xmax : Q) (note_low note_high : Z) :
  xmax <= xmin ->
  map_amp_to_note x xmin xmax note_low note_high = Ok note_low
  /\ map_amp_to_cc x xmin xmax = Ok 0%Z.
Proof.
  intros D. apply Qle_bool_iff in D.
  unfold map_amp_to_note, map_amp_to_cc. rewrite D. split; reflexivity.
Qed.

Lemma degenerate_range_fallback_witness :
  (1 # 2) <= (1 # 2)
  /\ map_amp_to_note 7 (1 # 2) (1 # 2) 40 80 = Ok 40%Z
  /\ map_amp_to_cc 7 (1 # 2) (1 # 2) = Ok 0%Z.
Proof.
  split; [apply Qle_refl|].
  apply (degenerate_range_fallback 7 (1 # 2) (1 # 2) 40 80). apply Qle_refl.
Defined.

Lemma fraction_at_min (xmin xmax : Q) :
  xmin < xmax -> Py.clip ((xmin - xmin) / (xmax - xmin)) 0 1 == 0.
Proof.
  intros L.
  assert (E : (xmin - xmin) / (xmax - xmin) == 0) by (field; lra).
  rewrite (clip_compat _ _ 0 1 E). apply clip_inside. lra.
Qed.

Lemma fraction_at_max (xmin xmax : Q) :
  xmin < xmax -> Py.clip ((xmax - xmin) / (xmax - xmin)) 0 1 == 1.
Proof.
  intros L.
  assert (E : (xmax - xmin) / (xmax - xmin) == 1) by (field; lra).
  rewrite (clip_compat _ _ 0 1 E). apply clip_inside. lra.
Qed.

(** C6. On a proper calibration range ([xmin < xmax]) and a note range
    [note_low <= note_high], the note mapper sends [xmin] to [note_low]
    and [xmax] to [note_high], exactly. *)
Theorem boundary_exactness (xmin xmax : Q) (note_low note_high : Z) :
  xmin < xmax -> (note_low <= note_high)%Z ->
  map_amp_to_note xmin xmin xmax note_low note_high = Ok note_low
  /\ map_amp_to_note xmax xmin xmax note_low note_high = Ok note_high.
Proof.
  intros L _. rewrite !map_amp_to_note_wide by exact L.
  unfold interpolated. split; f_equal.
  - transitivity (Py.round (inject_Z note_low)); [|apply round_inject_Z].
    apply round_compat.
    rewrite (fraction_at_min xmin xmax L). ring.
  - transitivity (Py.round (inject_Z note_high)); [|apply round_inject_Z].
    apply round_compat.
    rewrite (fraction_at_max xmin xmax L).
    unfold Zminus. rewrite inject_Z_plus, inject_Z_opp. ring.
Qed.

Lemma boundary_exactness_witness :
  map_amp_to_note (- (3 # 10)) (- (3 # 10)) (7 # 10) 40 80 = Ok 40%Z
  /\ map_amp_to_note (7 # 10) (- (3 # 10)) (7 # 10) 40 80 = Ok 80%Z.
Proof.
  apply (boundary_exactness (- (3 # 10)) (7 # 10) 40 80).
  - reflexivity.
  - lia.
Defined.

(** C7. On a proper calibration range and a note range
    [note_low <= note_high], every input is mapped to a note inside
    [note_low, note_high], and a larger input never maps to a lower
    note. *)
Theorem note_in_range_and_monotone (xmin xmax : Q) (note_low note_high : Z)
        (x1 x2 : Q) :
  xmin < xmax -> (note_low <= note_high)%Z -> x1 <= x2 ->
  exists n1 n2 : Z,
    map_amp_to_note x1 xmin xmax note_low note_high = Ok n1
    /\ map_amp_to_note x2 xmin xmax note_low note_high = Ok n2
    /\ (note_low <= n1 <= note_high)%Z
    /\ (note_low <= n2 <= note_high)%Z
    /\ (n1 <= n2)%Z.
Proof.
  intros L N X.
  exists (Py.round (interpolated x1 xmin xmax note_low note_high)),
         (Py.round (interpolated x2 xmin xmax note_low note_high)).
  rewrite !map_amp_to_note_wide by exact L.
  pose proof (interpolated_bounds x1 xmin xmax note_low note_high N) as [A1 B1].
  pose proof (interpolated_bounds x2 xmin xmax note_low note_high N) as [A2 B2].
  split; [reflexivity|]. split; [reflexivity|].
  split; [apply round_between; split; assumption|].
  split; [apply round_between; split; assumption|].
  apply round_monotone, interpolated_monotone; assumption.
Qed.

Lemma note_in_range_and_monotone_witness :
  exists n1 n2 : Z,
    map_amp_to_note (1 # 4) 0 1 40 80 = Ok n1
    /\ map_amp_to_note (3 # 4) 0 1 40 80 = Ok n2
    /\ (40 <= n1 <= 80)%Z /\ (40 <= n2 <= 80)%Z /\ (n1 <= n2)%Z.
Proof.
  apply (note_in_range_and_monotone 0 1 40 80 (1 # 4) (3 # 4)).
  - reflexivity.
  - lia.
  - discriminate.
Defined.

(** The controller mapper has the same two properties on [0, 127]. *)
Lemma cc_in_range_and_monotone (xmin xmax x1 x2 : Q) :
  xmin < xmax -> x1 <= x2 ->
  exists v1 v2 : Z,
    map_amp_to_cc x1 xmin xmax = Ok v1 /\ map_amp_to_cc x2 xmin xmax = Ok v2
    /\ (0 <= v1 <= v2)%Z /\ (v2 <= 127)%Z.
Proof.
  intros L X. rewrite !map_amp_to_cc_wide by exact L.
  do 2 eexists. split; [reflexivity|]. split; [reflexivity|].
  pose proof (clip_bounds ((x1 - xmin) / (xmax - xmin)) 0 1 ltac:(lra)) as [A1 B1].
  pose proof (clip_bounds ((x2 - xmin) / (xmax - xmin)) 0 1 ltac:(lra)) as [A2 B2].
  pose proof (clip_monotone _ _ 0 1 (fraction_monotone x1 x2 xmin xmax L X)) as M.
  split; [split|].
  - apply (round_between _ 0%Z 127%Z).
    change (inject_Z 0) with 0. change (inject_Z 127) with 127. lra.
  - apply round_monotone. lra.
  - apply (round_between _ 0%Z 127%Z).
    change (inject_Z 0) with 0. change (inject_Z 127) with 127. lra.
Qed.

(** The mappers on arbitrary input. *)

Lemma interpolated_between (x xmin xmax : Q) (lo hi : Z) :
  inject_Z (Z.min lo hi) <= interpolated x xmin xmax lo hi
  <= inject_Z (Z.max lo hi).
Proof.
  unfold interpolated.
  pose proof (clip_bounds ((x - xmin) / (xmax - xmin)) 0 1 ltac:(lra)) as [C0 C1].
  set (c := Py.clip _ 0 1) in *.
  assert (E : inject_Z (hi - lo) == inject_Z hi - inject_Z lo).
  { unfold Zminus. rewrite inject_Z_plus, inject_Z_opp. ring. }
  rewrite E.
  destruct (Z.le_ge_cases lo hi) as [L | L].
  - rewrite Z.min_l, Z.max_r by lia. rewrite Zle_Qle in L.
    set (p := inject_Z lo) in *. set (q := inject_Z hi) in *. split; nra.
  - rewrite Z.min_r, Z.max_l by lia. rewrite Zle_Qle in L.
    set (p := inject_Z lo) in *. set (q := inject_Z hi) in *. split; nra.
Qed.

Lemma map_note_between (x xmin xmax : Q) (note_min note_max : Z) :
  exists n : Z,
    map_amp_to_note x xmin xmax note_min note_max = Ok n
    /\ (Z.min note_min note_max <= n <= Z.max note_min note_max)%Z.
Proof.
  destruct (Qlt_le_dec xmin xmax) as [W | D].
  - exists (Py.round (interpolated x xmin xmax note_min note_max)).
    split; [apply map_amp_to_note_wide, W|].
    apply round_between, interpolated_between.
  - apply Qle_bool_iff in D. unfold map_amp_to_note. rewrite D.
    exists note_min. split; [reflexivity | lia].
Qed.

Lemma map_cc_between (x xmin xmax : Q) :
  exists v : Z, map_amp_to_cc x xmin xmax = Ok v /\ (0 <= v <= 127)%Z.
Proof.
  destruct (Qlt_le_dec xmin xmax) as [W | D].
  - destruct (cc_in_range_and_monotone xmin xmax x x W (Qle_refl x))
      as (v1 & v2 & E1 & E2 & B1 & B2).
    exists v1. split; [exact E1|]. rewrite E1 in E2. injection E2 as <-. lia.
  - apply Qle_bool_iff in D. unfold map_amp_to_cc. rewrite D.
    exists 0%Z. split; [reflexivity | lia].
Qed.

Lemma mapped_note_between (x lo hi : Q) (note_low note_high n : Z) :
  map_amp_to_note x lo hi note_low note_high = Ok n ->
  (Z.min note_low note_high <= n <= Z.max note_low note_high)%Z.
Proof.
  intros E. destruct (map_note_between x lo hi note_low note_high) as (m & E' & B).
  rewrite E in E'. injection E' as <-. exact B.
Qed.

(** A note between the two configured notes, with arguments that are
    data bytes, makes messages that [mido.Message] accepts. *)
Lemma midi_note_valid (note_low note_high velocity n : Z) :
  midi_note_args note_low note_high velocity ->
  (Z.min note_low note_high <= n <= Z.max note_low note_high)%Z ->
  mido_valid (note_on n velocity) = true /\ mido_valid (note_off n) = true
  /\ data_byte n = true /\ data_byte velocity = true.
Proof.
  intros (L & H & V) B.
  assert (Bn : data_byte n = true) by (unfold data_byte; lia).
  assert (Bv : data_byte velocity = true) by (unfold data_byte; lia).
  cbn. rewrite Bn, Bv. repeat split.
Qed.

Lemma midi_cc_valid (cc channel v : Z) :
  midi_cc_args cc channel -> (0 <= v <= 127)%Z ->
  mido_valid (control_change cc v channel) = true.
Proof.
  intros (C & H) B. cbn. unfold data_byte.
  repeat (apply andb_true_iff; split); lia.
Qed.





(** ** NoteStateMachine *)

Lemma data_byte_spec (v : Z) : data_byte v = true <-> (0 <= v <= 127)%Z.
Proof. unfold data_byte. rewrite andb_true_iff, !Z.leb_le. reflexivity. Qed.

(** A message that [mido.Message] accepts goes to the port. *)
Lemma emit_valid (m : message) (w : world) :
  mido_valid m = true -> emit m w = send m w.
Proof. intros V. unfold emit, mido_Message. rewrite V. reflexivity. Qed.

Lemma emit_inv (m : message) (w w' : world) (r : result unit) :
  emit m w = (r, w') ->
  (r = Ok tt /\ mido_valid m = true /\ device w' = device w ++ [m]
   /\ vis_queue w' = vis_queue w)
  \/ (r = Raise ValueError /\ mido_valid m = false /\ w' = w).
Proof.
  unfold emit, mido_Message. destruct (mido_valid m); intros [= <- <-];
    [left | right]; repeat split.
Qed.

(** The state machine on data bytes: it returns normally, a repeated
    note changes nothing, the first note and a changed note are sent
    and recorded. *)
Lemma note_update_run {L : Type} (get : L -> option Z) (set : Z -> L -> L)
      (assign_first : bool) (velocity note : Z) (l : L) (w : world) :
  data_byte velocity = true -> data_byte note = true ->
  (forall p, get l = Some p -> data_byte p = true) ->
  note_update get set assign_first velocity note (l, w)
  = (Ok tt,
     match get l with
     | None => (set note l, with_device (device w ++ [note_on note velocity]) w)
     | Some p =>
         if (note =? p)%Z then (l, w)
         else (set note l,
               with_device ((device w ++ [note_off p]) ++ [note_on note velocity]) w)
     end).
Proof.
  intros V N P.
  assert (ON : mido_valid (note_on note velocity) = true)
    by (cbn; rewrite N, V; reflexivity).
  unfold note_update, mbind, locals_get. cbn [fst snd].
  destruct (get l) as [p|].
  - destruct (note =? p)%Z; [reflexivity|].
    unfold in_world, MidiOut_note_off, MidiOut_note_on. cbn [fst snd].
    rewrite (emit_valid (note_off p)) by (cbn; apply P; reflexivity).
    cbn [send fst snd]. rewrite (emit_valid _ _ ON). reflexivity.
  - destruct assign_first; unfold in_world, assign, MidiOut_note_on;
      cbn [fst snd]; rewrite (emit_valid _ _ ON); reflexivity.
Qed.

Lemma drive_cons (assign_first : bool) (velocity n : Z) (rest : list Z)
      (s : option Z * world) :
  drive assign_first velocity (n :: rest) s
  = match note_update (fun st => st) (fun m _ => Some m) assign_first
                      velocity n s with
    | (Ok _, s') => drive assign_first velocity rest s'
    | (Raise e, s') => (Raise e, s')
    end.
Proof. reflexivity. Qed.

(** C3. For a velocity that is a data byte and in either worker's
    order of statements: from Silent, the mapped notes 40, 40, 41, 41,
    40 put exactly note_on(40), note_off(40), note_on(41),
    note_off(41), note_on(40) on the device and leave the machine in
    Sounding(40).  In general a repeated note sends nothing and changes
    nothing, and a changed note (both notes being data bytes) sends
    the note_off of the previous note and then the note_on of the new
    one. *)
Theorem note_sequence_events (assign_first : bool) (velocity : Z)
        (ports : list string) :
  (0 <= velocity <= 127)%Z ->
  (let out := drive assign_first velocity [40; 40; 41; 41; 40]%Z
                    (None, main_world ports) in
   fst out = Ok tt
   /\ device (snd (snd out))
      = [note_on 40 velocity; note_off 40; note_on 41 velocity;
         note_off 41; note_on 40 velocity]
   /\ fst (snd out) = Some 40%Z)
  /\ (forall (n : Z) (w : world),
         drive assign_first velocity [n] (Some n, w) = (Ok tt, (Some n, w)))
  /\ (forall (n m : Z) (w : world),
         (m <> n -> (0 <= n <= 127)%Z /\ (0 <= m <= 127)%Z) ->
         let out := drive assign_first velocity [m] (Some n, w) in
         fst out = Ok tt
         /\ fst (snd out) = Some m
         /\ device (snd (snd out))
            = device w ++ (if (m =? n)%Z then []
                           else [note_off n; note_on m velocity])).
Proof.
  intros V. apply data_byte_spec in V.
  assert (SAME : forall (n : Z) (w : world),
             drive assign_first velocity [n] (Some n, w) = (Ok tt, (Some n, w))).
  { intros n w. rewrite drive_cons.
    unfold note_update, mbind, locals_get. cbn [fst snd].
    rewrite Z.eqb_refl. reflexivity. }
  split; [|split; [exact SAME|]].
  - cbv zeta.
    repeat (rewrite drive_cons;
            rewrite (note_update_run (fun st => st) (fun m _ => Some m))
              by (try exact V; try reflexivity; intros p [= <-]; reflexivity);
            cbn [Z.eqb Pos.eqb]).
    cbn. repeat split.
  - intros n m w B. cbv zeta.
    destruct (Z.eq_dec m n) as [-> | NE].
    + rewrite SAME, Z.eqb_refl, app_nil_r. repeat split.
    + destruct (B NE) as [Bn Bm]. apply data_byte_spec in Bn, Bm.
      rewrite drive_cons.
      rewrite (note_update_run (fun st => st) (fun m _ => Some m))
        by (try assumption; intros p [= <-]; exact Bn).
      destruct (m =? n)%Z eqn:E; [apply Z.eqb_eq in E; contradiction|].
      cbn. rewrite <- app_assoc. repeat split.
Qed.

Lemma note_sequence_events_witness :
  let out := drive false 100 [40; 40; 41; 41; 40]%Z
                   (None, main_world ["HCI 1"%string]) in
  fst out = Ok tt
  /\ device (snd (snd out))
     = [note_on 40 100; note_off 40; note_on 41 100; note_off 41; note_on 40 100]
  /\ fst (snd out) = Some 40%Z.
Proof.
  apply (note_sequence_events false 100 ["HCI 1"%string]). lia.
Defined.

(** ** Stream selection *)

Lemma getitem_in_range {A : Type} (l : list A) (i : Z) :
  (0 <= i < Z.of_nat (List.length l))%Z ->
  exists a, Py.getitem l i = Ok a /\ nth_error l (Z.to_nat i) = Some a.
Proof.
  intros [L U]. unfold Py.getitem.
  destruct (i <? 0)%Z eqn:N; [apply Z.ltb_lt in N; lia|].
  rewrite N.
  destruct (nth_error l (Z.to_nat i)) as [a|] eqn:E.
  - exists a. split; reflexivity.
  - apply nth_error_None in E. lia.
Qed.

Lemma nth_error_last {A : Type} (l : list A) (a d : A) :
  nth_error l (List.length l - 1) = Some a -> last l d = a.
Proof.
  induction l as [|x l IH]; intros H.
  - discriminate.
  - destruct l as [|y l].
    + cbn in H |- *. congruence.
    + change (last (x :: y :: l) d) with (last (y :: l) d).
      apply IH. cbn in H |- *. rewrite Nat.sub_0_r in *. exact H.
Qed.

(** C10. With at least one matching stream and a non-negative
    [stream_index], selection returns the stream at position
    [min(stream_index, len - 1)]: it never raises, and an index past
    the end selects the last stream. *)
Theorem stream_selection_clamps (streams : list stream_info) (stream_index : Z) :
  streams <> [] -> (0 <= stream_index)%Z ->
  exists info : stream_info,
    select_stream streams stream_index = Ok info
    /\ nth_error streams
         (Z.to_nat (Z.min stream_index (Z.of_nat (List.length streams) - 1)))
       = Some info
    /\ ((Z.of_nat (List.length streams) - 1 <= stream_index)%Z ->
        forall d, last streams d = info).
Proof.
  intros NE NN.
  assert (P : (0 < Z.of_nat (List.length streams))%Z).
  { destruct streams; [contradiction | cbn; lia]. }
  destruct (getitem_in_range streams
              (Z.min stream_index (Z.of_nat (List.length streams) - 1)))
    as [info [G N]]; [lia|].
  exists info. split; [exact G|]. split; [exact N|].
  intros B d. apply nth_error_last.
  rewrite Z.min_r in N by lia.
  replace (List.length streams - 1)%nat
    with (Z.to_nat (Z.of_nat (List.length streams) - 1)) by lia.
  exact N.
Qed.

Lemma stream_selection_clamps_witness :
  select_stream [ {| name := "OpenSignals A"; nominal_srate := 100 |};
                  {| name := "OpenSignals B"; nominal_srate := 1000 |} ] 5
  = Ok {| name := "OpenSignals B"; nominal_srate := 1000 |}.
Proof.
  destruct (stream_selection_clamps
              [ {| name := "OpenSignals A"; nominal_srate := 100 |};
                {| name := "OpenSignals B"; nominal_srate := 1000 |} ] 5)
    as [info [S [_ L]]].
  - discriminate.
  - lia.
  - rewrite S. f_equal. symmetry. apply (L ltac:(cbn; lia) info).
Defined.

(** ** StreamingFilter construction *)

Lemma quotient_sign_pos (c d : Q) :
  0 < d -> (0 < c / d <-> 0 < c) /\ (c / d < 1 <-> c < d).
Proof.
  intros D.
  assert (E : c == c / d * d) by (field; lra).
  set (q := c / d) in *. split; split; intros H; nra.
Qed.

Lemma quotient_sign_neg (c d : Q) :
  d < 0 -> (0 < c / d <-> c < 0) /\ (c / d < 1 <-> d < c).
Proof.
  intros D.
  assert (E : c == c / d * d) by (field; lra).
  set (q := c / d) in *. split; split; intros H; nra.
Qed.

Lemma butter_accepts (sp : scipy_signal) (Wn : Q) :
  (0 < Wn /\ Wn < 1 -> butter sp Wn = Ok (butter_design sp Wn))
  /\ (~ (0 < Wn /\ Wn < 1) -> butter sp Wn = Raise ValueError).
Proof.
  unfold butter.
  destruct (Qlt_le_dec 0 Wn); destruct (Qlt_le_dec Wn 1); split; intros H;
    try reflexivity; exfalso; lra.
Qed.

Lemma RespFilter_init_nonzero (sp : scipy_signal) (fs cutoff : Q) :
  ~ fs == 0 ->
  RespFilter_init sp fs cutoff
  = c <- butter sp (cutoff / ((1 # 2) * fs)) ;;
    Ok {| ba := c; z := (fst (lfilter_zi sp c) * 0, snd (lfilter_zi sp c) * 0) |}.
Proof.
  intros NZ. unfold RespFilter_init.
  rewrite truediv_nonzero by lra. reflexivity.
Qed.

(** C9, as stated, fails: a negative rate with a negative cutoff
    satisfies both failure conditions of the claim, yet the normalised
    cutoff is 0.002 and the filter is constructed; and a zero cutoff
    at a positive rate meets neither condition, yet construction
    fails. *)
Lemma negative_rate_counterexample :
  (- (1000) <= 0
   /\ (1 # 2) * - (1000) <= - (1)
   /\ exists f, RespFilter_init sample_scipy (- (1000)) (- (1)) = Ok f)
  /\ (~ 1000 <= 0
      /\ ~ (1 # 2) * 1000 <= 0
      /\ RespFilter_init sample_scipy 1000 0 = Raise ValueError).
Proof.
  split.
  - split; [discriminate|]. split; [discriminate|].
    eexists. reflexivity.
  - split; [intros H; apply H; reflexivity|].
    split; [intros H; apply H; reflexivity|]. reflexivity.
Qed.

(** C9, amended. Constructing the filter succeeds exactly when the
    normalised cutoff [cutoff / (0.5 * fs)] lies strictly between 0 and
    1, that is for [0 < cutoff < 0.5 * fs] at a positive rate and for
    [0.5 * fs < cutoff < 0] at a negative one; then the state is the
    steady-state vector scaled by zero, namely zeros, and the
    coefficients are the design for that normalised cutoff.  In every
    other case it raises before any sample is processed: in particular
    for a zero rate (division by zero) and for every
    [cutoff >= 0.5 * fs] at a positive rate. *)
Theorem filter_construction (sp : scipy_signal) (fs cutoff : Q) :
  ((exists f : RespFilter,
       RespFilter_init sp fs cutoff = Ok f
       /\ fst (z f) == 0 /\ snd (z f) == 0
       /\ ba f = butter_design sp (cutoff / ((1 # 2) * fs)))
   <-> (0 < fs /\ 0 < cutoff /\ cutoff < (1 # 2) * fs)
       \/ (fs < 0 /\ (1 # 2) * fs < cutoff /\ cutoff < 0))
  /\ (fs == 0 -> RespFilter_init sp fs cutoff = Raise ZeroDivisionError)
  /\ (0 < fs -> (1 # 2) * fs <= cutoff ->
      RespFilter_init sp fs cutoff = Raise ValueError)
  /\ (forall f : RespFilter,
         RespFilter_init sp fs cutoff = Ok f -> fst (z f) == 0 /\ snd (z f) == 0).
Proof.
  assert (ZERO : fs == 0 -> RespFilter_init sp fs cutoff = Raise ZeroDivisionError).
  { intros E. unfold RespFilter_init, Py.truediv.
    assert (B : Qeq_bool ((1 # 2) * fs) 0 = true) by (apply Qeq_bool_iff; lra).
    rewrite B. reflexivity. }
  assert (STATE : forall f, RespFilter_init sp fs cutoff = Ok f ->
                            fst (z f) == 0 /\ snd (z f) == 0).
  { intros f. unfold RespFilter_init.
    destruct (Py.truediv cutoff ((1 # 2) * fs)) as [norm|]; [|discriminate].
    cbn. destruct (butter sp norm) as [c|]; [|discriminate].
    cbn. intros H. injection H as <-. split; apply Qmult_0_r. }
  destruct (butter_accepts sp (cutoff / ((1 # 2) * fs))) as [ACC REJ].
  split; [|split; [exact ZERO | split; [|exact STATE]]].
  - split.
    + intros [f [I _]].
      destruct (Q_dec fs 0) as [[NEG | POS] | Z0].
      * right. rewrite RespFilter_init_nonzero in I by lra.
        destruct (quotient_sign_neg cutoff ((1 # 2) * fs) ltac:(lra)) as [S1 S2].
        destruct (Qlt_le_dec 0 (cutoff / ((1 # 2) * fs))) as [A | A];
          [destruct (Qlt_le_dec (cutoff / ((1 # 2) * fs)) 1) as [B | B]|].
        -- apply S1 in A. apply S2 in B. lra.
        -- rewrite REJ in I by lra. discriminate.
        -- rewrite REJ in I by lra. discriminate.
      * left. rewrite RespFilter_init_nonzero in I by lra.
        destruct (quotient_sign_pos cutoff ((1 # 2) * fs) ltac:(lra)) as [S1 S2].
        destruct (Qlt_le_dec 0 (cutoff / ((1 # 2) * fs))) as [A | A];
          [destruct (Qlt_le_dec (cutoff / ((1 # 2) * fs)) 1) as [B | B]|].
        -- apply S1 in A. apply S2 in B. lra.
        -- rewrite REJ in I by lra. discriminate.
        -- rewrite REJ in I by lra. discriminate.
      * rewrite (ZERO Z0) in I. discriminate.
    + intros H.
      assert (NZ : ~ fs == 0) by (destruct H as [[? _] | [? _]]; lra).
      assert (IN : 0 < cutoff / ((1 # 2) * fs) /\ cutoff / ((1 # 2) * fs) < 1).
      { destruct H as [[P [C1 C2]] | [N [C1 C2]]].
        - destruct (quotient_sign_pos cutoff ((1 # 2) * fs) ltac:(lra)) as [S1 S2].
          split; [apply S1 | apply S2]; assumption.
        - destruct (quotient_sign_neg cutoff ((1 # 2) * fs) ltac:(lra)) as [S1 S2].
          split; [apply S1 | apply S2]; assumption. }
      eexists. rewrite RespFilter_init_nonzero by exact NZ.
      rewrite (ACC IN).
      split; [reflexivity|].
      split; [apply Qmult_0_r|]. split; [apply Qmult_0_r | reflexivity].
  - intros P C.
    rewrite RespFilter_init_nonzero by lra.
    destruct (quotient_sign_pos cutoff ((1 # 2) * fs) ltac:(lra)) as [_ S2].
    rewrite REJ; [reflexivity|]. intros [_ B]. apply S2 in B. lra.
Qed.

Lemma filter_construction_witness :
  RespFilter_init sample_scipy 1000 500 = Raise ValueError
  /\ RespFilter_init sample_scipy 0 1 = Raise ZeroDivisionError
  /\ exists f : RespFilter,
      RespFilter_init sample_scipy 1000 1 = Ok f
      /\ fst (z f) == 0 /\ snd (z f) == 0
      /\ ba f = butter_design sample_scipy (1 / ((1 # 2) * 1000)).
Proof.
  split; [|split].
  - apply (filter_construction sample_scipy 1000 500); [reflexivity | discriminate].
  - apply (filter_construction sample_scipy 0 1). reflexivity.
  - apply (filter_construction sample_scipy 1000 1).
    left. split; [reflexivity|]. split; reflexivity.
Defined.

(** ** BoundedRelay *)

Lemma put_nowait_cases (q : Queue) (v : Q) :
  put_nowait q v
  = if Queue_full q then Raise Full
    else Ok {| maxsize := maxsize q; items := items q ++ [v] |}.
Proof. reflexivity. Qed.

Lemma qsize_app (q : Queue) (v : Q) :
  qsize {| maxsize := maxsize q; items := items q ++ [v] |} = (qsize q + 1)%Z.
Proof.
  unfold qsize. cbn. rewrite length_app. cbn. lia.
Qed.

(** The capacity never changes and the length never passes it. *)
Lemma relay_apply_bounded (q : Queue) (op : relay_op) :
  maxsize q = relay_capacity -> (qsize q <= relay_capacity)%Z ->
  maxsize (relay_apply q op) = relay_capacity
  /\ (qsize (relay_apply q op) <= relay_capacity)%Z.
Proof.
  intros C B. destruct op as [v|]; cbn.
  - rewrite put_nowait_cases. unfold Queue_full.
    destruct ((0 <? maxsize q) && (maxsize q <=? qsize q))%Z eqn:F.
    + split; assumption.
    + split; [exact C|]. rewrite qsize_app.
      apply andb_false_iff in F. rewrite C in F. unfold relay_capacity in *.
      destruct F as [F | F]; [apply Z.ltb_ge in F | apply Z.leb_gt in F]; lia.
  - split; [exact C|]. unfold qsize, relay_capacity. cbn. lia.
Qed.

Lemma relay_fold_bounded (ops : list relay_op) (q : Queue) :
  maxsize q = relay_capacity -> (qsize q <= relay_capacity)%Z ->
  maxsize (fold_left relay_apply ops q) = relay_capacity
  /\ (qsize (fold_left relay_apply ops q) <= relay_capacity)%Z.
Proof.
  revert q. induction ops as [|op ops IH]; intros q C B; cbn.
  - split; assumption.
  - destruct (relay_apply_bounded q op C B) as [C' B']. apply IH; assumption.
Qed.

(** C2, as stated, fails: after 2000 accepted values the relay is
    full, and offering one more raises [Full] instead of returning. *)
Lemma full_relay_counterexample :
  let q := relay_after (repeat (Enqueue 0) 2000) in
  qsize q = relay_capacity
  /\ put_nowait q 1 = Raise Full
  /\ forall q' : Queue, put_nowait q 1 <> Ok q'.
Proof.
  assert (E : put_nowait (relay_after (repeat (Enqueue 0) 2000)) 1 = Raise Full)
    by (vm_compute; reflexivity).
  cbv zeta. split; [vm_compute; reflexivity|]. split; [exact E|].
  intros q'. rewrite E. discriminate.
Qed.

(** C2, amended. For every sequence of operations on the relay built
    by [main] (capacity 2000), the length never exceeds the capacity
    and an enqueue returns at once: onto a queue with room it stores
    the value at the back; onto a full queue it stores nothing, leaves
    the queue as it was, and reports [Full] to the producer. *)
Theorem relay_bounded_full_raises (ops : list relay_op) (v : Q) :
  let q := relay_after ops in
  maxsize q = 2000%Z
  /\ (qsize q <= 2000)%Z
  /\ put_nowait q v
     = (if (qsize q =? 2000)%Z then Raise Full
        else Ok {| maxsize := 2000; items := items q ++ [v] |})
  /\ relay_after (ops ++ [Enqueue v])
     = (if (qsize q =? 2000)%Z then q
        else {| maxsize := 2000; items := items q ++ [v] |}).
Proof.
  cbv zeta.
  destruct (relay_fold_bounded ops (Queue_init relay_capacity))
    as [C B]; [reflexivity | unfold qsize, relay_capacity; cbn; lia |].
  fold (relay_after ops) in C, B. unfold relay_capacity in C, B.
  assert (F : Queue_full (relay_after ops) = (qsize (relay_after ops) =? 2000)%Z).
  { unfold Queue_full. rewrite C. cbn.
    destruct (qsize (relay_after ops) =? 2000)%Z eqn:E.
    - apply Z.eqb_eq in E. apply Z.leb_le. lia.
    - apply Z.eqb_neq in E. apply Z.leb_gt. lia. }
  assert (P : put_nowait (relay_after ops) v
              = (if (qsize (relay_after ops) =? 2000)%Z then Raise Full
                 else Ok {| maxsize := 2000; items := items (relay_after ops) ++ [v] |})).
  { rewrite put_nowait_cases, F, C. reflexivity. }
  split; [exact C|]. split; [exact B|]. split; [exact P|].
  unfold relay_after at 1. rewrite fold_left_app. cbn.
  fold (relay_after ops). rewrite P.
  destruct (qsize (relay_after ops) =? 2000)%Z; reflexivity.
Qed.

(** ** Runs *)

Section RunFacts.
Context {L I : Type} (body : I -> M (L * world) bool).

(** A stopped worker stays stopped, and its device trace is final. *)
Lemma step_terminated (s : sys L) (e : event I) :
  terminated s = true ->
  thread (step body s e) = thread s
  /\ device (env (step body s e)) = device (env s).
Proof.
  intros T. destruct s as [[l | how l | how] w]; [discriminate | |];
    destruct e; cbn; split; reflexivity.
Qed.

Lemma run_terminated (es : list (event I)) (s : sys L) :
  terminated s = true ->
  thread (run body s es) = thread s
  /\ device (env (run body s es)) = device (env s).
Proof.
  revert s. induction es as [|e es IH]; intros s T.
  - split; reflexivity.
  - destruct (step_terminated s e T) as [A B].
    change (run body s (e :: es)) with (run body (step body s e) es).
    assert (T' : terminated (step body s e) = true).
    { unfold terminated in *. rewrite A. exact T. }
    destruct (IH _ T') as [C D]. split; congruence.
Qed.

(** A property of the locals and the device that setup establishes
    and every pass of the loop on an admissible input keeps, whatever
    its outcome, holds after every run on admissible inputs. *)
Lemma run_invariant (ok : I -> Prop) (P : L -> list message -> Prop) :
  (forall i l w r l' w',
      ok i -> body i (l, w) = (r, (l', w')) ->
      P l (device w) -> P l' (device w')) ->
  forall (es : list (event I)) (s : sys L),
    Forall (fun e => match e with Iterate i => ok i | _ => True end) es ->
    (forall l, locals_of s = Some l -> P l (device (env s))) ->
    forall l, locals_of (run body s es) = Some l ->
              P l (device (env (run body s es))).
Proof.
  intros B. induction es as [|e es IH]; intros s F H; [exact H|].
  change (run body s (e :: es)) with (run body (step body s e) es).
  inversion F as [|e0 es0 OK F']; subst.
  apply IH; [exact F'|]. clear IH.
  destruct s as [[l | how l | how] w]; destruct e as [i | |]; cbn in *;
    try exact H.
  destruct (body i (l, w)) as [[[|] | x] [l' w']] eqn:E; cbn;
    intros l0 [= <-]; apply (B _ _ _ _ _ _ OK E); apply H; reflexivity.
Qed.

Lemma run_locals_some (es : list (event I)) (s : sys L) (l : L) :
  locals_of s = Some l -> exists l', locals_of (run body s es) = Some l'.
Proof.
  revert s l. induction es as [|e es IH]; intros s l H.
  - exists l. exact H.
  - change (run body s (e :: es)) with (run body (step body s e) es).
    assert (K : exists l1, locals_of (step body s e) = Some l1).
    { destruct s as [[l0 | how l0 | how] w]; destruct e as [i | |];
        cbn in *; try discriminate; try (eexists; reflexivity).
      destruct (body i (l0, w)) as [[[|] | x] [l1 w1]];
        eexists; reflexivity. }
    destruct K as [l1 K]. exact (IH _ _ K).
Qed.

(** A worker that never reached its loop sends nothing afterwards. *)
Lemma run_aborted (es : list (event I)) (s : sys L) :
  locals_of s = None ->
  device (env (run body s es)) = device (env s).
Proof.
  intros A. apply run_terminated.
  unfold locals_of, terminated in *. destruct (thread s); congruence.
Qed.

End RunFacts.

(** ** Reading worker code backwards *)

Section Inversion.
Context {S : Type}.

Lemma mbind_inv {A B : Type} (m : M S A) (k : A -> M S B)
      (s s' : S) (r : result B) :
  mbind m k s = (r, s') ->
  (exists a s1, m s = (Ok a, s1) /\ k a s1 = (r, s'))
  \/ (exists e, m s = (Raise e, s') /\ r = Raise e).
Proof.
  unfold mbind. destruct (m s) as [[a | e] s1]; intros H.
  - left. exists a, s1. split; [reflexivity | exact H].
  - right. exists e. injection H as <- <-. split; reflexivity.
Qed.

Lemma mret_inv {A : Type} (a : A) (s s' : S) (r : result A) :
  mret a s = (r, s') -> r = Ok a /\ s' = s.
Proof. intros [= <- <-]. split; reflexivity. Qed.

Lemma mlift_inv {A : Type} (x : result A) (s s' : S) (r : result A) :
  mlift x s = (r, s') -> x = r /\ s' = s.
Proof. intros [= <- <-]. split; reflexivity. Qed.

End Inversion.

Section LocalsInversion.
Context {L : Type}.

Lemma locals_get_inv (s s' : L * world) (r : result L) :
  locals_get s = (r, s') -> r = Ok (fst s) /\ s' = s.
Proof. intros [= <- <-]. split; reflexivity. Qed.

Lemma assign_inv (f : L -> L) (s s' : L * world) (r : result unit) :
  assign f s = (r, s') -> r = Ok tt /\ s' = (f (fst s), snd s).
Proof. intros [= <- <-]. split; reflexivity. Qed.

Lemma in_world_inv {A : Type} (m : M world A) (s s' : L * world)
      (r : result A) :
  in_world m s = (r, s') -> exists w', m (snd s) = (r, w') /\ s' = (fst s, w').
Proof.
  unfold in_world. destruct (m (snd s)) as [r0 w0]. intros [= <- <-].
  exists w0. split; reflexivity.
Qed.

End LocalsInversion.

Lemma send_inv (m : message) (w w' : world) (r : result unit) :
  send m w = (r, w') ->
  r = Ok tt /\ device w' = device w ++ [m] /\ vis_queue w' = vis_queue w.
Proof. intros [= <- <-]. repeat split. Qed.

Lemma logging_info_inv (x : log_record) (w w' : world) (r : result unit) :
  logging_info x w = (r, w') ->
  r = Ok tt /\ device w' = device w /\ vis_queue w' = vis_queue w.
Proof. intros [= <- <-]. repeat split. Qed.

Lemma vis_put_inv (v : Q) (w w' : world) (r : result unit) :
  vis_put v w = (r, w') ->
  device w' = device w
  /\ vis_queue w' = relay_apply (vis_queue w) (Enqueue v)
  /\ (r = Ok tt \/ r = Raise Full /\ Queue_full (vis_queue w) = true).
Proof.
  unfold vis_put, relay_apply. rewrite put_nowait_cases.
  destruct (Queue_full (vis_queue w)); intros [= <- <-]; cbn;
    repeat split; auto.
Qed.

Lemma time_sleep_inv (d : Q) (w w' : world) (r : result unit) :
  time_sleep d w = (r, w') -> w' = w.
Proof.
  unfold time_sleep. destruct (Qlt_le_dec d 0); intros [= <- <-]; reflexivity.
Qed.

Lemma MidiOut_init_inv (port : string) (w w' : world) (r : result unit) :
  MidiOut_init port w = (r, w') -> w' = w.
Proof.
  unfold MidiOut_init.
  destruct (existsb (String.eqb port) (output_names w)); intros [= <- <-];
    reflexivity.
Qed.

(** Take the next statement off the front of an execution, with the
    state it leaves; an exception ends the execution there. *)
Tactic Notation "next_statement" hyp(H) "as" ident(a) ident(s) ident(H1) :=
  let e := fresh "e" in
  apply mbind_inv in H;
  destruct H as [(a & s & H1 & H) | (e & H1 & ->)].

Ltac read_statement H :=
  lazymatch type of H with
  | mret _ _ = _ => apply mret_inv in H; destruct H as [? ?]
  | mlift _ _ = _ => apply mlift_inv in H; destruct H as [? ?]
  | locals_get _ = _ => apply locals_get_inv in H; destruct H as [? ?]
  | assign _ _ = _ => apply assign_inv in H; destruct H as [? ?]
  | time_sleep _ _ = _ => apply time_sleep_inv in H
  | MidiOut_init _ _ = _ => apply MidiOut_init_inv in H
  | logging_info _ _ = _ => apply logging_info_inv in H; destruct H as (? & ? & ?)
  | send _ _ = _ => apply send_inv in H; destruct H as (? & ? & ?)
  end;
  subst; cbn [fst snd] in *;
  repeat match goal with
         | X : (_, _) = (_, _) |- _ => injection X as ? ?; subst
         | X : Ok ?x = Ok _ |- _ => is_var x; injection X as ->
         | X : Ok _ = Ok ?y |- _ => is_var y; injection X as <-
         end.

(** ** The note state machine inside the workers *)

Section NoteUpdateFrame.
Context {L A : Type} (get : L -> option Z) (set : Z -> L -> L) (proj : L -> A).
Hypothesis proj_set : forall n l, proj (set n l) = proj l.

(** The state machine returns normally or with the [ValueError] of a
    rejected message, and touches neither the relay nor any local but
    the note. *)
Lemma note_update_frame (assign_first : bool) (velocity note : Z) (l l' : L)
      (w w' : world) (r : result unit) :
  note_update get set assign_first velocity note (l, w) = (r, (l', w')) ->
  (r = Ok tt \/ r = Raise ValueError)
  /\ proj l' = proj l /\ vis_queue w' = vis_queue w.
Proof.
  unfold note_update, mbind, locals_get, assign, in_world, mret,
    MidiOut_note_on, MidiOut_note_off, emit, mido_Message.
  cbn [fst snd].
  destruct (get l) as [p|]; [destruct (note =? p)%Z | destruct assign_first];
    cbn [fst snd];
    repeat match goal with
           | |- context [mido_valid ?m] => destruct (mido_valid m)
           end;
    cbn [send fst snd]; intros [= <- <- <-]; rewrite ?proj_set; cbn;
    repeat split; auto.
Qed.

End NoteUpdateFrame.

Section NoteTrace.
Context (velocity : Z) (N : Z -> Prop) (R : option Z -> list message -> Prop).
Hypothesis R_first :
  forall n dev, N n -> R None dev -> R (Some n) (dev ++ [note_on n velocity]).
Hypothesis R_change :
  forall p n dev, N n -> n <> p -> R (Some p) dev ->
                  R (Some n) ((dev ++ [note_off p]) ++ [note_on n velocity]).
(** What a rejected note_on leaves behind: the note already assigned,
    or the previous note already released. *)
Hypothesis R_assigned :
  forall n dev, N n -> R None dev ->
                mido_valid (note_on n velocity) = false -> R (Some n) dev.
Hypothesis R_released :
  forall p n dev, N n -> R (Some p) dev ->
                  mido_valid (note_on n velocity) = false ->
                  R (Some p) (dev ++ [note_off p]).

(** One update keeps such an [R], whatever its outcome. *)
Lemma note_update_preserves {L : Type} (get : L -> option Z) (set : Z -> L -> L)
      (get_set : forall n l, get (set n l) = Some n)
      (assign_first : bool) (note : Z) (l l' : L) (w w' : world)
      (r : result unit) :
  note_update get set assign_first velocity note (l, w) = (r, (l', w')) ->
  N note -> R (get l) (device w) -> R (get l') (device w').
Proof.
  unfold note_update, mbind, locals_get, assign, in_world, mret,
    MidiOut_note_on, MidiOut_note_off, emit, mido_Message.
  cbn [fst snd].
  destruct (get l) as [p|] eqn:G.
  - destruct (note =? p)%Z eqn:E.
    + intros [= <- <- <-] _ H. rewrite G. exact H.
    + assert (NE : note <> p)
        by (intros ->; rewrite Z.eqb_refl in E; discriminate).
      destruct (mido_valid (note_off p)); cbn [send fst snd].
      * destruct (mido_valid (note_on note velocity)) eqn:ON; cbn [send fst snd];
          intros [= <- <- <-] NN H; cbn [device].
        -- rewrite get_set. apply R_change; assumption.
        -- rewrite G. apply (R_released p note); assumption.
      * intros [= <- <- <-] _ H. rewrite G. exact H.
  - destruct assign_first; cbn [fst snd];
      destruct (mido_valid (note_on note velocity)) eqn:ON; cbn [send fst snd];
      intros [= <- <- <-] NN H; cbn [device]; rewrite ?get_set, ?G.
    + apply R_first; assumption.
    + apply R_assigned; assumption.
    + apply R_first; assumption.
    + exact H.
Qed.

End NoteTrace.

Arguments note_update : simpl never.

(** A pass of the prerecorded note loop keeps such an [R]. *)
Lemma PrerecPlay_body_preserves (a : PrerecPlay.args)
      (N : Z -> Prop) (R : option Z -> list message -> Prop)
      (i : unit) (l l' : PrerecPlay.locals) (w w' : world) (r : result bool) :
  (forall n dev, N n -> R None dev ->
                 R (Some n) (dev ++ [note_on n (PrerecPlay.velocity a)])) ->
  (forall p n dev, N n -> n <> p -> R (Some p) dev ->
                   R (Some n) ((dev ++ [note_off p])
                                 ++ [note_on n (PrerecPlay.velocity a)])) ->
  (forall n dev, N n -> R None dev ->
                 mido_valid (note_on n (PrerecPlay.velocity a)) = false ->
                 R (Some n) dev) ->
  (forall p n dev, N n -> R (Some p) dev ->
                   mido_valid (note_on n (PrerecPlay.velocity a)) = false ->
                   R (Some p) (dev ++ [note_off p])) ->
  (forall x lo hi n,
      map_amp_to_note x lo hi (PrerecPlay.note_low a) (PrerecPlay.note_high a)
      = Ok n -> N n) ->
  PrerecPlay.body a i (l, w) = (r, (l', w')) ->
  R (PrerecPlay.prev_note l) (device w) ->
  R (PrerecPlay.prev_note l') (device w').
Proof.
  intros R1 R2 R3 R4 NM E H. unfold PrerecPlay.body in E.
  next_statement E as l0 s0 G0; [|read_statement G0; discriminate].
  read_statement G0.
  destruct (PrerecPlay.remaining l) as [|filtered rest];
    [read_statement E; exact H|].
  next_statement E as u1 s1 G1; [|read_statement G1; discriminate].
  read_statement G1.
  next_statement E as u2 s2 G2.
  2:{ apply in_world_inv in G2. destruct G2 as (w2 & P & E2).
      cbn [fst snd] in P, E2. injection E2 as -> ->.
      apply vis_put_inv in P. destruct P as (D & _). rewrite D. exact H. }
  apply in_world_inv in G2. destruct G2 as (w2 & P & ->).
  apply vis_put_inv in P. destruct P as (D & _). cbn [fst snd] in *.
  next_statement E as note s3 G3; [|read_statement G3; rewrite D; exact H].
  read_statement G3.
  assert (UPD : forall r4 l4 w4,
             note_update PrerecPlay.prev_note
               (fun n => PrerecPlay.set_prev_note (Some n)) false
               (PrerecPlay.velocity a) note
               (PrerecPlay.set_remaining rest l, w2) = (r4, (l4, w4)) ->
             R (PrerecPlay.prev_note l4) (device w4)).
  { intros r4 l4 w4 G4.
    apply (note_update_preserves (PrerecPlay.velocity a) N R R1 R2 R3 R4
             PrerecPlay.prev_note
             (fun n => PrerecPlay.set_prev_note (Some n))
             (fun _ _ => eq_refl)) in G4.
    - exact G4.
    - eapply NM. eassumption.
    - cbn. rewrite D. exact H. }
  next_statement E as u4 s4 G4; [|exact (UPD _ _ _ G4)].
  destruct s4 as [l4 w4]. pose proof (UPD _ _ _ G4) as H4.
  next_statement E as u5 s5 G5.
  - apply in_world_inv in G5. destruct G5 as (w5 & T & ->).
    apply time_sleep_inv in T. subst. read_statement E. exact H4.
  - apply in_world_inv in G5. destruct G5 as (w5 & T & E5).
    cbn [fst snd] in T, E5. injection E5 as -> ->.
    apply time_sleep_inv in T. subst. exact H4.
Qed.

(** *** The live note worker, block by block *)

Lemma LivePlay_calibrate_effect (filtered t : Q) (l l' : LivePlay.locals)
      (w w' : world) (r : result unit) :
  LivePlay.calibrate filtered t (l, w) = (r, (l', w')) ->
  r = Ok tt
  /\ device w' = device w
  /\ vis_queue w' = vis_queue w
  /\ LivePlay.start_time l' = LivePlay.start_time l
  /\ LivePlay.filt l' = LivePlay.filt l
  /\ (LivePlay.amp_min l', LivePlay.amp_max l')
     = observe (LivePlay.amp_min l) (LivePlay.amp_max l) filtered
  /\ (if Qle_bool calibration_duration (t - LivePlay.start_time l)
      then LivePlay.calibrating l' = false /\ LivePlay.prev_note l' = None
      else LivePlay.calibrating l' = LivePlay.calibrating l
           /\ LivePlay.prev_note l' = LivePlay.prev_note l).
Proof.
  unfold LivePlay.calibrate, mbind, locals_get, assign, in_world, mret. cbn.
  destruct (LivePlay.calibration_msg_shown l); cbn;
    destruct (Qle_bool calibration_duration (t - LivePlay.start_time l)); cbn;
    intros [= <- <- <-]; cbn;
    destruct (observe (LivePlay.amp_min l) (LivePlay.amp_max l) filtered);
    repeat split; reflexivity.
Qed.

Arguments LivePlay.calibrate : simpl never.
Arguments LivePlay.play : simpl never.

(** The live note loop is Silent with nothing sent for as long as it
    calibrates, and keeps such an [R] afterwards. *)
Section LiveNoteTrace.
Context (a : LivePlay.args) (N : Z -> Prop)
        (R : option Z -> list message -> Prop).
Hypothesis R_start : R None [].
Hypothesis R_first :
  forall n dev, N n -> R None dev ->
                R (Some n) (dev ++ [note_on n (LivePlay.velocity a)]).
Hypothesis R_change :
  forall p n dev, N n -> n <> p -> R (Some p) dev ->
                  R (Some n) ((dev ++ [note_off p])
                                ++ [note_on n (LivePlay.velocity a)]).
Hypothesis R_assigned :
  forall n dev, N n -> R None dev ->
                mido_valid (note_on n (LivePlay.velocity a)) = false ->
                R (Some n) dev.
Hypothesis R_released :
  forall p n dev, N n -> R (Some p) dev ->
                  mido_valid (note_on n (LivePlay.velocity a)) = false ->
                  R (Some p) (dev ++ [note_off p]).
Hypothesis N_mapped :
  forall x lo hi n,
    map_amp_to_note x lo hi (LivePlay.note_low a) (LivePlay.note_high a) = Ok n ->
    N n.

Lemma LivePlay_play_preserves (filtered : Q)
      (l l' : LivePlay.locals) (w w' : world) (r : result unit) :
  LivePlay.play a filtered (l, w) = (r, (l', w')) ->
  R (LivePlay.prev_note l) (device w) ->
  R (LivePlay.prev_note l') (device w')
  /\ LivePlay.calibrating l' = LivePlay.calibrating l.
Proof.
  unfold LivePlay.play. intros E H.
  next_statement E as l0 s0 G0; [|read_statement G0; discriminate].
  read_statement G0.
  next_statement E as b s1 G1; [|read_statement G1; split; [exact H | reflexivity]].
  read_statement G1.
  next_statement E as note s2 G2; [|read_statement G2; split; [exact H | reflexivity]].
  read_statement G2.
  split.
  - apply (note_update_preserves (LivePlay.velocity a) N R R_first R_change
             R_assigned R_released
             LivePlay.prev_note (fun n => LivePlay.set_prev_note (Some n))
             (fun _ _ => eq_refl)) in E; [exact E | | exact H].
    eapply N_mapped. eassumption.
  - apply (note_update_frame LivePlay.prev_note
             (fun n => LivePlay.set_prev_note (Some n))
             LivePlay.calibrating (fun _ _ => eq_refl)) in E.
    apply E.
Qed.

Lemma LivePlay_body_preserves (p : poll)
      (l l' : LivePlay.locals) (w w' : world) (r : result bool) :
  LivePlay.body a p (l, w) = (r, (l', w')) ->
  live_trace_invariant R l (device w) ->
  live_trace_invariant R l' (device w').
Proof.
  unfold LivePlay.body. intros E I.
  destruct (sample p) as [smp|]; [|read_statement E; exact I].
  next_statement E as raw s0 G; [|read_statement G; exact I].
  read_statement G.
  next_statement E as lr s1 G1; [|read_statement G1; discriminate].
  read_statement G1.
  destruct (RespFilter_add (LivePlay.filt l) raw) as [filtered f].
  next_statement E as u2 s2 G2; [|read_statement G2; discriminate].
  read_statement G2.
  assert (CAL : forall r3 l3 w3,
             (if LivePlay.calibrating l
              then LivePlay.calibrate filtered (now p) else mret tt)
               (LivePlay.set_filt f l, w) = (r3, (l3, w3)) ->
             r3 = Ok tt /\ live_trace_invariant R l3 (device w3)).
  { intros r3 l3 w3 G3. destruct I as [CALI LAST].
    destruct (LivePlay.calibrating l) eqn:C.
    - destruct (LivePlay_calibrate_effect _ _ _ _ _ _ _ G3)
        as [-> [D [_ [_ [_ [_ K]]]]]].
      split; [reflexivity|].
      destruct (CALI eq_refl) as [DE PN]. cbn in K.
      unfold live_trace_invariant. rewrite D, DE.
      destruct (Qle_bool calibration_duration _); destruct K as [K1 K2];
        rewrite K2; [|rewrite PN]; (split; [intros _; split; reflexivity|]);
        exact R_start.
    - read_statement G3. split; [reflexivity|].
      split; [cbn; intros X; congruence | exact LAST]. }
  next_statement E as u3 s3 G3;
    [|destruct (CAL _ _ _ G3) as [X _]; discriminate].
  destruct s3 as [l3 w3]. destruct (CAL _ _ _ G3) as [_ I3].
  next_statement E as u4 s4 G4.
  2:{ apply in_world_inv in G4. destruct G4 as (w4 & V & E4).
      cbn [fst snd] in V, E4. injection E4 as -> ->.
      apply vis_put_inv in V. destruct V as (D & _ & _). rewrite D. exact I3. }
  apply in_world_inv in G4. destruct G4 as (w4 & V & ->).
  apply vis_put_inv in V. destruct V as (D & _ & _). cbn [fst snd] in *.
  assert (I4 : live_trace_invariant R l3 (device w4)) by (rewrite D; exact I3).
  next_statement E as l5 s5 G5; [|read_statement G5; discriminate].
  read_statement G5.
  assert (PLAY : forall r6 l6 w6,
             (if negb (LivePlay.calibrating l3)
              then LivePlay.play a filtered else mret tt) (l3, w4)
             = (r6, (l6, w6)) ->
             live_trace_invariant R l6 (device w6)).
  { intros r6 l6 w6 G6.
    destruct (LivePlay.calibrating l3) eqn:C3; cbn [negb] in G6.
    - read_statement G6. exact I4.
    - apply LivePlay_play_preserves in G6; [|apply I4].
      destruct G6 as [P6 C6].
      split; [rewrite C6, C3; discriminate | exact P6]. }
  next_statement E as u6 s6 G6.
  - destruct s6 as [l6 w6]. read_statement E. exact (PLAY _ _ _ G6).
  - exact (PLAY _ _ _ G6).
Qed.

End LiveNoteTrace.

(** *** Setup sends nothing *)

Lemma LivePlay_setup_effect (sp : scipy_signal) (a : LivePlay.args) (t0 : Q)
      (resolved : list stream_info) (w w' : world)
      (r : result (option LivePlay.locals)) :
  LivePlay.setup sp a t0 resolved w = (r, w') ->
  device w' = device w
  /\ forall l, r = Ok (Some l) ->
               LivePlay.calibrating l = true /\ LivePlay.prev_note l = None
               /\ LivePlay.start_time l = t0.
Proof.
  unfold LivePlay.setup. intros E.
  next_statement E as u0 w0 G0; [|read_statement G0; discriminate].
  read_statement G0.
  destruct (matching_streams resolved) as [|s0 rest].
  - next_statement E as u1 w1 G1; [|read_statement G1; discriminate].
    read_statement G1. read_statement E.
    split; [congruence | discriminate].
  - next_statement E as info w1 G1;
      [|read_statement G1; split; [congruence | discriminate]].
    read_statement G1.
    next_statement E as u2 w2 G2; [|read_statement G2; discriminate].
    read_statement G2.
    next_statement E as f w3 G3;
      [|read_statement G3; split; [congruence | discriminate]].
    read_statement G3.
    next_statement E as u4 w4 G4;
      [|read_statement G4; split; [congruence | discriminate]].
    read_statement G4. read_statement E.
    split; [congruence|]. intros l [= <-]. repeat split.
Qed.

Lemma LiveMod_setup_effect (sp : scipy_signal) (a : LiveMod.args) (t0 : Q)
      (resolved : list stream_info) (w w' : world)
      (r : result (option LiveMod.locals)) :
  LiveMod.setup sp a t0 resolved w = (r, w') ->
  device w' = device w
  /\ forall l, r = Ok (Some l) ->
               LiveMod.calibrating l = true /\ LiveMod.start_time l = t0.
Proof.
  unfold LiveMod.setup. intros E.
  next_statement E as u0 w0 G0; [|read_statement G0; discriminate].
  read_statement G0.
  destruct (matching_streams resolved) as [|s0 rest].
  - next_statement E as u1 w1 G1; [|read_statement G1; discriminate].
    read_statement G1. read_statement E.
    split; [congruence | discriminate].
  - next_statement E as info w1 G1;
      [|read_statement G1; split; [congruence | discriminate]].
    read_statement G1.
    next_statement E as u2 w2 G2; [|read_statement G2; discriminate].
    read_statement G2.
    next_statement E as f w3 G3;
      [|read_statement G3; split; [congruence | discriminate]].
    read_statement G3.
    next_statement E as u4 w4 G4;
      [|read_statement G4; split; [congruence | discriminate]].
    read_statement G4. read_statement E.
    split; [congruence|]. intros l [= <-]. repeat split.
Qed.

Lemma PrerecPlay_setup_effect (sp : scipy_signal) (a : PrerecPlay.args)
      (data : list Q) (w w' : world) (r : result (option PrerecPlay.locals)) :
  PrerecPlay.setup sp a data w = (r, w') ->
  device w' = device w
  /\ forall l, r = Ok (Some l) -> PrerecPlay.prev_note l = None.
Proof.
  unfold PrerecPlay.setup. intros E.
  next_statement E as u0 w0 G0; [|read_statement G0; discriminate].
  read_statement G0.
  next_statement E as d w1 G1;
    [|read_statement G1; split; [congruence | discriminate]].
  read_statement G1.
  next_statement E as f w2 G2;
    [|read_statement G2; split; [congruence | discriminate]].
  read_statement G2.
  next_statement E as u3 w3 G3;
    [|read_statement G3; split; [congruence | discriminate]].
  read_statement G3.
  next_statement E as u4 w4 G4; [|read_statement G4; discriminate].
  read_statement G4.
  next_statement E as xs w8 G8;
    [|read_statement G8; split; [congruence | discriminate]].
  read_statement G8.
  next_statement E as lo w5 G5;
    [|read_statement G5; split; [congruence | discriminate]].
  read_statement G5.
  next_statement E as hi w6 G6;
    [|read_statement G6; split; [congruence | discriminate]].
  read_statement G6.
  next_statement E as u7 w7 G7; [|read_statement G7; discriminate].
  read_statement G7. read_statement E.
  split; [congruence|]. intros l [= <-]. reflexivity.
Qed.

(** What [boot] makes of a setup that sends nothing. *)
Lemma boot_effect {L : Type} (setup : M world (option L)) (ports : list string)
      (P : L -> Prop) :
  (forall w w' r, setup w = (r, w') ->
                  device w' = device w /\ forall l, r = Ok (Some l) -> P l) ->
  device (env (boot setup ports)) = []
  /\ forall l, locals_of (boot setup ports) = Some l -> P l.
Proof.
  intros H. unfold boot.
  destruct (setup (main_world ports)) as [[[l|] | x] w] eqn:E;
    destruct (H _ _ _ E) as [D K]; cbn; (split; [exact D|]);
    intros l0; try discriminate.
  intros [= <-]. apply K. reflexivity.
Qed.

(** *** The calibration window *)

Lemma window_test (t t0 : Q) :
  t - t0 < calibration_duration -> Qle_bool calibration_duration (t - t0) = false.
Proof.
  intros H. destruct (Qle_bool calibration_duration (t - t0)) eqn:E;
    [|reflexivity].
  apply Qle_bool_iff in E. lra.
Qed.

Lemma LiveMod_calibrate_effect (filtered t : Q) (l l' : LiveMod.locals)
      (w w' : world) (r : result unit) :
  LiveMod.calibrate filtered t (l, w) = (r, (l', w')) ->
  r = Ok tt
  /\ device w' = device w
  /\ vis_queue w' = vis_queue w
  /\ LiveMod.start_time l' = LiveMod.start_time l
  /\ LiveMod.filt l' = LiveMod.filt l
  /\ (LiveMod.amp_min l', LiveMod.amp_max l')
     = observe (LiveMod.amp_min l) (LiveMod.amp_max l) filtered
  /\ LiveMod.calibrating l'
     = (if Qle_bool calibration_duration (t - LiveMod.start_time l)
        then false else LiveMod.calibrating l).
Proof.
  unfold LiveMod.calibrate, mbind, locals_get, assign, in_world, mret. cbn.
  destruct (LiveMod.calibration_msg_shown l); cbn;
    destruct (Qle_bool calibration_duration (t - LiveMod.start_time l)); cbn;
    intros [= <- <- <-]; cbn;
    destruct (observe (LiveMod.amp_min l) (LiveMod.amp_max l) filtered);
    repeat split; reflexivity.
Qed.

Arguments LiveMod.calibrate : simpl never.
Arguments LiveMod.modulate : simpl never.

(** A pass of the live note loop on a sample read inside the window
    leaves the worker calibrating and the device untouched. *)
Lemma LivePlay_body_window (a : LivePlay.args) (t0 : Q) (p : poll)
      (l l' : LivePlay.locals) (w w' : world) (r : result bool) :
  now p - t0 < calibration_duration ->
  LivePlay.body a p (l, w) = (r, (l', w')) ->
  live_play_calibrating t0 l (device w) ->
  live_play_calibrating t0 l' (device w').
Proof.
  unfold LivePlay.body. intros T E I.
  destruct (sample p) as [smp|]; [|read_statement E; exact I].
  next_statement E as raw s0 G; [|read_statement G; exact I].
  read_statement G.
  next_statement E as lr s1 G1; [|read_statement G1; discriminate].
  read_statement G1.
  destruct (RespFilter_add (LivePlay.filt l) raw) as [filtered f].
  next_statement E as u2 s2 G2; [|read_statement G2; discriminate].
  read_statement G2.
  destruct I as (C & S & D). rewrite C in E.
  assert (CAL : forall r3 l3 w3,
             LivePlay.calibrate filtered (now p) (LivePlay.set_filt f l, w)
             = (r3, (l3, w3)) ->
             r3 = Ok tt /\ live_play_calibrating t0 l3 (device w3)).
  { intros r3 l3 w3 G3.
    destruct (LivePlay_calibrate_effect _ _ _ _ _ _ _ G3)
      as [-> [D3 [_ [S3 [_ [_ K]]]]]].
    cbn in S3, K. rewrite S, (window_test _ _ T) in K. destruct K as [K _].
    split; [reflexivity|]. repeat split; congruence. }
  next_statement E as u3 s3 G3;
    [|destruct (CAL _ _ _ G3) as [X _]; discriminate].
  destruct s3 as [l3 w3]. destruct (CAL _ _ _ G3) as [_ (C3 & S3 & D3)].
  next_statement E as u4 s4 G4.
  - apply in_world_inv in G4. destruct G4 as (w4 & V & ->).
    apply vis_put_inv in V. destruct V as (D4 & _ & _). cbn [fst snd] in *.
    next_statement E as l5 s5 G5; [|read_statement G5; discriminate].
    read_statement G5. rewrite C3 in E. cbn [negb] in E.
    next_statement E as u6 s6 G6; [|read_statement G6; discriminate].
    read_statement G6. read_statement E.
    repeat split; congruence.
  - apply in_world_inv in G4. destruct G4 as (w4 & V & E4).
    injection E4 as <- <-.
    apply vis_put_inv in V. destruct V as (D4 & _ & _). cbn [fst snd] in *.
    repeat split; congruence.
Qed.

(** The same for the controller worker. *)
Lemma LiveMod_body_window (a : LiveMod.args) (t0 : Q) (p : poll)
      (l l' : LiveMod.locals) (w w' : world) (r : result bool) :
  now p - t0 < calibration_duration ->
  LiveMod.body a p (l, w) = (r, (l', w')) ->
  live_mod_calibrating t0 l (device w) ->
  live_mod_calibrating t0 l' (device w').
Proof.
  unfold LiveMod.body. intros T E I.
  destruct (sample p) as [smp|]; [|read_statement E; exact I].
  next_statement E as raw s0 G; [|read_statement G; exact I].
  read_statement G.
  next_statement E as lr s1 G1; [|read_statement G1; discriminate].
  read_statement G1.
  destruct (RespFilter_add (LiveMod.filt l) raw) as [filtered f].
  next_statement E as u2 s2 G2; [|read_statement G2; discriminate].
  read_statement G2.
  destruct I as (C & S & D). rewrite C in E.
  next_statement E as u4 s4 G4.
  - apply in_world_inv in G4. destruct G4 as (w4 & V & ->).
    apply vis_put_inv in V. destruct V as (D4 & _ & _). cbn [fst snd] in *.
    assert (CAL : forall r3 l3 w3,
               LiveMod.calibrate filtered (now p) (LiveMod.set_filt f l, w4)
               = (r3, (l3, w3)) ->
               r3 = Ok tt /\ live_mod_calibrating t0 l3 (device w3)).
    { intros r3 l3 w3 G3.
      destruct (LiveMod_calibrate_effect _ _ _ _ _ _ _ G3)
        as [-> [D3 [_ [S3 [_ [_ K]]]]]].
      cbn in S3, K. rewrite S, (window_test _ _ T) in K.
      split; [reflexivity|]. repeat split; congruence. }
    next_statement E as u3 s3 G3;
      [|destruct (CAL _ _ _ G3) as [X _]; discriminate].
    destruct s3 as [l3 w3]. destruct (CAL _ _ _ G3) as [_ I3].
    read_statement E. exact I3.
  - apply in_world_inv in G4. destruct G4 as (w4 & V & E4).
    cbn [fst snd] in V, E4. injection E4 as -> ->.
    apply vis_put_inv in V. destruct V as (D4 & _ & _).
    unfold live_mod_calibrating. cbn. repeat split; congruence.
Qed.

(** What a pass of the live note loop does with a sample read inside
    the window: the filtered value goes to the running min/max and is
    offered to the relay; the device and the note state are untouched. *)
Lemma LivePlay_window_pass (a : LivePlay.args) (p : poll) (smp : list Q)
      (raw : Q) (l : LivePlay.locals) (w : world) :
  LivePlay.calibrating l = true ->
  sample p = Some smp ->
  Py.getitem smp (LivePlay.channel a) = Ok raw ->
  now p - LivePlay.start_time l < calibration_duration ->
  exists (r : result bool) (l' : LivePlay.locals) (w' : world),
    LivePlay.body a p (l, w) = (r, (l', w'))
    /\ (r = Ok true \/ r = Raise Full /\ Queue_full (vis_queue w) = true)
    /\ device w' = device w
    /\ vis_queue w'
       = relay_apply (vis_queue w) (Enqueue (fst (RespFilter_add (LivePlay.filt l) raw)))
    /\ (LivePlay.amp_min l', LivePlay.amp_max l')
       = observe (LivePlay.amp_min l) (LivePlay.amp_max l)
                 (fst (RespFilter_add (LivePlay.filt l) raw))
    /\ LivePlay.filt l' = snd (RespFilter_add (LivePlay.filt l) raw)
    /\ LivePlay.calibrating l' = true
    /\ LivePlay.prev_note l' = LivePlay.prev_note l.
Proof.
  intros C SM GI T.
  destruct (LivePlay.body a p (l, w)) as [r [l' w']] eqn:E.
  exists r, l', w'. split; [reflexivity|].
  unfold LivePlay.body in E. rewrite SM in E.
  next_statement E as raw0 s0 G; [|read_statement G; congruence].
  read_statement G. rewrite GI in H. injection H as <-.
  next_statement E as lr s1 G1; [|read_statement G1; discriminate].
  read_statement G1.
  destruct (RespFilter_add (LivePlay.filt l) raw) as [filtered f].
  cbn [fst snd].
  next_statement E as u2 s2 G2; [|read_statement G2; discriminate].
  read_statement G2. rewrite C in E.
  assert (CAL : forall r3 l3 w3,
             LivePlay.calibrate filtered (now p) (LivePlay.set_filt f l, w)
             = (r3, (l3, w3)) ->
             r3 = Ok tt /\ device w3 = device w /\ vis_queue w3 = vis_queue w
             /\ (LivePlay.amp_min l3, LivePlay.amp_max l3)
                = observe (LivePlay.amp_min l) (LivePlay.amp_max l) filtered
             /\ LivePlay.filt l3 = f
             /\ LivePlay.calibrating l3 = true
             /\ LivePlay.prev_note l3 = LivePlay.prev_note l).
  { intros r3 l3 w3 G3.
    destruct (LivePlay_calibrate_effect _ _ _ _ _ _ _ G3)
      as [-> [D3 [Q3 [S3 [F3 [O3 K]]]]]].
    cbn in S3, F3, O3, K. rewrite (window_test _ _ T) in K.
    destruct K as [K1 K2]. repeat split; congruence. }
  next_statement E as u3 s3 G3;
    [|destruct (CAL _ _ _ G3) as [X _]; discriminate].
  destruct s3 as [l3 w3].
  destruct (CAL _ _ _ G3) as (_ & D3 & Q3 & O3 & F3 & C3 & P3).
  next_statement E as u4 s4 G4.
  - apply in_world_inv in G4. destruct G4 as (w4 & V & ->).
    apply vis_put_inv in V. destruct V as (D4 & Q4 & _). cbn [fst snd] in *.
    next_statement E as l5 s5 G5; [|read_statement G5; discriminate].
    read_statement G5. rewrite C3 in E. cbn [negb] in E.
    next_statement E as u6 s6 G6; [|read_statement G6; discriminate].
    read_statement G6. read_statement E.
    split; [left; reflexivity|]. repeat split; congruence.
  - apply in_world_inv in G4. destruct G4 as (w4 & V & E4).
    cbn [fst snd] in V, E4. injection E4 as -> ->.
    apply vis_put_inv in V. destruct V as (D4 & Q4 & [X | [X FULL]]);
      [discriminate|].
    split; [right; split; congruence|]. repeat split; congruence.
Qed.

(** The same for the controller loop, which offers the value to the
    relay first and feeds the running min/max once the relay took it. *)
Lemma LiveMod_window_pass (a : LiveMod.args) (p : poll) (smp : list Q)
      (raw : Q) (l : LiveMod.locals) (w : world) :
  LiveMod.calibrating l = true ->
  sample p = Some smp ->
  Py.getitem smp (LiveMod.channel a) = Ok raw ->
  now p - LiveMod.start_time l < calibration_duration ->
  exists (r : result bool) (l' : LiveMod.locals) (w' : world),
    LiveMod.body a p (l, w) = (r, (l', w'))
    /\ (r = Ok true \/ r = Raise Full /\ Queue_full (vis_queue w) = true)
    /\ device w' = device w
    /\ vis_queue w'
       = relay_apply (vis_queue w) (Enqueue (fst (RespFilter_add (LiveMod.filt l) raw)))
    /\ (r = Ok true ->
        (LiveMod.amp_min l', LiveMod.amp_max l')
        = observe (LiveMod.amp_min l) (LiveMod.amp_max l)
                  (fst (RespFilter_add (LiveMod.filt l) raw)))
    /\ LiveMod.filt l' = snd (RespFilter_add (LiveMod.filt l) raw)
    /\ LiveMod.calibrating l' = true.
Proof.
  intros C SM GI T.
  destruct (LiveMod.body a p (l, w)) as [r [l' w']] eqn:E.
  exists r, l', w'. split; [reflexivity|].
  unfold LiveMod.body in E. rewrite SM in E.
  next_statement E as raw0 s0 G; [|read_statement G; congruence].
  read_statement G. rewrite GI in H. injection H as <-.
  next_statement E as lr s1 G1; [|read_statement G1; discriminate].
  read_statement G1.
  destruct (RespFilter_add (LiveMod.filt l) raw) as [filtered f].
  cbn [fst snd].
  next_statement E as u2 s2 G2; [|read_statement G2; discriminate].
  read_statement G2. rewrite C in E.
  next_statement E as u4 s4 G4.
  - apply in_world_inv in G4. destruct G4 as (w4 & V & ->).
    apply vis_put_inv in V. destruct V as (D4 & Q4 & _). cbn [fst snd] in *.
    assert (CAL : forall r3 l3 w3,
               LiveMod.calibrate filtered (now p) (LiveMod.set_filt f l, w4)
               = (r3, (l3, w3)) ->
               r3 = Ok tt /\ device w3 = device w4 /\ vis_queue w3 = vis_queue w4
               /\ (LiveMod.amp_min l3, LiveMod.amp_max l3)
                  = observe (LiveMod.amp_min l) (LiveMod.amp_max l) filtered
               /\ LiveMod.filt l3 = f
               /\ LiveMod.calibrating l3 = true).
    { intros r3 l3 w3 G3.
      destruct (LiveMod_calibrate_effect _ _ _ _ _ _ _ G3)
        as [-> [D3 [Q3 [S3 [F3 [O3 K]]]]]].
      cbn in S3, F3, O3, K. rewrite (window_test _ _ T) in K.
      repeat split; congruence. }
    next_statement E as u3 s3 G3;
      [|destruct (CAL _ _ _ G3) as [X _]; discriminate].
    destruct s3 as [l3 w3].
    destruct (CAL _ _ _ G3) as (_ & D3 & Q3 & O3 & F3 & C3).
    read_statement E.
    split; [left; reflexivity|]. repeat split; congruence.
  - apply in_world_inv in G4. destruct G4 as (w4 & V & E4).
    cbn [fst snd] in V, E4. injection E4 as -> ->.
    apply vis_put_inv in V. destruct V as (D4 & Q4 & [X | [X FULL]]);
      [discriminate|].
    split; [right; split; congruence|].
    split; [exact D4|]. split; [exact Q4|].
    split; [discriminate|]. split; [reflexivity | exact C].
Qed.

(** ** The calibration gate: claim *)

(** C4. In live mode, as long as every sample so far was read with less
    than 30 s elapsed since the start, nothing at all has been sent to
    the MIDI device, in the note worker and in the controller worker
    alike, and a worker still in its loop is still calibrating (the
    note worker being Silent).  What a pass does with such a sample
    instead (running min/max, relay) is [LivePlay_window_pass] and
    [LiveMod_window_pass]. *)
Theorem calibration_window_silent
        (sp : scipy_signal) (ap : LivePlay.args) (am : LiveMod.args) (t0 : Q)
        (resolved : list stream_info) (ports : list string)
        (es : list (event poll)) :
  window_open t0 es ->
  let play := run (LivePlay.body ap)
                  (LivePlay.bridge_worker sp ap t0 resolved ports) es in
  let modulate := run (LiveMod.body am)
                      (LiveMod.bridge_worker sp am t0 resolved ports) es in
  device (env play) = []
  /\ device (env modulate) = []
  /\ (forall l, thread play = Running l ->
                LivePlay.calibrating l = true /\ LivePlay.start_time l = t0
                /\ LivePlay.prev_note l = None)
  /\ (forall l, thread modulate = Running l ->
                LiveMod.calibrating l = true /\ LiveMod.start_time l = t0).
Proof.
  intros WO. cbv zeta.
  (* the note worker *)
  destruct (boot_effect (LivePlay.setup sp ap t0 resolved) ports
              (fun l => LivePlay.calibrating l = true
                        /\ LivePlay.prev_note l = None
                        /\ LivePlay.start_time l = t0)
              (LivePlay_setup_effect sp ap t0 resolved)) as [D0 L0].
  fold (LivePlay.bridge_worker sp ap t0 resolved ports) in D0, L0.
  set (s0 := LivePlay.bridge_worker sp ap t0 resolved ports) in *.
  assert (PLAY : forall l, locals_of (run (LivePlay.body ap) s0 es) = Some l ->
                   live_play_calibrating t0 l
                     (device (env (run (LivePlay.body ap) s0 es)))
                   /\ live_trace_invariant (fun _ _ => True) l
                        (device (env (run (LivePlay.body ap) s0 es)))).
  { intros l H. split.
    - revert l H.
      apply (run_invariant (LivePlay.body ap)
               (fun p => now p - t0 < calibration_duration)
               (live_play_calibrating t0)).
      + intros i l w r l' w' T E. exact (LivePlay_body_window ap t0 i l l' w w' r T E).
      + exact WO.
      + intros l H. destruct (L0 l H) as (C & _ & S). repeat split; assumption.
    - revert l H.
      apply (run_invariant (LivePlay.body ap) (fun _ => True)
               (live_trace_invariant (fun _ _ => True))).
      + intros i l w r l' w' _ E.
        exact (LivePlay_body_preserves ap (fun _ => True) (fun _ _ => True) I
                 (fun _ _ _ _ => I) (fun _ _ _ _ _ _ => I)
                 (fun _ _ _ _ _ => I) (fun _ _ _ _ _ _ => I)
                 (fun _ _ _ _ _ => I) i l l' w w' r E).
      + apply Forall_forall. intros [i | |] _; exact I.
      + intros l H. destruct (L0 l H) as (C & P & _). rewrite D0.
        split; [intros _; split; [reflexivity | exact P] | exact I]. }
  (* the controller worker *)
  destruct (boot_effect (LiveMod.setup sp am t0 resolved) ports
              (fun l => LiveMod.calibrating l = true /\ LiveMod.start_time l = t0)
              (LiveMod_setup_effect sp am t0 resolved)) as [E0 M0].
  fold (LiveMod.bridge_worker sp am t0 resolved ports) in E0, M0.
  set (m0 := LiveMod.bridge_worker sp am t0 resolved ports) in *.
  assert (MOD : forall l, locals_of (run (LiveMod.body am) m0 es) = Some l ->
                  live_mod_calibrating t0 l
                    (device (env (run (LiveMod.body am) m0 es)))).
  { apply (run_invariant (LiveMod.body am)
             (fun p => now p - t0 < calibration_duration)
             (live_mod_calibrating t0)).
    - intros i l w r l' w' T E. exact (LiveMod_body_window am t0 i l l' w w' r T E).
    - exact WO.
    - intros l H. destruct (M0 l H) as (C & S). repeat split; assumption. }
  split; [|split; [|split]].
  - destruct (locals_of s0) as [l0|] eqn:K.
    + destruct (run_locals_some (LivePlay.body ap) es s0 l0 K) as [l H].
      destruct (PLAY l H) as [(_ & _ & D) _]. exact D.
    + rewrite (run_aborted (LivePlay.body ap) es s0 K). exact D0.
  - destruct (locals_of m0) as [l0|] eqn:K.
    + destruct (run_locals_some (LiveMod.body am) es m0 l0 K) as [l H].
      destruct (MOD l H) as (_ & _ & D). exact D.
    + rewrite (run_aborted (LiveMod.body am) es m0 K). exact E0.
  - intros l R.
    assert (H : locals_of (run (LivePlay.body ap) s0 es) = Some l)
      by (unfold locals_of; rewrite R; reflexivity).
    destruct (PLAY l H) as [(C & S & _) [CAL _]].
    split; [exact C|]. split; [exact S|]. apply (CAL C).
  - intros l R.
    assert (H : locals_of (run (LiveMod.body am) m0 es) = Some l)
      by (unfold locals_of; rewrite R; reflexivity).
    destruct (MOD l H) as (C & S & _). split; assumption.
Qed.

Lemma calibration_window_silent_witness :
  let es := [ Iterate {| sample := Some [0; 1 # 2]; now := 1 |};
              Redraw;
              Iterate {| sample := None; now := 2 |};
              Iterate {| sample := Some [0; 1]; now := 29 |} ] in
  let resolved := [ {| name := "OpenSignals"; nominal_srate := 1000 |} ] in
  device (env (run (LivePlay.body default_live_play)
                   (LivePlay.bridge_worker sample_scipy default_live_play 0
                      resolved ["HCI 1"%string]) es)) = []
  /\ device (env (run (LiveMod.body default_live_mod)
                      (LiveMod.bridge_worker sample_scipy default_live_mod 0
                         resolved ["HCI 1"%string]) es)) = [].
Proof.
  cbv zeta.
  destruct (calibration_window_silent sample_scipy default_live_play
              default_live_mod 0
              [ {| name := "OpenSignals"; nominal_srate := 1000 |} ]
              ["HCI 1"%string]
              [ Iterate {| sample := Some [0; 1 # 2]; now := 1 |};
                Redraw;
                Iterate {| sample := None; now := 2 |};
                Iterate {| sample := Some [0; 1]; now := 29 |} ])
    as (A & B & _).
  - repeat constructor.
  - split; [exact A | exact B].
Defined.

(** ** Termination of the note workers *)

Section InterruptFacts.
Context {L I : Type} (body : I -> M (L * world) bool).

(** Cancellation sends nothing, and nothing is sent after it. *)
Lemma interrupt_final (s : sys L) (more : list (event I)) :
  device (env (run body (step body s Interrupt) more)) = device (env s)
  /\ terminated (run body (step body s Interrupt) more) = true.
Proof.
  assert (T : terminated (step body s Interrupt) = true)
    by (destruct s as [[l | how l | how] w]; reflexivity).
  assert (D : device (env (step body s Interrupt)) = device (env s))
    by (destruct s as [[l | how l | how] w]; reflexivity).
  destruct (run_terminated body more _ T) as [A B].
  split; [congruence|]. unfold terminated in *. rewrite A. exact T.
Qed.

End InterruptFacts.

(** C1, as stated, fails.  With the default arguments and a recording
    of two samples, the first maps to note 40 and the second to note
    80: note_on(40), note_off(40), note_on(80) are sent, the loop ends
    normally, and the worker returns in Sounding(80) without a
    note_off(80); a run cancelled after the first sample leaves note 40
    sounding; and the live worker, cancelled after its first sample
    past the calibration window, leaves note 40 sounding as well. *)
Lemma stuck_note_counterexample :
  (let s := run (PrerecPlay.body default_prerec_play)
                (PrerecPlay.bridge_worker sample_scipy default_prerec_play
                   [1 # 2; 1 # 4] ["HCI 1"%string])
                [Iterate tt; Iterate tt; Iterate tt] in
   how_stopped s = Some NormalExit
   /\ option_map PrerecPlay.prev_note (locals_of s) = Some (Some 80%Z)
   /\ device (env s) = [note_on 40 100; note_off 40; note_on 80 100]
   /\ ~ In (note_off 80) (device (env s)))
  /\ (let s := run (PrerecPlay.body default_prerec_play)
                   (PrerecPlay.bridge_worker sample_scipy default_prerec_play
                      [1 # 2; 1 # 4] ["HCI 1"%string])
                   [Iterate tt; Interrupt] in
      how_stopped s = Some Cancelled
      /\ option_map PrerecPlay.prev_note (locals_of s) = Some (Some 40%Z)
      /\ device (env s) = [note_on 40 100]
      /\ ~ In (note_off 40) (device (env s)))
  /\ (let s := run (LivePlay.body default_live_play)
                   (LivePlay.bridge_worker sample_scipy default_live_play 0
                      [ {| name := "OpenSignals"; nominal_srate := 1000 |} ]
                      ["HCI 1"%string])
                   [ Iterate {| sample := Some [0; 1 # 2]; now := 31 |};
                     Interrupt ] in
      how_stopped s = Some Cancelled
      /\ option_map LivePlay.prev_note (locals_of s) = Some (Some 40%Z)
      /\ device (env s) = [note_on 40 100]
      /\ ~ In (note_off 40) (device (env s))).
Proof.
  cbv zeta.
  split; [|split];
    (split; [vm_compute; reflexivity|]; split; [vm_compute; reflexivity|];
     match goal with
     | |- ?d = ?t /\ _ =>
         assert (D : d = t) by (vm_compute; reflexivity)
     end;
     split; [exact D|]; rewrite D; cbn;
     intros X; repeat (destruct X as [X | X]; [discriminate|]); exact X).
Qed.

(** An error path: a pass that finds the relay full stops the worker
    with [Full], the note state and the device as they were. *)
Lemma PrerecPlay_full_relay_stops (a : PrerecPlay.args) (l : PrerecPlay.locals)
      (w : world) (filtered : Q) (rest : list Q) :
  PrerecPlay.remaining l = filtered :: rest ->
  Queue_full (vis_queue w) = true ->
  let s := step (PrerecPlay.body a) {| thread := Running l; env := w |}
                (Iterate tt) in
  how_stopped s = Some (Failed Full)
  /\ option_map PrerecPlay.prev_note (locals_of s) = Some (PrerecPlay.prev_note l)
  /\ device (env s) = device w.
Proof.
  intros R F. cbv zeta.
  assert (B : PrerecPlay.body a tt (l, w)
              = (Raise Full, (PrerecPlay.set_remaining rest l, w))).
  { unfold PrerecPlay.body, mbind at 1, locals_get at 1. cbn [fst snd].
    rewrite R.
    unfold mbind at 1, assign at 1. cbn [fst snd].
    unfold mbind at 1, in_world at 1, vis_put at 1. cbn [fst snd].
    rewrite put_nowait_cases, F. reflexivity. }
  unfold step. cbn [thread env]. rewrite B. repeat split.
Qed.

Section SoundingTrace.
Context (note_low note_high velocity : Z).
Hypothesis bytes : midi_note_args note_low note_high velocity.

Lemma sounding_trace_first (n : Z) (dev : list message) :
  (Z.min note_low note_high <= n <= Z.max note_low note_high)%Z ->
  sounding_trace note_low note_high velocity (Some n)
                 (dev ++ [note_on n velocity]).
Proof.
  intros B. split; [exists dev; reflexivity | intros p [= <-]; exact B].
Qed.

Lemma note_on_accepted (n : Z) (P : Prop) :
  (Z.min note_low note_high <= n <= Z.max note_low note_high)%Z ->
  mido_valid (note_on n velocity) = false -> P.
Proof.
  intros B V.
  destruct (midi_note_valid _ _ _ n bytes B) as (ON & _). congruence.
Qed.

End SoundingTrace.

(** C1, amended. With notes and a velocity that are MIDI data bytes,
    on every termination path of a note-mode run (normal exit,
    cancellation, error) the worker sends nothing at termination: at
    every point of every run, terminated or not, a state machine in
    Sounding(N) has note_on(N) as the last message on the device, with
    no note_off(N) after it, and a Silent one has sent nothing yet;
    and with any arguments a cancellation adds no message, and none is
    sent after it. *)
Theorem termination_sends_nothing
        (sp : scipy_signal)
        (ap : PrerecPlay.args) (rows : list Q) (ports : list string)
        (es : list (event unit))
        (al : LivePlay.args) (t0 : Q) (resolved : list stream_info)
        (ports' : list string) (es' : list (event poll)) :
  let s := run (PrerecPlay.body ap)
               (PrerecPlay.bridge_worker sp ap rows ports) es in
  let s' := run (LivePlay.body al)
                (LivePlay.bridge_worker sp al t0 resolved ports') es' in
  (midi_note_args (PrerecPlay.note_low ap) (PrerecPlay.note_high ap)
                  (PrerecPlay.velocity ap) ->
   match locals_of s with
   | Some l => last_is_note_on (PrerecPlay.velocity ap) (PrerecPlay.prev_note l)
                               (device (env s))
   | None => device (env s) = []
   end)
  /\ (midi_note_args (LivePlay.note_low al) (LivePlay.note_high al)
                     (LivePlay.velocity al) ->
      match locals_of s' with
      | Some l => last_is_note_on (LivePlay.velocity al) (LivePlay.prev_note l)
                                  (device (env s'))
      | None => device (env s') = []
      end)
  /\ (forall more,
         device (env (run (PrerecPlay.body ap)
                          (step (PrerecPlay.body ap) s Interrupt) more))
         = device (env s))
  /\ (forall more,
         device (env (run (LivePlay.body al)
                          (step (LivePlay.body al) s' Interrupt) more))
         = device (env s')).
Proof.
  cbv zeta.
  split; [|split; [|split]].
  - intros BY.
    destruct (boot_effect (PrerecPlay.setup sp ap rows) ports
                (fun l => PrerecPlay.prev_note l = None)
                (PrerecPlay_setup_effect sp ap rows)) as [D0 L0].
    fold (PrerecPlay.bridge_worker sp ap rows ports) in D0, L0.
    set (s0 := PrerecPlay.bridge_worker sp ap rows ports) in *.
    destruct (locals_of (run (PrerecPlay.body ap) s0 es)) as [l|] eqn:K.
    + assert (INV : sounding_trace (PrerecPlay.note_low ap)
                      (PrerecPlay.note_high ap) (PrerecPlay.velocity ap)
                      (PrerecPlay.prev_note l)
                      (device (env (run (PrerecPlay.body ap) s0 es)))).
      { revert l K.
        apply (run_invariant (PrerecPlay.body ap) (fun _ => True)
                 (fun l dev => sounding_trace (PrerecPlay.note_low ap)
                                 (PrerecPlay.note_high ap) (PrerecPlay.velocity ap)
                                 (PrerecPlay.prev_note l) dev)).
        - intros i l w r l' w' _ E.
          apply (PrerecPlay_body_preserves ap
                   (fun n => (Z.min (PrerecPlay.note_low ap) (PrerecPlay.note_high ap)
                              <= n
                              <= Z.max (PrerecPlay.note_low ap)
                                       (PrerecPlay.note_high ap))%Z)
                   (sounding_trace (PrerecPlay.note_low ap)
                                   (PrerecPlay.note_high ap)
                                   (PrerecPlay.velocity ap))
                   i l l' w w' r); try exact E.
          + intros n dev B _. apply sounding_trace_first, B.
          + intros p n dev B _ _. apply sounding_trace_first, B.
          + intros n dev B _. apply (note_on_accepted _ _ _ BY n _ B).
          + intros p n dev B _. apply (note_on_accepted _ _ _ BY n _ B).
          + intros x lo hi n. apply mapped_note_between.
        - apply Forall_forall. intros [i | |] _; exact I.
        - intros l H. rewrite (L0 l H), D0. split; [reflexivity | discriminate]. }
      apply INV.
    + destruct (locals_of s0) as [l0|] eqn:K0.
      * destruct (run_locals_some (PrerecPlay.body ap) es s0 l0 K0) as [l H].
        congruence.
      * rewrite (run_aborted (PrerecPlay.body ap) es s0 K0). exact D0.
  - intros BY.
    destruct (boot_effect (LivePlay.setup sp al t0 resolved) ports'
                (fun l => LivePlay.calibrating l = true
                          /\ LivePlay.prev_note l = None
                          /\ LivePlay.start_time l = t0)
                (LivePlay_setup_effect sp al t0 resolved)) as [D0 L0].
    fold (LivePlay.bridge_worker sp al t0 resolved ports') in D0, L0.
    set (s0 := LivePlay.bridge_worker sp al t0 resolved ports') in *.
    destruct (locals_of (run (LivePlay.body al) s0 es')) as [l|] eqn:K.
    + assert (INV : live_trace_invariant
                      (sounding_trace (LivePlay.note_low al)
                         (LivePlay.note_high al) (LivePlay.velocity al))
                      l (device (env (run (LivePlay.body al) s0 es')))).
      { revert l K.
        apply (run_invariant (LivePlay.body al) (fun _ => True)
                 (live_trace_invariant
                    (sounding_trace (LivePlay.note_low al)
                       (LivePlay.note_high al) (LivePlay.velocity al)))).
        - intros i l w r l' w' _ E.
          apply (LivePlay_body_preserves al
                   (fun n => (Z.min (LivePlay.note_low al) (LivePlay.note_high al)
                              <= n
                              <= Z.max (LivePlay.note_low al)
                                       (LivePlay.note_high al))%Z)
                   (sounding_trace (LivePlay.note_low al)
                      (LivePlay.note_high al) (LivePlay.velocity al)))
            with (p := i) (w := w) (r := r); try exact E.
          + split; [reflexivity | discriminate].
          + intros n dev B _. apply sounding_trace_first, B.
          + intros p n dev B _ _. apply sounding_trace_first, B.
          + intros n dev B _. apply (note_on_accepted _ _ _ BY n _ B).
          + intros p n dev B _. apply (note_on_accepted _ _ _ BY n _ B).
          + intros x lo hi n. apply mapped_note_between.
        - apply Forall_forall. intros [i | |] _; exact I.
        - intros l H. destruct (L0 l H) as (C & P & _). rewrite D0.
          split; [intros _; split; [reflexivity | exact P]|].
          rewrite P. split; [reflexivity | discriminate]. }
      apply INV.
    + destruct (locals_of s0) as [l0|] eqn:K0.
      * destruct (run_locals_some (LivePlay.body al) es' s0 l0 K0) as [l H].
        congruence.
      * rewrite (run_aborted (LivePlay.body al) es' s0 K0). exact D0.
  - intros more. apply interrupt_final.
  - intros more. apply interrupt_final.
Qed.

Lemma termination_sends_nothing_witness :
  last_is_note_on 100 (Some 80%Z)
    (device (env (run (PrerecPlay.body default_prerec_play)
                      (PrerecPlay.bridge_worker sample_scipy default_prerec_play
                         [1 # 2; 1 # 4] ["HCI 1"%string])
                      [Iterate tt; Iterate tt; Iterate tt])))
  /\ last_is_note_on 100 (Some 40%Z)
       (device (env (run (LivePlay.body default_live_play)
                         (LivePlay.bridge_worker sample_scipy default_live_play 0
                            [ {| name := "OpenSignals"; nominal_srate := 1000 |} ]
                            ["HCI 1"%string])
                         [ Iterate {| sample := Some [0; 1 # 2]; now := 31 |};
                           Interrupt ]))).
Proof.
  destruct (termination_sends_nothing sample_scipy default_prerec_play
              [1 # 2; 1 # 4] ["HCI 1"%string]
              [Iterate tt; Iterate tt; Iterate tt]
              default_live_play 0
              [ {| name := "OpenSignals"; nominal_srate := 1000 |} ]
              ["HCI 1"%string]
              [ Iterate {| sample := Some [0; 1 # 2]; now := 31 |}; Interrupt ])
    as (A & B & _).
  split.
  - apply A. unfold midi_note_args. cbn. lia.
  - apply B. unfold midi_note_args. cbn. lia.
Defined.

(** ** Controller mode has no state machine *)

(** A pass of the prerecorded controller loop with room in the relay,
    a non-negative pace and a controller and channel that
    [mido.Message] accepts sends exactly one control_change, carrying
    the mapped value of the sample, whatever was sent before. *)
Lemma PrerecMod_pass_sends (a : PrerecMod.args) (l : PrerecMod.locals)
      (w : world) (filtered : Q) (rest : list Q) :
  midi_cc_args (PrerecMod.cc a) (PrerecMod.channel_midi a) ->
  PrerecMod.remaining l = filtered :: rest ->
  Queue_full (vis_queue w) = false ->
  0 <= PrerecMod.dt l ->
  exists (value : Z) (l' : PrerecMod.locals) (w' : world),
    map_amp_to_cc filtered (PrerecMod.amp_min l) (PrerecMod.amp_max l) = Ok value
    /\ PrerecMod.body a tt (l, w) = (Ok true, (l', w'))
    /\ PrerecMod.remaining l' = rest
    /\ device w'
       = device w ++ [control_change (PrerecMod.cc a) value (PrerecMod.channel_midi a)]
    /\ (0 <= value <= 127)%Z.
Proof.
  intros CC R F D.
  assert (V : exists value,
             map_amp_to_cc filtered (PrerecMod.amp_min l) (PrerecMod.amp_max l)
             = Ok value /\ (0 <= value <= 127)%Z).
  { destruct (Qlt_le_dec (PrerecMod.amp_min l) (PrerecMod.amp_max l)) as [W | W].
    - destruct (cc_in_range_and_monotone _ _ filtered filtered W (Qle_refl _))
        as (v1 & v2 & E1 & E2 & B1 & B2).
      exists v1. split; [exact E1|]. rewrite E1 in E2. injection E2 as <-. lia.
    - exists 0%Z. split; [|lia].
      unfold map_amp_to_cc. apply Qle_bool_iff in W. rewrite W. reflexivity. }
  destruct V as (value & MV & B).
  exists value.
  unfold PrerecMod.body, mbind, locals_get, assign, in_world, mlift, mret,
    vis_put, MidiOut_send_cc, time_sleep.
  cbn [fst snd]. rewrite R. cbn [fst snd].
  rewrite put_nowait_cases, F, MV. cbn [fst snd].
  rewrite emit_valid by (apply midi_cc_valid; assumption).
  unfold send. cbn [fst snd device].
  destruct (Qlt_le_dec (PrerecMod.dt l) 0) as [N | _]; [exfalso; lra|].
  do 2 eexists. split; [reflexivity|]. split; [reflexivity|].
  split; [reflexivity|]. split; [reflexivity | exact B].
Qed.

(** * Further properties of the code *)

(** ** The controller mapper *)

(** X2. On a proper calibration range the controller mapper sends the
    lower bound to 0 and the upper bound to 127, exactly. *)
Theorem cc_boundary_exactness (xmin xmax : Q) :
  xmin < xmax ->
  map_amp_to_cc xmin xmin xmax = Ok 0%Z
  /\ map_amp_to_cc xmax xmin xmax = Ok 127%Z.
Proof.
  intros L. rewrite !map_amp_to_cc_wide by exact L. split; f_equal.
  - transitivity (Py.round (inject_Z 0)); [|apply round_inject_Z].
    apply round_compat. rewrite (fraction_at_min xmin xmax L). reflexivity.
  - transitivity (Py.round (inject_Z 127)); [|apply round_inject_Z].
    apply round_compat. rewrite (fraction_at_max xmin xmax L). reflexivity.
Qed.

Lemma cc_boundary_exactness_witness :
  map_amp_to_cc (- (3 # 10)) (- (3 # 10)) (7 # 10) = Ok 0%Z
  /\ map_amp_to_cc (7 # 10) (- (3 # 10)) (7 # 10) = Ok 127%Z.
Proof.
  apply (cc_boundary_exactness (- (3 # 10)) (7 # 10)). reflexivity.
Defined.

(** X3. On a proper calibration range the controller value never
    decreases when the amplitude increases. *)
Theorem cc_monotone (xmin xmax x1 x2 : Q) :
  xmin < xmax -> x1 <= x2 ->
  exists v1 v2 : Z,
    map_amp_to_cc x1 xmin xmax = Ok v1 /\ map_amp_to_cc x2 xmin xmax = Ok v2
    /\ (v1 <= v2)%Z.
Proof.
  intros L X.
  destruct (cc_in_range_and_monotone xmin xmax x1 x2 L X)
    as (v1 & v2 & E1 & E2 & B1 & B2).
  exists v1, v2. split; [exact E1|]. split; [exact E2 | lia].
Qed.

Lemma cc_monotone_witness :
  exists v1 v2 : Z,
    map_amp_to_cc (1 # 4) 0 1 = Ok v1 /\ map_amp_to_cc (3 # 4) 0 1 = Ok v2
    /\ (v1 <= v2)%Z.
Proof.
  apply (cc_monotone 0 1 (1 # 4) (3 # 4)); [reflexivity | discriminate].
Defined.

(** ** The streaming filter *)

Lemma filter_all_length (f : RespFilter) (data : list Q) :
  List.length (filter_all f data) = List.length data.
Proof.
  revert f. induction data as [|x rest IH]; intros f; cbn; [reflexivity|].
  rewrite IH. reflexivity.
Qed.

Lemma init_zero_state (sp : scipy_signal) (fs cutoff : Q) (f : RespFilter) :
  RespFilter_init sp fs cutoff = Ok f -> fst (z f) == 0 /\ snd (z f) == 0.
Proof.
  unfold RespFilter_init.
  destruct (Py.truediv cutoff ((1 # 2) * fs)) as [norm|]; [|discriminate].
  cbn. destruct (butter sp norm) as [c|]; [|discriminate].
  cbn. intros H. injection H as <-. split; apply Qmult_0_r.
Qed.

(** X7. A freshly constructed filter has no history: its first output
    is the first sample times [b0], with no start-up offset, and as
    long as the input is zero the output is zero. *)
Theorem fresh_filter_has_no_history (sp : scipy_signal) (fs cutoff : Q)
        (f : RespFilter) (x : Q) (n : nat) :
  RespFilter_init sp fs cutoff = Ok f ->
  fst (RespFilter_add f x) == b0 (ba f) * x
  /\ Forall (fun y => y == 0) (filter_all f (repeat 0 n)).
Proof.
  intros I. destruct (init_zero_state sp fs cutoff f I) as [Z0 Z1]. split.
  - unfold RespFilter_add. cbn. rewrite Z0. ring.
  - clear I. revert f Z0 Z1. induction n as [|n IH]; intros f Z0 Z1; [constructor|].
    change (filter_all f (repeat 0 (S n)))
      with (fst (RespFilter_add f 0)
              :: filter_all (snd (RespFilter_add f 0)) (repeat 0 n)).
    constructor.
    + unfold RespFilter_add. cbn. rewrite Z0. ring.
    + apply IH; unfold RespFilter_add; cbn; rewrite ?Z0, ?Z1; ring.
Qed.

Lemma fresh_filter_has_no_history_witness :
  exists f : RespFilter,
    RespFilter_init sample_scipy 1000 1 = Ok f
    /\ fst (RespFilter_add f (1 # 2)) == b0 (ba f) * (1 # 2)
    /\ Forall (fun y => y == 0) (filter_all f (repeat 0 2)).
Proof.
  eexists. split; [reflexivity|].
  apply (fresh_filter_has_no_history sample_scipy 1000 1 _ (1 # 2) 2).
  reflexivity.
Defined.

(** ** The visualiser's rolling buffer *)

Lemma deque_append_last (n : nat) (l : list Q) (v : Q) :
  deque_append n (skipn (List.length l - n) l) v
  = skipn (List.length (l ++ [v]) - n) (l ++ [v]).
Proof.
  unfold deque_append.
  assert (E : skipn (List.length l - n) l ++ [v]
              = skipn (List.length l - n) (l ++ [v])).
  { rewrite skipn_app.
    replace (List.length l - n - List.length l)%nat with 0%nat by lia.
    reflexivity. }
  rewrite E, skipn_skipn. f_equal.
  rewrite length_skipn, !length_app. cbn. lia.
Qed.

Lemma deque_fold_last (n : nat) (vs l : list Q) :
  fold_left (deque_append n) vs (skipn (List.length l - n) l)
  = skipn (List.length (l ++ vs) - n) (l ++ vs).
Proof.
  revert l. induction vs as [|v vs IH]; intros l; cbn.
  - rewrite app_nil_r. reflexivity.
  - rewrite deque_append_last, IH, <- app_assoc. reflexivity.
Qed.

(** X8. A redraw empties the relay, keeps its capacity, and leaves in
    the rolling buffer the last [buffer_len] values of the old buffer
    followed by the queued values, oldest first; the buffer never
    holds more than [buffer_len] values. *)
Theorem update_keeps_latest (n : nat) (q : Queue) (buf : list Q) :
  (List.length buf <= n)%nat ->
  let '(q', buf') := RespVisualiser_update n q buf in
  items q' = [] /\ maxsize q' = maxsize q
  /\ buf' = skipn (List.length (buf ++ items q) - n) (buf ++ items q)
  /\ (List.length buf' <= n)%nat.
Proof.
  intros B. unfold RespVisualiser_update.
  split; [reflexivity|]. split; [reflexivity|].
  assert (E : fold_left (deque_append n) (items q) buf
              = skipn (List.length (buf ++ items q) - n) (buf ++ items q)).
  { rewrite <- deque_fold_last.
    replace (List.length buf - n)%nat with 0%nat by lia. reflexivity. }
  split; [exact E|]. rewrite E, length_skipn. lia.
Qed.

Lemma update_keeps_latest_witness :
  RespVisualiser_update 3 {| maxsize := 2000; items := [3; 4] |} [0; 1; 2]
  = ({| maxsize := 2000; items := [] |}, [2; 3; 4]).
Proof.
  pose proof (update_keeps_latest 3 {| maxsize := 2000; items := [3; 4] |}
                [0; 1; 2] ltac:(cbn; lia)) as H.
  destruct (RespVisualiser_update 3 {| maxsize := 2000; items := [3; 4] |} [0; 1; 2])
    as [q' buf'].
  destruct H as (I & M & E & _). destruct q' as [m i]. cbn in I, M.
  subst. reflexivity.
Defined.

(** ** The relay end to end *)

Lemma subseq_refl {A : Type} (l : list A) : subseq l l.
Proof. induction l; constructor; assumption. Qed.

Lemma subseq_snoc_skip {A : Type} (l m : list A) (x : A) :
  subseq l m -> subseq l (m ++ [x]).
Proof.
  intros H. induction H; cbn.
  - apply subseq_skip, subseq_nil.
  - apply subseq_skip. assumption.
  - apply subseq_take. assumption.
Qed.

Lemma subseq_snoc_take {A : Type} (l m : list A) (x : A) :
  subseq l m -> subseq (l ++ [x]) (m ++ [x]).
Proof.
  intros H. induction H; cbn.
  - apply subseq_take, subseq_nil.
  - apply subseq_skip. assumption.
  - apply subseq_take. assumption.
Qed.

Lemma relay_deliver_subseq (ops : list relay_op) (s : Queue * list Q)
      (seen : list Q) :
  subseq (snd s ++ items (fst s)) seen ->
  subseq (snd (fold_left relay_deliver ops s)
            ++ items (fst (fold_left relay_deliver ops s)))
         (seen ++ offered ops).
Proof.
  revert s seen. induction ops as [|op ops IH]; intros [q got] seen H.
  - cbn. rewrite app_nil_r. exact H.
  - destruct op as [v|]; cbn [fold_left offered].
    + replace (seen ++ v :: offered ops) with ((seen ++ [v]) ++ offered ops)
        by (rewrite <- app_assoc; reflexivity).
      apply IH. cbn [relay_deliver fst snd relay_apply] in *.
      rewrite put_nowait_cases. destruct (Queue_full q); cbn [items].
      * apply subseq_snoc_skip, H.
      * rewrite app_assoc. apply subseq_snoc_take, H.
    + apply IH. cbn in *. rewrite app_nil_r. exact H.
Qed.

Lemma relay_deliver_queue (ops : list relay_op) (q : Queue) (got : list Q) :
  fst (fold_left relay_deliver ops (q, got)) = fold_left relay_apply ops q.
Proof.
  revert q got. induction ops as [|op ops IH]; intros q got; [reflexivity|].
  cbn [fold_left]. destruct op; cbn [relay_deliver fst snd]; apply IH.
Qed.

(** X9. The relay never reorders and never invents: whatever the
    interleaving of offers and redraws, the values the visualiser has
    taken followed by those still queued are the offered values in
    their order, with the refused ones left out. *)
Theorem relay_delivers_in_order (ops : list relay_op) :
  subseq (snd (delivered ops) ++ items (fst (delivered ops))) (offered ops)
  /\ fst (delivered ops) = relay_after ops.
Proof.
  split.
  - apply (relay_deliver_subseq ops (Queue_init relay_capacity, []) []).
    constructor.
  - unfold delivered, relay_after. apply relay_deliver_queue.
Qed.

Lemma relay_fill (vs l : list Q) :
  (List.length l <= Z.to_nat relay_capacity)%nat ->
  items (fold_left relay_apply (map Enqueue vs)
                   {| maxsize := relay_capacity; items := l |})
  = firstn (Z.to_nat relay_capacity) (l ++ vs).
Proof.
  revert l. induction vs as [|v vs IH]; intros l B.
  - cbn [map fold_left items]. rewrite app_nil_r. symmetry. apply firstn_all2, B.
  - cbn [map fold_left]. unfold relay_apply at 2. rewrite put_nowait_cases.
    unfold Queue_full, qsize. cbn [maxsize items].
    destruct ((0 <? relay_capacity)%Z
              && (relay_capacity <=? Z.of_nat (List.length l))%Z) eqn:F.
    + apply andb_true_iff in F. destruct F as [_ F]. apply Z.leb_le in F.
      rewrite IH by exact B.
      assert (E : List.length l = Z.to_nat relay_capacity) by lia.
      rewrite !firstn_app, E, Nat.sub_diag. reflexivity.
    + apply andb_false_iff in F.
      assert (S : (List.length l < Z.to_nat relay_capacity)%nat).
      { unfold relay_capacity in *.
        destruct F as [F | F]; [discriminate | apply Z.leb_gt in F; lia]. }
      rewrite IH by (rewrite length_app; cbn [List.length]; lia).
      rewrite <- app_assoc. reflexivity.
Qed.

(** X10. With no redraw in between, the relay keeps the first 2000
    values offered, in order, and drops every later one. *)
Theorem relay_keeps_first (vs : list Q) :
  items (relay_after (map Enqueue vs)) = firstn (Z.to_nat relay_capacity) vs.
Proof.
  unfold relay_after, Queue_init. rewrite relay_fill; [reflexivity|].
  cbn [List.length]. lia.
Qed.

(** ** How the loops can be left *)

Section ExitFacts.
Context {L I : Type} (body : I -> M (L * world) bool).

(** If every pass keeps [P] and can only end the loop in a way [E]
    allows, then so does every run. *)
Lemma run_exit_kinds (P : L -> Prop) (E : exit -> Prop) :
  (forall i l w r l' w',
      body i (l, w) = (r, (l', w')) -> P l ->
      P l' /\ match r with
              | Ok true => True
              | Ok false => E NormalExit
              | Raise x => E (Failed x)
              end) ->
  E Cancelled ->
  forall (es : list (event I)) (s : sys L),
    (forall l, thread s = Running l -> P l) ->
    (forall how l, thread s = Stopped how l -> E how) ->
    (forall l, thread (run body s es) = Running l -> P l)
    /\ (forall how l, thread (run body s es) = Stopped how l -> E how).
Proof.
  intros B C. induction es as [|e es IH]; intros s HP HE; [split; assumption|].
  change (run body s (e :: es)) with (run body (step body s e) es).
  apply IH; clear IH.
  - destruct s as [[l | how l | how] w]; destruct e as [i | |]; cbn;
      try discriminate; try exact HP.
    destruct (body i (l, w)) as [[[|] | x] [l' w']] eqn:K; cbn;
      intros l0 [= <-]. apply (B _ _ _ _ _ _ K), HP. reflexivity.
  - destruct s as [[l | how l | how] w]; destruct e as [i | |]; cbn;
      try discriminate; try exact HE.
    + destruct (body i (l, w)) as [[[|] | x] [l' w']] eqn:K; cbn;
        intros how l0 [= <- <-];
        destruct (B _ _ _ _ _ _ K (HP l eq_refl)) as [_ X]; exact X.
    + intros how l0 [= <- <-]. exact C.
Qed.

End ExitFacts.

Lemma getitem_raises {A : Type} (l : list A) (i : Z) (e : exn) :
  Py.getitem l i = Raise e -> e = IndexError.
Proof.
  unfold Py.getitem.
  destruct ((if (i <? 0)%Z then (i + Z.of_nat (List.length l))%Z else i) <? 0)%Z;
    [intros [= <-]; reflexivity|].
  destruct (nth_error l _); [discriminate | intros [= <-]; reflexivity].
Qed.

Lemma observe_in_order (amp_min amp_max : option Q) (v : Q) :
  bounds_in_order amp_min amp_max ->
  exists lo hi,
    observe amp_min amp_max v = (Some lo, Some hi) /\ lo <= v /\ v <= hi.
Proof.
  intros [[-> ->] | (lo & hi & -> & -> & O)]; cbn.
  - exists v, v. split; [reflexivity|]. split; apply Qle_refl.
  - exists (Py.min lo v), (Py.max hi v). split; [reflexivity|].
    unfold Py.min, Py.max.
    destruct (Qlt_le_dec v lo); destruct (Qlt_le_dec hi v); split; lra.
Qed.

(** The note block of the live worker on established bounds. *)
Lemma LivePlay_play_effect (a : LivePlay.args) (filtered : Q)
      (l l' : LivePlay.locals) (w w' : world) (r : result unit) :
  LivePlay.play a filtered (l, w) = (r, (l', w')) ->
  LivePlay.amp_min l <> None ->
  bounds_in_order (LivePlay.amp_min l) (LivePlay.amp_max l) ->
  (r = Ok tt \/ r = Raise ValueError)
  /\ LivePlay.set_prev_note None l' = LivePlay.set_prev_note None l
  /\ vis_queue w' = vis_queue w.
Proof.
  unfold LivePlay.play. intros E NN [[N _] | (lo & hi & Elo & Ehi & O)];
    [contradiction|].
  next_statement E as l0 s0 G0; [|read_statement G0; discriminate].
  read_statement G0. rewrite Elo, Ehi in E. cbn [bounds] in E.
  next_statement E as b s1 G1; [|read_statement G1; discriminate].
  read_statement G1. cbn [fst snd] in E.
  destruct (map_note_between filtered lo hi (LivePlay.note_low a)
              (LivePlay.note_high a)) as (n & MN & _).
  rewrite MN in E.
  next_statement E as n0 s2 G2; [|read_statement G2; discriminate].
  read_statement G2.
  apply (note_update_frame LivePlay.prev_note
           (fun n => LivePlay.set_prev_note (Some n))
           (LivePlay.set_prev_note None) (fun _ _ => eq_refl)) in E.
  exact E.
Qed.

(** One pass of the live note loop: the calibration state stays
    consistent, the pass can fail only on the sample's channel, on a
    full relay or on a message that [mido.Message] rejects, and a
    finished calibration is left alone. *)
Lemma LivePlay_body_outcome (a : LivePlay.args) (p : poll)
      (l l' : LivePlay.locals) (w w' : world) (r : result bool) :
  LivePlay.body a p (l, w) = (r, (l', w')) ->
  live_play_calibrated l ->
  live_play_calibrated l'
  /\ (r = Ok true \/ r = Raise IndexError \/ r = Raise Full
      \/ r = Raise ValueError)
  /\ (LivePlay.calibrating l = false ->
      LivePlay.calibrating l' = false
      /\ LivePlay.amp_min l' = LivePlay.amp_min l
      /\ LivePlay.amp_max l' = LivePlay.amp_max l).
Proof.
  unfold LivePlay.body. intros E P.
  destruct (sample p) as [smp|];
    [|read_statement E; split; [exact P|]; split; [left; reflexivity|];
      intros C; repeat split; assumption].
  next_statement E as raw s0 G.
  2:{ read_statement G. apply getitem_raises in H. subst.
      split; [exact P|]. split; [right; left; reflexivity|].
      intros C; repeat split; assumption. }
  read_statement G.
  next_statement E as lr s1 G1; [|read_statement G1; discriminate].
  read_statement G1.
  destruct (RespFilter_add (LivePlay.filt l) raw) as [filtered f].
  next_statement E as u2 s2 G2; [|read_statement G2; discriminate].
  read_statement G2.
  (* the calibration block *)
  assert (CAL : forall r3 l3 w3,
             (if LivePlay.calibrating l
              then LivePlay.calibrate filtered (now p) else mret tt)
               (LivePlay.set_filt f l, w) = (r3, (l3, w3)) ->
             r3 = Ok tt /\ live_play_calibrated l3
             /\ (LivePlay.calibrating l = false ->
                 LivePlay.calibrating l3 = false
                 /\ LivePlay.amp_min l3 = LivePlay.amp_min l
                 /\ LivePlay.amp_max l3 = LivePlay.amp_max l)).
  { intros r3 l3 w3 G3. destruct (LivePlay.calibrating l) eqn:C.
    - destruct (LivePlay_calibrate_effect _ _ _ _ _ _ _ G3)
        as [-> [_ [_ [_ [_ [O _]]]]]].
      cbn in O. destruct P as [BO _].
      destruct (observe_in_order _ _ filtered BO) as (lo & hi & OB & L1 & L2).
      rewrite OB in O. injection O as Emin Emax.
      split; [reflexivity|]. split; [|discriminate].
      split; [|rewrite Emin; discriminate].
      right. exists lo, hi. repeat split; try assumption. lra.
    - read_statement G3. split; [reflexivity|]. split; [exact P|].
      intros _. cbn. auto. }
  next_statement E as u3 s3 G3;
    [|destruct (CAL _ _ _ G3) as [X _]; discriminate].
  destruct s3 as [l3 w3]. destruct (CAL _ _ _ G3) as (_ & P3 & FR3).
  next_statement E as u4 s4 G4.
  2:{ apply in_world_inv in G4. destruct G4 as (w4 & V & E4).
      cbn [fst snd] in V, E4. injection E4 as -> ->.
      apply vis_put_inv in V. destruct V as (_ & _ & [X | [X _]]);
        [discriminate|]. injection X as ->.
      split; [exact P3|]. split; [right; right; left; reflexivity | exact FR3]. }
  apply in_world_inv in G4. destruct G4 as (w4 & V & ->).
  cbn [fst snd] in *.
  next_statement E as l5 s5 G5; [|read_statement G5; discriminate].
  read_statement G5.
  (* the note block *)
  assert (PLAY : forall r6 l6 w6,
             (if negb (LivePlay.calibrating l3)
              then LivePlay.play a filtered else mret tt) (l3, w4)
             = (r6, (l6, w6)) ->
             (r6 = Ok tt \/ r6 = Raise ValueError)
             /\ LivePlay.set_prev_note None l6 = LivePlay.set_prev_note None l3).
  { intros r6 l6 w6 G6.
    destruct (LivePlay.calibrating l3) eqn:C3; cbn [negb] in G6.
    - read_statement G6. split; [left|]; reflexivity.
    - destruct P3 as [BO NN].
      destruct (LivePlay_play_effect _ _ _ _ _ _ _ G6 (NN C3) BO)
        as (R6 & F6 & _). split; assumption. }
  assert (SAME : forall l6,
             LivePlay.set_prev_note None l6 = LivePlay.set_prev_note None l3 ->
             live_play_calibrated l6
             /\ (LivePlay.calibrating l = false ->
                 LivePlay.calibrating l6 = false
                 /\ LivePlay.amp_min l6 = LivePlay.amp_min l
                 /\ LivePlay.amp_max l6 = LivePlay.amp_max l)).
  { intros l6 F6.
    assert (C6 : LivePlay.calibrating l6 = LivePlay.calibrating l3)
      by exact (f_equal LivePlay.calibrating F6).
    assert (A6 : LivePlay.amp_min l6 = LivePlay.amp_min l3)
      by exact (f_equal LivePlay.amp_min F6).
    assert (B6 : LivePlay.amp_max l6 = LivePlay.amp_max l3)
      by exact (f_equal LivePlay.amp_max F6).
    unfold live_play_calibrated. rewrite C6, A6, B6.
    split; [exact P3 | exact FR3]. }
  next_statement E as u6 s6 G6.
  - destruct s6 as [l6 w6]. read_statement E.
    destruct (PLAY _ _ _ G6) as [_ F6]. destruct (SAME _ F6) as [P6 FR6].
    split; [exact P6|]. split; [left; reflexivity | exact FR6].
  - destruct (PLAY _ _ _ G6) as [[X | X] F6]; [discriminate|].
    injection X as ->. destruct (SAME _ F6) as [P6 FR6].
    split; [exact P6|]. split; [right; right; right; reflexivity | exact FR6].
Qed.

(** The controller block of the live worker on established bounds. *)
Lemma LiveMod_modulate_effect (a : LiveMod.args) (filtered : Q)
      (l l' : LiveMod.locals) (w w' : world) (r : result unit) :
  LiveMod.modulate a filtered (l, w) = (r, (l', w')) ->
  LiveMod.amp_min l <> None ->
  bounds_in_order (LiveMod.amp_min l) (LiveMod.amp_max l) ->
  (r = Ok tt \/ r = Raise ValueError) /\ l' = l
  /\ exists sent, device w' = device w ++ sent
                  /\ Forall (is_cc (LiveMod.cc a) (LiveMod.channel_midi a)) sent.
Proof.
  unfold LiveMod.modulate. intros E NN [[N _] | (lo & hi & Elo & Ehi & O)];
    [contradiction|].
  next_statement E as l0 s0 G0; [|read_statement G0; discriminate].
  read_statement G0. rewrite Elo, Ehi in E. cbn [bounds] in E.
  next_statement E as b s1 G1; [|read_statement G1; discriminate].
  read_statement G1. cbn [fst snd] in E.
  destruct (map_cc_between filtered lo hi) as (v & MV & B).
  rewrite MV in E.
  next_statement E as v0 s2 G2; [|read_statement G2; discriminate].
  read_statement G2.
  apply in_world_inv in E. destruct E as (w1 & S & E). cbn [fst snd] in S, E.
  injection E as -> ->.
  apply emit_inv in S. destruct S as [(-> & _ & D & _) | (-> & _ & ->)].
  - split; [left; reflexivity|]. split; [reflexivity|].
    eexists. split; [exact D|]. constructor; [|constructor].
    exists v0. split; [reflexivity | exact B].
  - split; [right; reflexivity|]. split; [reflexivity|].
    exists []. rewrite app_nil_r. split; [reflexivity | constructor].
Qed.

(** One pass of the live controller loop: the calibration state stays
    consistent, the pass can fail only on the sample's channel, on a
    full relay or on a message that [mido.Message] rejects, a finished
    calibration is left alone, and whatever is sent is a control
    change of the configured controller. *)
Lemma LiveMod_body_outcome (a : LiveMod.args) (p : poll)
      (l l' : LiveMod.locals) (w w' : world) (r : result bool) :
  LiveMod.body a p (l, w) = (r, (l', w')) ->
  live_mod_calibrated l ->
  live_mod_calibrated l'
  /\ (r = Ok true \/ r = Raise IndexError \/ r = Raise Full
      \/ r = Raise ValueError)
  /\ (LiveMod.calibrating l = false ->
      LiveMod.calibrating l' = false
      /\ LiveMod.amp_min l' = LiveMod.amp_min l
      /\ LiveMod.amp_max l' = LiveMod.amp_max l)
  /\ exists sent, device w' = device w ++ sent
                  /\ Forall (is_cc (LiveMod.cc a) (LiveMod.channel_midi a)) sent.
Proof.
  unfold LiveMod.body. intros E P.
  assert (NOTHING : exists sent, device w = device w ++ sent
                      /\ Forall (is_cc (LiveMod.cc a) (LiveMod.channel_midi a)) sent)
    by (exists []; rewrite app_nil_r; split; [reflexivity | constructor]).
  destruct (sample p) as [smp|];
    [|read_statement E; split; [exact P|]; split; [left; reflexivity|];
      split; [intros C; repeat split; assumption | exact NOTHING]].
  next_statement E as raw s0 G.
  2:{ read_statement G. apply getitem_raises in H. subst.
      split; [exact P|]. split; [right; left; reflexivity|].
      split; [intros C; repeat split; assumption | exact NOTHING]. }
  read_statement G.
  next_statement E as lr s1 G1; [|read_statement G1; discriminate].
  read_statement G1.
  destruct (RespFilter_add (LiveMod.filt l) raw) as [filtered f].
  next_statement E as u2 s2 G2; [|read_statement G2; discriminate].
  read_statement G2.
  next_statement E as u4 s4 G4.
  2:{ apply in_world_inv in G4. destruct G4 as (w4 & V & E4).
      cbn [fst snd] in V, E4. injection E4 as -> ->.
      apply vis_put_inv in V. destruct V as (D & _ & [X | [X _]]);
        [discriminate|]. injection X as ->.
      split; [exact P|]. split; [right; right; left; reflexivity|].
      split; [intros C; cbn; auto|]. rewrite D. exact NOTHING. }
  apply in_world_inv in G4. destruct G4 as (w4 & V & ->).
  apply vis_put_inv in V. destruct V as (D4 & _ & _). cbn [fst snd] in *.
  assert (BLOCK : forall r3 l3 w3,
             (if LiveMod.calibrating l
              then LiveMod.calibrate filtered (now p)
              else LiveMod.modulate a filtered)
               (LiveMod.set_filt f l, w4) = (r3, (l3, w3)) ->
             (r3 = Ok tt \/ r3 = Raise ValueError) /\ live_mod_calibrated l3
             /\ (LiveMod.calibrating l = false ->
                 LiveMod.calibrating l3 = false
                 /\ LiveMod.amp_min l3 = LiveMod.amp_min l
                 /\ LiveMod.amp_max l3 = LiveMod.amp_max l)
             /\ exists sent, device w3 = device w ++ sent
                  /\ Forall (is_cc (LiveMod.cc a) (LiveMod.channel_midi a)) sent).
  { intros r3 l3 w3 G3. destruct (LiveMod.calibrating l) eqn:C.
    - destruct (LiveMod_calibrate_effect _ _ _ _ _ _ _ G3)
        as [-> [D3 [_ [_ [_ [O _]]]]]].
      cbn in O. destruct P as [BO _].
      destruct (observe_in_order _ _ filtered BO) as (lo & hi & OB & L1 & L2).
      rewrite OB in O. injection O as Emin Emax.
      split; [left; reflexivity|]. split; [|split; [discriminate|]].
      + split; [|rewrite Emin; discriminate].
        right. exists lo, hi. repeat split; try assumption. lra.
      + rewrite D3, D4. exact NOTHING.
    - destruct P as [BO NN].
      destruct (LiveMod_modulate_effect a filtered _ _ _ _ _ G3)
        as (RR & -> & sent & D3 & CC); [exact (NN C) | exact BO |].
      split; [exact RR|]. split; [split; [exact BO | exact NN]|].
      split; [intros _; cbn; auto|].
      exists sent. rewrite D3, D4. split; [reflexivity | exact CC]. }
  next_statement E as u3 s3 G3.
  - destruct s3 as [l3 w3]. destruct (BLOCK _ _ _ G3) as (_ & P3 & FR3 & S3).
    read_statement E.
    split; [exact P3|]. split; [left; reflexivity|]. split; assumption.
  - destruct (BLOCK _ _ _ G3) as ([X | X] & P3 & FR3 & S3); [discriminate|].
    injection X as ->.
    split; [exact P3|]. split; [right; right; right; reflexivity|].
    split; assumption.
Qed.

(** ** What the note workers put on the device *)

Lemma hear_all_snoc (dev : list message) (m : message) :
  hear_all (dev ++ [m]) = hear (hear_all dev) m.
Proof. unfold hear_all. rewrite fold_left_app. reflexivity. Qed.

Lemma note_trace_start (lo hi v : Z) : note_trace lo hi v None [].
Proof.
  split; [reflexivity|]. split; [constructor | discriminate].
Qed.

Lemma note_trace_first (lo hi v n : Z) (dev : list message) :
  (Z.min lo hi <= n <= Z.max lo hi)%Z ->
  note_trace lo hi v None dev -> note_trace lo hi v (Some n) (dev ++ [note_on n v]).
Proof.
  intros B (H & F & _). split; [|split].
  - rewrite hear_all_snoc, H. reflexivity.
  - apply Forall_app. split; [exact F|]. constructor; [|constructor].
    exists n. split; [left; reflexivity | exact B].
  - intros p [= <-]. exact B.
Qed.

Lemma note_trace_change (lo hi v p n : Z) (dev : list message) :
  (Z.min lo hi <= n <= Z.max lo hi)%Z -> n <> p ->
  note_trace lo hi v (Some p) dev ->
  note_trace lo hi v (Some n) ((dev ++ [note_off p]) ++ [note_on n v]).
Proof.
  intros B NE (H & F & BP). split; [|split].
  - rewrite !hear_all_snoc, H. cbn. rewrite Z.eqb_refl. cbn.
    destruct (n =? p)%Z eqn:E; [apply Z.eqb_eq in E; contradiction | reflexivity].
  - apply Forall_app. split; [apply Forall_app; split; [exact F|]|].
    + constructor; [|constructor].
      exists p. split; [right; reflexivity | exact (BP p eq_refl)].
    + constructor; [|constructor].
      exists n. split; [left; reflexivity | exact B].
  - intros q [= <-]. exact B.
Qed.

Lemma in_range_trace_first (lo hi v n : Z) (dev : list message) :
  (Z.min lo hi <= n <= Z.max lo hi)%Z ->
  in_range_trace lo hi v None dev ->
  in_range_trace lo hi v (Some n) (dev ++ [note_on n v]).
Proof.
  intros B (F & _). split.
  - apply Forall_app. split; [exact F|]. constructor; [|constructor].
    exists n. split; [left; reflexivity | exact B].
  - intros p [= <-]. exact B.
Qed.

Lemma in_range_trace_released (lo hi v p : Z) (dev : list message) :
  in_range_trace lo hi v (Some p) dev ->
  in_range_trace lo hi v (Some p) (dev ++ [note_off p]).
Proof.
  intros (F & BP). split; [|exact BP].
  apply Forall_app. split; [exact F|]. constructor; [|constructor].
  exists p. split; [right; reflexivity | exact (BP p eq_refl)].
Qed.

Lemma in_range_trace_change (lo hi v p n : Z) (dev : list message) :
  (Z.min lo hi <= n <= Z.max lo hi)%Z ->
  in_range_trace lo hi v (Some p) dev ->
  in_range_trace lo hi v (Some n) ((dev ++ [note_off p]) ++ [note_on n v]).
Proof.
  intros B H. apply in_range_trace_released in H. destruct H as (F & _). split.
  - apply Forall_app. split; [exact F|]. constructor; [|constructor].
    exists n. split; [left; reflexivity | exact B].
  - intros q [= <-]. exact B.
Qed.

Lemma in_range_trace_assigned (lo hi v n : Z) (dev : list message) :
  (Z.min lo hi <= n <= Z.max lo hi)%Z ->
  in_range_trace lo hi v None dev -> in_range_trace lo hi v (Some n) dev.
Proof.
  intros B (F & _). split; [exact F | intros p [= <-]; exact B].
Qed.

(** The device trace of the prerecorded note worker, at every point of
    every run. *)
Lemma PrerecPlay_run_trace (sp : scipy_signal) (a : PrerecPlay.args)
      (rows : list Q) (ports : list string) (es : list (event unit))
      (N : Z -> Prop) (R : option Z -> list message -> Prop) :
  R None [] ->
  (forall n dev, N n -> R None dev ->
                 R (Some n) (dev ++ [note_on n (PrerecPlay.velocity a)])) ->
  (forall p n dev, N n -> n <> p -> R (Some p) dev ->
                   R (Some n) ((dev ++ [note_off p])
                                 ++ [note_on n (PrerecPlay.velocity a)])) ->
  (forall n dev, N n -> R None dev ->
                 mido_valid (note_on n (PrerecPlay.velocity a)) = false ->
                 R (Some n) dev) ->
  (forall p n dev, N n -> R (Some p) dev ->
                   mido_valid (note_on n (PrerecPlay.velocity a)) = false ->
                   R (Some p) (dev ++ [note_off p])) ->
  (forall x lo hi n,
      map_amp_to_note x lo hi (PrerecPlay.note_low a) (PrerecPlay.note_high a)
      = Ok n -> N n) ->
  let s := run (PrerecPlay.body a) (PrerecPlay.bridge_worker sp a rows ports) es in
  match locals_of s with
  | Some l => R (PrerecPlay.prev_note l) (device (env s))
  | None => device (env s) = []
  end.
Proof.
  intros R0 R1 R2 R3 R4 NM. cbv zeta.
  destruct (boot_effect (PrerecPlay.setup sp a rows) ports
              (fun l => PrerecPlay.prev_note l = None)
              (PrerecPlay_setup_effect sp a rows)) as [D0 L0].
  fold (PrerecPlay.bridge_worker sp a rows ports) in D0, L0.
  set (s0 := PrerecPlay.bridge_worker sp a rows ports) in *.
  destruct (locals_of (run (PrerecPlay.body a) s0 es)) as [l|] eqn:K.
  - revert l K.
    apply (run_invariant (PrerecPlay.body a) (fun _ => True)
             (fun l dev => R (PrerecPlay.prev_note l) dev)).
    + intros i l w r l' w' _ E.
      exact (PrerecPlay_body_preserves a N R i l l' w w' r R1 R2 R3 R4 NM E).
    + apply Forall_forall. intros [i | |] _; exact I.
    + intros l H. rewrite (L0 l H), D0. exact R0.
  - destruct (locals_of s0) as [l0|] eqn:K0.
    + destruct (run_locals_some (PrerecPlay.body a) es s0 l0 K0) as [l H].
      congruence.
    + rewrite (run_aborted (PrerecPlay.body a) es s0 K0). exact D0.
Qed.

(** The device trace of the live note worker, at every point of every
    run. *)
Lemma LivePlay_run_trace (sp : scipy_signal) (a : LivePlay.args) (t0 : Q)
      (resolved : list stream_info) (ports : list string)
      (es : list (event poll))
      (N : Z -> Prop) (R : option Z -> list message -> Prop) :
  R None [] ->
  (forall n dev, N n -> R None dev ->
                 R (Some n) (dev ++ [note_on n (LivePlay.velocity a)])) ->
  (forall p n dev, N n -> n <> p -> R (Some p) dev ->
                   R (Some n) ((dev ++ [note_off p])
                                 ++ [note_on n (LivePlay.velocity a)])) ->
  (forall n dev, N n -> R None dev ->
                 mido_valid (note_on n (LivePlay.velocity a)) = false ->
                 R (Some n) dev) ->
  (forall p n dev, N n -> R (Some p) dev ->
                   mido_valid (note_on n (LivePlay.velocity a)) = false ->
                   R (Some p) (dev ++ [note_off p])) ->
  (forall x lo hi n,
      map_amp_to_note x lo hi (LivePlay.note_low a) (LivePlay.note_high a)
      = Ok n -> N n) ->
  let s := run (LivePlay.body a)
               (LivePlay.bridge_worker sp a t0 resolved ports) es in
  match locals_of s with
  | Some l => R (LivePlay.prev_note l) (device (env s))
  | None => device (env s) = []
  end.
Proof.
  intros R0 R1 R2 R3 R4 NM. cbv zeta.
  destruct (boot_effect (LivePlay.setup sp a t0 resolved) ports
              (fun l => LivePlay.calibrating l = true
                        /\ LivePlay.prev_note l = None
                        /\ LivePlay.start_time l = t0)
              (LivePlay_setup_effect sp a t0 resolved)) as [D0 L0].
  fold (LivePlay.bridge_worker sp a t0 resolved ports) in D0, L0.
  set (s0 := LivePlay.bridge_worker sp a t0 resolved ports) in *.
  destruct (locals_of (run (LivePlay.body a) s0 es)) as [l|] eqn:K.
  - assert (INV : live_trace_invariant R l
                    (device (env (run (LivePlay.body a) s0 es)))).
    { revert l K.
      apply (run_invariant (LivePlay.body a) (fun _ => True)
               (live_trace_invariant R)).
      - intros i l w r l' w' _ E.
        exact (LivePlay_body_preserves a N R R0 R1 R2 R3 R4 NM i l l' w w' r E).
      - apply Forall_forall. intros [i | |] _; exact I.
      - intros l H. destruct (L0 l H) as (C & P & _). rewrite D0.
        split; [intros _; split; [reflexivity | exact P]|].
        rewrite P. exact R0. }
    apply INV.
  - destruct (locals_of s0) as [l0|] eqn:K0.
    + destruct (run_locals_some (LivePlay.body a) es s0 l0 K0) as [l H].
      congruence.
    + rewrite (run_aborted (LivePlay.body a) es s0 K0). exact D0.
Qed.

(** With data bytes for arguments the instrument follows the worker. *)
Lemma PrerecPlay_note_trace (sp : scipy_signal) (a : PrerecPlay.args)
      (rows : list Q) (ports : list string) (es : list (event unit)) :
  midi_note_args (PrerecPlay.note_low a) (PrerecPlay.note_high a)
                 (PrerecPlay.velocity a) ->
  let s := run (PrerecPlay.body a) (PrerecPlay.bridge_worker sp a rows ports) es in
  match locals_of s with
  | Some l => note_trace (PrerecPlay.note_low a) (PrerecPlay.note_high a)
                         (PrerecPlay.velocity a) (PrerecPlay.prev_note l)
                         (device (env s))
  | None => device (env s) = []
  end.
Proof.
  intros BY.
  apply (PrerecPlay_run_trace sp a rows ports es
           (fun n => (Z.min (PrerecPlay.note_low a) (PrerecPlay.note_high a)
                      <= n
                      <= Z.max (PrerecPlay.note_low a) (PrerecPlay.note_high a))%Z)).
  - apply note_trace_start.
  - intros n dev. apply note_trace_first.
  - intros p n dev. apply note_trace_change.
  - intros n dev B _. apply (note_on_accepted _ _ _ BY n _ B).
  - intros p n dev B _. apply (note_on_accepted _ _ _ BY n _ B).
  - intros x lo hi n. apply mapped_note_between.
Qed.

Lemma LivePlay_note_trace (sp : scipy_signal) (a : LivePlay.args) (t0 : Q)
      (resolved : list stream_info) (ports : list string)
      (es : list (event poll)) :
  midi_note_args (LivePlay.note_low a) (LivePlay.note_high a)
                 (LivePlay.velocity a) ->
  let s := run (LivePlay.body a)
               (LivePlay.bridge_worker sp a t0 resolved ports) es in
  match locals_of s with
  | Some l => note_trace (LivePlay.note_low a) (LivePlay.note_high a)
                         (LivePlay.velocity a) (LivePlay.prev_note l)
                         (device (env s))
  | None => device (env s) = []
  end.
Proof.
  intros BY.
  apply (LivePlay_run_trace sp a t0 resolved ports es
           (fun n => (Z.min (LivePlay.note_low a) (LivePlay.note_high a)
                      <= n
                      <= Z.max (LivePlay.note_low a) (LivePlay.note_high a))%Z)).
  - apply note_trace_start.
  - intros n dev. apply note_trace_first.
  - intros p n dev. apply note_trace_change.
  - intros n dev B _. apply (note_on_accepted _ _ _ BY n _ B).
  - intros p n dev B _. apply (note_on_accepted _ _ _ BY n _ B).
  - intros x lo hi n. apply mapped_note_between.
Qed.

(** X11. With notes and a velocity that are MIDI data bytes, whatever
    the run of a note worker, prerecorded or live, the device receives
    a monophonic sequence: the first message is a note_on, every
    note_on after it follows the note_off of the note that was
    sounding and starts a different note, a note_off is only ever sent
    for the sounding note, and the instrument ends in the state the
    worker is in. *)
Theorem note_workers_monophonic
        (sp : scipy_signal)
        (ap : PrerecPlay.args) (rows : list Q) (ports : list string)
        (es : list (event unit))
        (al : LivePlay.args) (t0 : Q) (resolved : list stream_info)
        (ports' : list string) (es' : list (event poll)) :
  midi_note_args (PrerecPlay.note_low ap) (PrerecPlay.note_high ap)
                 (PrerecPlay.velocity ap) ->
  midi_note_args (LivePlay.note_low al) (LivePlay.note_high al)
                 (LivePlay.velocity al) ->
  let s := run (PrerecPlay.body ap)
               (PrerecPlay.bridge_worker sp ap rows ports) es in
  let s' := run (LivePlay.body al)
                (LivePlay.bridge_worker sp al t0 resolved ports') es' in
  hear_all (device (env s))
  = Some (voice_of (match locals_of s with
                    | Some l => PrerecPlay.prev_note l
                    | None => None
                    end))
  /\ hear_all (device (env s'))
     = Some (voice_of (match locals_of s' with
                       | Some l => LivePlay.prev_note l
                       | None => None
                       end)).
Proof.
  intros BP BL. cbv zeta. split.
  - pose proof (PrerecPlay_note_trace sp ap rows ports es BP) as H. cbv zeta in H.
    destruct (locals_of _) as [l|]; [apply H | rewrite H; reflexivity].
  - pose proof (LivePlay_note_trace sp al t0 resolved ports' es' BL) as H.
    cbv zeta in H.
    destruct (locals_of _) as [l|]; [apply H | rewrite H; reflexivity].
Qed.

Lemma note_workers_monophonic_witness :
  hear_all (device (env (run (PrerecPlay.body default_prerec_play)
                             (PrerecPlay.bridge_worker sample_scipy
                                default_prerec_play [1 # 2; 1 # 4]
                                ["HCI 1"%string])
                             [Iterate tt; Redraw; Iterate tt; Interrupt])))
  = Some (Sounding 80).
Proof.
  destruct (note_workers_monophonic sample_scipy default_prerec_play
              [1 # 2; 1 # 4] ["HCI 1"%string]
              [Iterate tt; Redraw; Iterate tt; Interrupt]
              default_live_play 0 [] [] []) as [H _].
  - unfold midi_note_args. cbn. lia.
  - unfold midi_note_args. cbn. lia.
  - rewrite H. vm_compute. reflexivity.
Defined.

Lemma PrerecPlay_range_trace (sp : scipy_signal) (a : PrerecPlay.args)
      (rows : list Q) (ports : list string) (es : list (event unit)) :
  let s := run (PrerecPlay.body a) (PrerecPlay.bridge_worker sp a rows ports) es in
  match locals_of s with
  | Some l => in_range_trace (PrerecPlay.note_low a) (PrerecPlay.note_high a)
                             (PrerecPlay.velocity a) (PrerecPlay.prev_note l)
                             (device (env s))
  | None => device (env s) = []
  end.
Proof.
  apply (PrerecPlay_run_trace sp a rows ports es
           (fun n => (Z.min (PrerecPlay.note_low a) (PrerecPlay.note_high a)
                      <= n
                      <= Z.max (PrerecPlay.note_low a) (PrerecPlay.note_high a))%Z)).
  - split; [constructor | discriminate].
  - intros n dev. apply in_range_trace_first.
  - intros p n dev B _. apply in_range_trace_change, B.
  - intros n dev B X _. apply in_range_trace_assigned; assumption.
  - intros p n dev _ X _. apply in_range_trace_released, X.
  - intros x lo hi n. apply mapped_note_between.
Qed.

Lemma LivePlay_range_trace (sp : scipy_signal) (a : LivePlay.args) (t0 : Q)
      (resolved : list stream_info) (ports : list string)
      (es : list (event poll)) :
  let s := run (LivePlay.body a)
               (LivePlay.bridge_worker sp a t0 resolved ports) es in
  match locals_of s with
  | Some l => in_range_trace (LivePlay.note_low a) (LivePlay.note_high a)
                             (LivePlay.velocity a) (LivePlay.prev_note l)
                             (device (env s))
  | None => device (env s) = []
  end.
Proof.
  apply (LivePlay_run_trace sp a t0 resolved ports es
           (fun n => (Z.min (LivePlay.note_low a) (LivePlay.note_high a)
                      <= n
                      <= Z.max (LivePlay.note_low a) (LivePlay.note_high a))%Z)).
  - split; [constructor | discriminate].
  - intros n dev. apply in_range_trace_first.
  - intros p n dev B _. apply in_range_trace_change, B.
  - intros n dev B X _. apply in_range_trace_assigned; assumption.
  - intros p n dev _ X _. apply in_range_trace_released, X.
  - intros x lo hi n. apply mapped_note_between.
Qed.

(** X12. Whatever the run of a note worker, every message on the
    device is a note_on with the configured velocity or a note_off,
    for a note between the two configured notes (in either order). *)
Theorem note_workers_stay_in_range
        (sp : scipy_signal)
        (ap : PrerecPlay.args) (data : list Q) (ports : list string)
        (es : list (event unit))
        (al : LivePlay.args) (t0 : Q) (resolved : list stream_info)
        (ports' : list string) (es' : list (event poll)) :
  Forall (is_note (PrerecPlay.note_low ap) (PrerecPlay.note_high ap)
                  (PrerecPlay.velocity ap))
         (device (env (run (PrerecPlay.body ap)
                           (PrerecPlay.bridge_worker sp ap data ports) es)))
  /\ Forall (is_note (LivePlay.note_low al) (LivePlay.note_high al)
                     (LivePlay.velocity al))
            (device (env (run (LivePlay.body al)
                              (LivePlay.bridge_worker sp al t0 resolved ports')
                              es'))).
Proof.
  split.
  - pose proof (PrerecPlay_range_trace sp ap data ports es) as H. cbv zeta in H.
    destruct (locals_of _) as [l|]; [apply H | rewrite H; constructor].
  - pose proof (LivePlay_range_trace sp al t0 resolved ports' es') as H.
    cbv zeta in H.
    destruct (locals_of _) as [l|]; [apply H | rewrite H; constructor].
Qed.

(** ** What setup leaves in the locals *)

Lemma LivePlay_setup_locals (sp : scipy_signal) (a : LivePlay.args) (t0 : Q)
      (resolved : list stream_info) (w w' : world) (l : LivePlay.locals) :
  LivePlay.setup sp a t0 resolved w = (Ok (Some l), w') ->
  exists info f,
    select_stream (matching_streams resolved) (LivePlay.stream_index a) = Ok info
    /\ RespFilter_init sp (stream_fs info) (LivePlay.cutoff a) = Ok f
    /\ existsb (String.eqb (LivePlay.midi_port a)) (output_names w) = true
    /\ l = {| LivePlay.filt := f; LivePlay.start_time := t0;
              LivePlay.calibrating := true;
              LivePlay.amp_min := None; LivePlay.amp_max := None;
              LivePlay.prev_note := None;
              LivePlay.calibration_msg_shown := false |}.
Proof.
  unfold LivePlay.setup. intros E.
  remember (Ok (Some l)) as r eqn:RE.
  next_statement E as u0 w0 G0; [|discriminate RE].
  unfold logging_info in G0. injection G0 as _ <-.
  destruct (matching_streams resolved) as [|s0 rest].
  - next_statement E as u1 w1 G1; [|discriminate RE].
    unfold mret in E. injection E as E _. congruence.
  - next_statement E as info w1 G1; [|discriminate RE].
    apply mlift_inv in G1. destruct G1 as [SEL ->].
    next_statement E as u2 w2 G2; [|discriminate RE].
    unfold logging_info in G2. injection G2 as _ <-.
    next_statement E as f w3 G3; [|discriminate RE].
    apply mlift_inv in G3. destruct G3 as [INIT ->].
    next_statement E as u4 w4 G4; [|discriminate RE].
    unfold MidiOut_init in G4. cbn [output_names] in G4.
    destruct (existsb (String.eqb (LivePlay.midi_port a)) (output_names w)) eqn:P;
      [|discriminate].
    injection G4 as _ <-. unfold mret in E. injection E as E _.
    exists info, f. repeat split; congruence.
Qed.

Lemma LiveMod_setup_locals (sp : scipy_signal) (a : LiveMod.args) (t0 : Q)
      (resolved : list stream_info) (w w' : world) (l : LiveMod.locals) :
  LiveMod.setup sp a t0 resolved w = (Ok (Some l), w') ->
  exists info f,
    select_stream (matching_streams resolved) (LiveMod.stream_index a) = Ok info
    /\ RespFilter_init sp (stream_fs info) (LiveMod.cutoff a) = Ok f
    /\ existsb (String.eqb (LiveMod.midi_port a)) (output_names w) = true
    /\ l = {| LiveMod.filt := f; LiveMod.start_time := t0;
              LiveMod.calibrating := true;
              LiveMod.amp_min := None; LiveMod.amp_max := None;
              LiveMod.calibration_msg_shown := false |}.
Proof.
  unfold LiveMod.setup. intros E.
  remember (Ok (Some l)) as r eqn:RE.
  next_statement E as u0 w0 G0; [|discriminate RE].
  unfold logging_info in G0. injection G0 as _ <-.
  destruct (matching_streams resolved) as [|s0 rest].
  - next_statement E as u1 w1 G1; [|discriminate RE].
    unfold mret in E. injection E as E _. congruence.
  - next_statement E as info w1 G1; [|discriminate RE].
    apply mlift_inv in G1. destruct G1 as [SEL ->].
    next_statement E as u2 w2 G2; [|discriminate RE].
    unfold logging_info in G2. injection G2 as _ <-.
    next_statement E as f w3 G3; [|discriminate RE].
    apply mlift_inv in G3. destruct G3 as [INIT ->].
    next_statement E as u4 w4 G4; [|discriminate RE].
    unfold MidiOut_init in G4. cbn [output_names] in G4.
    destruct (existsb (String.eqb (LiveMod.midi_port a)) (output_names w)) eqn:P;
      [|discriminate].
    injection G4 as _ <-. unfold mret in E. injection E as E _.
    exists info, f. repeat split; congruence.
Qed.

Lemma live_play_boot_calibrated (sp : scipy_signal) (a : LivePlay.args) (t0 : Q)
      (resolved : list stream_info) (ports : list string) (l : LivePlay.locals) :
  locals_of (LivePlay.bridge_worker sp a t0 resolved ports) = Some l ->
  thread (LivePlay.bridge_worker sp a t0 resolved ports) = Running l
  /\ live_play_calibrated l.
Proof.
  unfold LivePlay.bridge_worker, boot.
  destruct (LivePlay.setup sp a t0 resolved (main_world ports))
    as [[[l0|] | x] w] eqn:E; cbn; try discriminate.
  intros [= <-]. split; [reflexivity|].
  destruct (LivePlay_setup_locals _ _ _ _ _ _ _ E) as (info & f & _ & _ & _ & ->).
  split; [left; split; reflexivity | discriminate].
Qed.

Lemma live_mod_boot_calibrated (sp : scipy_signal) (a : LiveMod.args) (t0 : Q)
      (resolved : list stream_info) (ports : list string) (l : LiveMod.locals) :
  locals_of (LiveMod.bridge_worker sp a t0 resolved ports) = Some l ->
  thread (LiveMod.bridge_worker sp a t0 resolved ports) = Running l
  /\ live_mod_calibrated l.
Proof.
  unfold LiveMod.bridge_worker, boot.
  destruct (LiveMod.setup sp a t0 resolved (main_world ports))
    as [[[l0|] | x] w] eqn:E; cbn; try discriminate.
  intros [= <-]. split; [reflexivity|].
  destruct (LiveMod_setup_locals _ _ _ _ _ _ _ E) as (info & f & _ & _ & _ & ->).
  split; [left; split; reflexivity | discriminate].
Qed.

Lemma live_play_run_calibrated (sp : scipy_signal) (a : LivePlay.args) (t0 : Q)
      (resolved : list stream_info) (ports : list string)
      (es : list (event poll)) (l : LivePlay.locals) :
  locals_of (run (LivePlay.body a)
                 (LivePlay.bridge_worker sp a t0 resolved ports) es) = Some l ->
  live_play_calibrated l.
Proof.
  revert l.
  apply (run_invariant (LivePlay.body a) (fun _ => True)
           (fun l _ => live_play_calibrated l)).
  - intros i l w r l' w' _ E P. apply (LivePlay_body_outcome a i l l' w w' r E P).
  - apply Forall_forall. intros [i | |] _; exact I.
  - intros l H. apply (live_play_boot_calibrated sp a t0 resolved ports l H).
Qed.

Lemma live_mod_run_calibrated (sp : scipy_signal) (a : LiveMod.args) (t0 : Q)
      (resolved : list stream_info) (ports : list string)
      (es : list (event poll)) (l : LiveMod.locals) :
  locals_of (run (LiveMod.body a)
                 (LiveMod.bridge_worker sp a t0 resolved ports) es) = Some l ->
  live_mod_calibrated l
  /\ Forall (is_cc (LiveMod.cc a) (LiveMod.channel_midi a))
            (device (env (run (LiveMod.body a)
                              (LiveMod.bridge_worker sp a t0 resolved ports) es))).
Proof.
  revert l.
  apply (run_invariant (LiveMod.body a) (fun _ => True)
           (fun l dev => live_mod_calibrated l
                         /\ Forall (is_cc (LiveMod.cc a) (LiveMod.channel_midi a)) dev)).
  - intros i l w r l' w' _ E [P F].
    destruct (LiveMod_body_outcome a i l l' w w' r E P)
      as (P' & _ & _ & sent & D & S).
    split; [exact P'|]. rewrite D. apply Forall_app. split; assumption.
  - apply Forall_forall. intros [i | |] _; exact I.
  - intros l H. split; [apply (live_mod_boot_calibrated sp a t0 resolved ports l H)|].
    destruct (boot_effect (LiveMod.setup sp a t0 resolved) ports
                (fun _ => True)) as [D0 _].
    + intros w w' r E. split; [|intros; exact I].
      apply (LiveMod_setup_effect sp a t0 resolved w w' r E).
    + fold (LiveMod.bridge_worker sp a t0 resolved ports) in D0.
      rewrite D0. constructor.
Qed.

(** X13. A live worker leaves its loop only by cancellation, by a
    sample that lacks the configured channel ([IndexError]), by a full
    relay ([Full]), with a [ValueError] (a message that [mido.Message]
    rejects) or with an [OverflowError]: the loop never ends on its
    own, nothing in it divides by zero, and the calibrated bounds are
    never missing when they are needed (no [TypeError]). *)
Theorem live_loops_exit_kinds
        (sp : scipy_signal) (ap : LivePlay.args) (am : LiveMod.args) (t0 : Q)
        (resolved : list stream_info) (ports : list string)
        (es : list (event poll)) :
  match thread (run (LivePlay.body ap)
                    (LivePlay.bridge_worker sp ap t0 resolved ports) es) with
  | Stopped how _ => live_exit how
  | _ => True
  end
  /\ match thread (run (LiveMod.body am)
                       (LiveMod.bridge_worker sp am t0 resolved ports) es) with
     | Stopped how _ => live_exit how
     | _ => True
     end.
Proof.
  split.
  - destruct (run_exit_kinds (LivePlay.body ap) live_play_calibrated live_exit)
      with (es := es) (s := LivePlay.bridge_worker sp ap t0 resolved ports)
      as [_ X].
    + intros i l0 w r l' w' E P.
      destruct (LivePlay_body_outcome ap i l0 l' w w' r E P) as (P' & O & _).
      split; [exact P'|].
      destruct O as [-> | [-> | [-> | ->]]];
        [exact I | right; left; reflexivity | right; right; left; reflexivity
        | right; right; right; left; reflexivity].
    + left. reflexivity.
    + intros l0 R. apply (live_play_boot_calibrated sp ap t0 resolved ports).
      unfold locals_of. rewrite R. reflexivity.
    + intros how0 l0 S.
      destruct (live_play_boot_calibrated sp ap t0 resolved ports l0) as [R _];
        [unfold locals_of; rewrite S; reflexivity | congruence].
    + destruct (thread _) as [l | how l | how] eqn:T; try exact I.
      exact (X how l eq_refl).
  - destruct (run_exit_kinds (LiveMod.body am) live_mod_calibrated live_exit)
      with (es := es) (s := LiveMod.bridge_worker sp am t0 resolved ports)
      as [_ X].
    + intros i l0 w r l' w' E P.
      destruct (LiveMod_body_outcome am i l0 l' w w' r E P) as (P' & O & _).
      split; [exact P'|].
      destruct O as [-> | [-> | [-> | ->]]];
        [exact I | right; left; reflexivity | right; right; left; reflexivity
        | right; right; right; left; reflexivity].
    + left. reflexivity.
    + intros l0 R. apply (live_mod_boot_calibrated sp am t0 resolved ports).
      unfold locals_of. rewrite R. reflexivity.
    + intros how0 l0 S.
      destruct (live_mod_boot_calibrated sp am t0 resolved ports l0) as [R _];
        [unfold locals_of; rewrite S; reflexivity | congruence].
    + destruct (thread _) as [l | how l | how] eqn:T; try exact I.
      exact (X how l eq_refl).
Qed.

(** X14. In every run of a live worker the calibration range is either
    not started (both bounds unset) or established with
    [amp_min <= amp_max], and it is established whenever calibration
    is over. *)
Theorem live_range_in_order
        (sp : scipy_signal) (ap : LivePlay.args) (am : LiveMod.args) (t0 : Q)
        (resolved : list stream_info) (ports : list string)
        (es : list (event poll)) :
  match locals_of (run (LivePlay.body ap)
                       (LivePlay.bridge_worker sp ap t0 resolved ports) es) with
  | Some l => live_play_calibrated l
  | None => True
  end
  /\ match locals_of (run (LiveMod.body am)
                          (LiveMod.bridge_worker sp am t0 resolved ports) es) with
     | Some l => live_mod_calibrated l
     | None => True
     end.
Proof.
  split.
  - destruct (locals_of _) as [l|] eqn:K; [|exact I].
    exact (live_play_run_calibrated sp ap t0 resolved ports es l K).
  - destruct (locals_of _) as [l|] eqn:K; [|exact I].
    apply (live_mod_run_calibrated sp am t0 resolved ports es l K).
Qed.

(** X15. Whatever the run of the live controller worker, every message
    on the device is a control change on the configured controller and
    channel, with a value in 0..127. *)
Theorem live_mod_sends_only_cc
        (sp : scipy_signal) (a : LiveMod.args) (t0 : Q)
        (resolved : list stream_info) (ports : list string)
        (es : list (event poll)) :
  Forall (is_cc (LiveMod.cc a) (LiveMod.channel_midi a))
         (device (env (run (LiveMod.body a)
                           (LiveMod.bridge_worker sp a t0 resolved ports) es))).
Proof.
  destruct (locals_of (run (LiveMod.body a)
                           (LiveMod.bridge_worker sp a t0 resolved ports) es))
    as [l|] eqn:K.
  - apply (live_mod_run_calibrated sp a t0 resolved ports es l K).
  - destruct (locals_of (LiveMod.bridge_worker sp a t0 resolved ports))
      as [l0|] eqn:K0.
    + destruct (run_locals_some (LiveMod.body a) es _ l0 K0) as [l H]. congruence.
    + rewrite (run_aborted (LiveMod.body a) es _ K0).
      destruct (boot_effect (LiveMod.setup sp a t0 resolved) ports
                  (fun _ => True)) as [D0 _].
      * intros w w' r E. split; [|intros; exact I].
        apply (LiveMod_setup_effect sp a t0 resolved w w' r E).
      * fold (LiveMod.bridge_worker sp a t0 resolved ports) in D0.
        rewrite D0. constructor.
Qed.

(** X16. Calibration is final in the live note worker: once a run has
    left the calibration state, no later event brings it back, and the
    range stays exactly what it was at that moment. *)
Theorem live_play_calibration_frozen
        (sp : scipy_signal) (a : LivePlay.args) (t0 : Q)
        (resolved : list stream_info) (ports : list string)
        (es1 es2 : list (event poll)) (l1 : LivePlay.locals) :
  let s1 := run (LivePlay.body a)
                (LivePlay.bridge_worker sp a t0 resolved ports) es1 in
  locals_of s1 = Some l1 ->
  LivePlay.calibrating l1 = false ->
  exists l2,
    locals_of (run (LivePlay.body a) s1 es2) = Some l2
    /\ LivePlay.calibrating l2 = false
    /\ LivePlay.amp_min l2 = LivePlay.amp_min l1
    /\ LivePlay.amp_max l2 = LivePlay.amp_max l1.
Proof.
  cbv zeta. intros K C.
  set (s1 := run (LivePlay.body a)
                 (LivePlay.bridge_worker sp a t0 resolved ports) es1) in *.
  destruct (run_locals_some (LivePlay.body a) es2 s1 l1 K) as [l2 K2].
  exists l2. split; [exact K2|].
  assert (H : live_play_calibrated l2
              /\ LivePlay.calibrating l2 = false
              /\ LivePlay.amp_min l2 = LivePlay.amp_min l1
              /\ LivePlay.amp_max l2 = LivePlay.amp_max l1).
  { revert l2 K2.
    apply (run_invariant (LivePlay.body a) (fun _ => True)
             (fun l _ => live_play_calibrated l
                         /\ LivePlay.calibrating l = false
                         /\ LivePlay.amp_min l = LivePlay.amp_min l1
                         /\ LivePlay.amp_max l = LivePlay.amp_max l1)).
    - intros i l w r l' w' _ E (P & C0 & A0 & B0).
      destruct (LivePlay_body_outcome a i l l' w w' r E P) as (P' & _ & FR).
      destruct (FR C0) as (C' & A' & B').
      split; [exact P'|]. repeat split; congruence.
    - apply Forall_forall. intros [i | |] _; exact I.
    - intros l H. rewrite K in H. injection H as <-.
      split; [exact (live_play_run_calibrated sp a t0 resolved ports es1 l1 K)|].
      repeat split. exact C. }
  apply H.
Qed.

Lemma live_play_calibration_frozen_witness :
  exists l2,
    locals_of
      (run (LivePlay.body default_live_play)
           (run (LivePlay.body default_live_play)
                (LivePlay.bridge_worker sample_scipy default_live_play 0
                   [ {| name := "OpenSignals"; nominal_srate := 1000 |} ]
                   ["HCI 1"%string])
                [ Iterate {| sample := Some [0; 1 # 2]; now := 31 |} ])
           [ Iterate {| sample := Some [0; 1]; now := 32 |} ]) = Some l2
    /\ LivePlay.calibrating l2 = false.
Proof.
  edestruct (live_play_calibration_frozen sample_scipy default_live_play 0
               [ {| name := "OpenSignals"; nominal_srate := 1000 |} ]
               ["HCI 1"%string]
               [ Iterate {| sample := Some [0; 1 # 2]; now := 31 |} ]
               [ Iterate {| sample := Some [0; 1]; now := 32 |} ])
    as (l2 & K2 & C2 & _).
  - vm_compute. reflexivity.
  - vm_compute. reflexivity.
  - exists l2. split; assumption.
Defined.

(** X17. The same in the live controller worker. *)
Theorem live_mod_calibration_frozen
        (sp : scipy_signal) (a : LiveMod.args) (t0 : Q)
        (resolved : list stream_info) (ports : list string)
        (es1 es2 : list (event poll)) (l1 : LiveMod.locals) :
  let s1 := run (LiveMod.body a)
                (LiveMod.bridge_worker sp a t0 resolved ports) es1 in
  locals_of s1 = Some l1 ->
  LiveMod.calibrating l1 = false ->
  exists l2,
    locals_of (run (LiveMod.body a) s1 es2) = Some l2
    /\ LiveMod.calibrating l2 = false
    /\ LiveMod.amp_min l2 = LiveMod.amp_min l1
    /\ LiveMod.amp_max l2 = LiveMod.amp_max l1.
Proof.
  cbv zeta. intros K C.
  set (s1 := run (LiveMod.body a)
                 (LiveMod.bridge_worker sp a t0 resolved ports) es1) in *.
  destruct (run_locals_some (LiveMod.body a) es2 s1 l1 K) as [l2 K2].
  exists l2. split; [exact K2|].
  assert (H : live_mod_calibrated l2
              /\ LiveMod.calibrating l2 = false
              /\ LiveMod.amp_min l2 = LiveMod.amp_min l1
              /\ LiveMod.amp_max l2 = LiveMod.amp_max l1).
  { revert l2 K2.
    apply (run_invariant (LiveMod.body a) (fun _ => True)
             (fun l _ => live_mod_calibrated l
                         /\ LiveMod.calibrating l = false
                         /\ LiveMod.amp_min l = LiveMod.amp_min l1
                         /\ LiveMod.amp_max l = LiveMod.amp_max l1)).
    - intros i l w r l' w' _ E (P & C0 & A0 & B0).
      destruct (LiveMod_body_outcome a i l l' w w' r E P) as (P' & _ & FR & _).
      destruct (FR C0) as (C' & A' & B').
      split; [exact P'|]. repeat split; congruence.
    - apply Forall_forall. intros [i | |] _; exact I.
    - intros l H. rewrite K in H. injection H as <-.
      split; [apply (live_mod_run_calibrated sp a t0 resolved ports es1 l1 K)|].
      repeat split. exact C. }
  apply H.
Qed.

Lemma live_mod_calibration_frozen_witness :
  exists l2,
    locals_of
      (run (LiveMod.body default_live_mod)
           (run (LiveMod.body default_live_mod)
                (LiveMod.bridge_worker sample_scipy default_live_mod 0
                   [ {| name := "OpenSignals"; nominal_srate := 1000 |} ]
                   ["HCI 1"%string])
                [ Iterate {| sample := Some [0; 1 # 2]; now := 31 |} ])
           [ Iterate {| sample := Some [0; 1]; now := 32 |} ]) = Some l2
    /\ LiveMod.calibrating l2 = false.
Proof.
  edestruct (live_mod_calibration_frozen sample_scipy default_live_mod 0
               [ {| name := "OpenSignals"; nominal_srate := 1000 |} ]
               ["HCI 1"%string]
               [ Iterate {| sample := Some [0; 1 # 2]; now := 31 |} ]
               [ Iterate {| sample := Some [0; 1]; now := 32 |} ])
    as (l2 & K2 & C2 & _).
  - vm_compute. reflexivity.
  - vm_compute. reflexivity.
  - exists l2. split; assumption.
Defined.

(** ** The prerecorded workers *)

Lemma fold_min_spec (rest : list Q) (x : Q) :
  In (fold_left Py.min rest x) (x :: rest)
  /\ Forall (fun y => fold_left Py.min rest x <= y) (x :: rest).
Proof.
  revert x. induction rest as [|y rest IH]; intros x; cbn [fold_left].
  - split; [left; reflexivity | constructor; [apply Qle_refl | constructor]].
  - destruct (IH (Py.min x y)) as [I F]. inversion F as [|m ms Fm Fr]; subst.
    assert (M : Py.min x y <= x /\ Py.min x y <= y /\ (Py.min x y = x \/ Py.min x y = y)).
    { unfold Py.min. destruct (Qlt_le_dec y x); repeat split; auto; lra. }
    destruct M as (M1 & M2 & M3). split.
    + destruct I as [I | I].
      * rewrite <- I. destruct M3 as [-> | ->]; [left | right; left]; reflexivity.
      * right; right. exact I.
    + constructor; [lra|]. constructor; [lra | exact Fr].
Qed.

Lemma fold_max_spec (rest : list Q) (x : Q) :
  In (fold_left Py.max rest x) (x :: rest)
  /\ Forall (fun y => y <= fold_left Py.max rest x) (x :: rest).
Proof.
  revert x. induction rest as [|y rest IH]; intros x; cbn [fold_left].
  - split; [left; reflexivity | constructor; [apply Qle_refl | constructor]].
  - destruct (IH (Py.max x y)) as [I F]. inversion F as [|m ms Fm Fr]; subst.
    assert (M : x <= Py.max x y /\ y <= Py.max x y /\ (Py.max x y = x \/ Py.max x y = y)).
    { unfold Py.max. destruct (Qlt_le_dec x y); repeat split; auto; lra. }
    destruct M as (M1 & M2 & M3). split.
    + destruct I as [I | I].
      * rewrite <- I. destruct M3 as [-> | ->]; [left | right; left]; reflexivity.
      * right; right. exact I.
    + constructor; [lra|]. constructor; [lra | exact Fr].
Qed.

Lemma np_min_spec (l : list Q) (m : Q) :
  np_min l = Ok m -> In m l /\ Forall (fun y => m <= y) l.
Proof.
  destruct l as [|x rest]; [discriminate|]. intros [= <-]. apply fold_min_spec.
Qed.

Lemma np_max_spec (l : list Q) (m : Q) :
  np_max l = Ok m -> In m l /\ Forall (fun y => y <= m) l.
Proof.
  destruct l as [|x rest]; [discriminate|]. intros [= <-]. apply fold_max_spec.
Qed.

(** The rows of a recording that can be iterated: all of them, and
    not a single one. *)
Lemma iterate_loadtxt (rows xs : list Q) :
  iterate (np_loadtxt rows) = Ok xs -> xs = rows /\ List.length rows <> 1%nat.
Proof.
  destruct rows as [|x [|y rest]]; cbn; try discriminate;
    intros [= <-]; split; try reflexivity; discriminate.
Qed.

Lemma iterate_raises (rows : list Q) (x : exn) :
  iterate (np_loadtxt rows) = Raise x -> x = TypeError /\ List.length rows = 1%nat.
Proof.
  destruct rows as [|y [|y' rest]]; cbn; try discriminate.
  intros [= <-]. split; reflexivity.
Qed.

Lemma PrerecPlay_setup_locals (sp : scipy_signal) (a : PrerecPlay.args)
      (data : list Q) (w w' : world) (r : result (option PrerecPlay.locals)) :
  PrerecPlay.setup sp a data w = (r, w') ->
  (r <> Ok None)
  /\ forall l, r = Ok (Some l) ->
     exists f,
       Py.truediv 1 (PrerecPlay.sampling_rate a) = Ok (PrerecPlay.dt l)
       /\ RespFilter_init sp (PrerecPlay.sampling_rate a) (PrerecPlay.cutoff a) = Ok f
       /\ existsb (String.eqb (PrerecPlay.midi_port a)) (output_names w) = true
       /\ PrerecPlay.remaining l = filter_all f data
       /\ np_min (filter_all f data) = Ok (PrerecPlay.amp_min l)
       /\ np_max (filter_all f data) = Ok (PrerecPlay.amp_max l)
       /\ PrerecPlay.prev_note l = None.
Proof.
  unfold PrerecPlay.setup. intros E.
  assert (BAD : forall e : exn,
             (@Raise (option PrerecPlay.locals) e <> Ok None)
             /\ forall l, @Raise (option PrerecPlay.locals) e = Ok (Some l) ->
                          exists f : RespFilter,
                            Py.truediv 1 (PrerecPlay.sampling_rate a)
                            = Ok (PrerecPlay.dt l)
                            /\ RespFilter_init sp (PrerecPlay.sampling_rate a)
                                 (PrerecPlay.cutoff a) = Ok f
                            /\ existsb (String.eqb (PrerecPlay.midi_port a))
                                 (output_names w) = true
                            /\ PrerecPlay.remaining l = filter_all f data
                            /\ np_min (filter_all f data) = Ok (PrerecPlay.amp_min l)
                            /\ np_max (filter_all f data) = Ok (PrerecPlay.amp_max l)
                            /\ PrerecPlay.prev_note l = None)
    by (intros e; split; [discriminate | intros l X; discriminate]).
  next_statement E as u0 w0 G0; [|apply BAD].
  unfold logging_info in G0. injection G0 as _ <-.
  next_statement E as d w1 G1; [|apply BAD].
  apply mlift_inv in G1. destruct G1 as [DT ->].
  next_statement E as f w2 G2; [|apply BAD].
  apply mlift_inv in G2. destruct G2 as [INIT ->].
  next_statement E as u3 w3 G3; [|apply BAD].
  unfold MidiOut_init in G3. cbn [output_names] in G3.
  destruct (existsb (String.eqb (PrerecPlay.midi_port a)) (output_names w)) eqn:P;
    [|discriminate].
  injection G3 as _ <-.
  next_statement E as u4 w4 G4; [|apply BAD].
  unfold logging_info in G4. injection G4 as _ <-.
  next_statement E as xs w8 G8; [|apply BAD].
  apply mlift_inv in G8. destruct G8 as [IT ->].
  destruct (iterate_loadtxt _ _ IT) as [-> _].
  next_statement E as lo w5 G5; [|apply BAD].
  apply mlift_inv in G5. destruct G5 as [MIN ->].
  next_statement E as hi w6 G6; [|apply BAD].
  apply mlift_inv in G6. destruct G6 as [MAX ->].
  next_statement E as u7 w7 G7; [|apply BAD].
  unfold logging_info in G7. injection G7 as _ <-.
  unfold mret in E. injection E as <- _.
  split; [discriminate|]. intros l [= <-]. exists f. cbn. repeat split; assumption.
Qed.

Lemma PrerecMod_setup_locals (sp : scipy_signal) (a : PrerecMod.args)
      (data : list Q) (w w' : world) (r : result (option PrerecMod.locals)) :
  PrerecMod.setup sp a data w = (r, w') ->
  (r <> Ok None)
  /\ forall l, r = Ok (Some l) ->
     exists f,
       Py.truediv 1 (PrerecMod.sampling_rate a) = Ok (PrerecMod.dt l)
       /\ RespFilter_init sp (PrerecMod.sampling_rate a) (PrerecMod.cutoff a) = Ok f
       /\ existsb (String.eqb (PrerecMod.midi_port a)) (output_names w) = true
       /\ PrerecMod.remaining l = filter_all f data
       /\ np_min (filter_all f data) = Ok (PrerecMod.amp_min l)
       /\ np_max (filter_all f data) = Ok (PrerecMod.amp_max l)
       /\ device w' = device w.
Proof.
  unfold PrerecMod.setup. intros E.
  assert (BAD : forall e : exn,
             (@Raise (option PrerecMod.locals) e <> Ok None)
             /\ forall l, @Raise (option PrerecMod.locals) e = Ok (Some l) ->
                          exists f : RespFilter,
                            Py.truediv 1 (PrerecMod.sampling_rate a)
                            = Ok (PrerecMod.dt l)
                            /\ RespFilter_init sp (PrerecMod.sampling_rate a)
                                 (PrerecMod.cutoff a) = Ok f
                            /\ existsb (String.eqb (PrerecMod.midi_port a))
                                 (output_names w) = true
                            /\ PrerecMod.remaining l = filter_all f data
                            /\ np_min (filter_all f data) = Ok (PrerecMod.amp_min l)
                            /\ np_max (filter_all f data) = Ok (PrerecMod.amp_max l)
                            /\ device w' = device w)
    by (intros e; split; [discriminate | intros l X; discriminate]).
  next_statement E as u0 w0 G0; [|apply BAD].
  unfold logging_info in G0. injection G0 as _ <-.
  next_statement E as d w1 G1; [|apply BAD].
  apply mlift_inv in G1. destruct G1 as [DT ->].
  next_statement E as f w2 G2; [|apply BAD].
  apply mlift_inv in G2. destruct G2 as [INIT ->].
  next_statement E as u3 w3 G3; [|apply BAD].
  unfold MidiOut_init in G3. cbn [output_names] in G3.
  destruct (existsb (String.eqb (PrerecMod.midi_port a)) (output_names w)) eqn:P;
    [|discriminate].
  injection G3 as _ <-.
  next_statement E as u4 w4 G4; [|apply BAD].
  unfold logging_info in G4. injection G4 as _ <-.
  next_statement E as xs w8 G8; [|apply BAD].
  apply mlift_inv in G8. destruct G8 as [IT ->].
  destruct (iterate_loadtxt _ _ IT) as [-> _].
  next_statement E as lo w5 G5; [|apply BAD].
  apply mlift_inv in G5. destruct G5 as [MIN ->].
  next_statement E as hi w6 G6; [|apply BAD].
  apply mlift_inv in G6. destruct G6 as [MAX ->].
  next_statement E as u7 w7 G7; [|apply BAD].
  unfold logging_info in G7. injection G7 as _ <-.
  unfold mret in E. injection E as <- <-.
  split; [discriminate|]. intros l [= <-]. exists f. cbn. repeat split; assumption.
Qed.

Lemma truediv_one_positive (fs d : Q) :
  0 < fs -> Py.truediv 1 fs = Ok d -> 0 <= d.
Proof.
  intros P. rewrite truediv_nonzero by lra. intros [= <-].
  apply Qlt_le_weak. unfold Qdiv. rewrite Qmult_1_l. apply Qinv_lt_0_compat, P.
Qed.

(** X18. Batch calibration brackets the recording: when the
    prerecorded note worker reaches its loop, the recording is not
    empty, one filtered value per sample is waiting to be played, each
    of them lies between [amp_min] and [amp_max], and both bounds are
    values of the filtered recording. *)
Theorem prerec_calibration_brackets (sp : scipy_signal) (a : PrerecPlay.args)
        (data : list Q) (ports : list string) (l : PrerecPlay.locals) :
  thread (PrerecPlay.bridge_worker sp a data ports) = Running l ->
  data <> []
  /\ List.length (PrerecPlay.remaining l) = List.length data
  /\ Forall (fun y => PrerecPlay.amp_min l <= y /\ y <= PrerecPlay.amp_max l)
            (PrerecPlay.remaining l)
  /\ In (PrerecPlay.amp_min l) (PrerecPlay.remaining l)
  /\ In (PrerecPlay.amp_max l) (PrerecPlay.remaining l).
Proof.
  unfold PrerecPlay.bridge_worker, boot.
  destruct (PrerecPlay.setup sp a data (main_world ports))
    as [[[l0|] | x] w] eqn:E; cbn; try discriminate.
  intros [= <-].
  destruct (PrerecPlay_setup_locals sp a data _ _ _ E) as [_ H].
  destruct (H l0 eq_refl) as (f & _ & _ & _ & R & MIN & MAX & _).
  destruct (np_min_spec _ _ MIN) as [I1 F1].
  destruct (np_max_spec _ _ MAX) as [I2 F2].
  rewrite R. split; [|split; [apply filter_all_length|split; [|split; assumption]]].
  - intros ->. discriminate.
  - apply Forall_forall. intros y Y.
    rewrite Forall_forall in F1, F2. split; [apply F1 | apply F2]; exact Y.
Qed.

Lemma prerec_calibration_brackets_witness :
  exists l,
    thread (PrerecPlay.bridge_worker sample_scipy default_prerec_play
              [1 # 2; 1 # 4] ["HCI 1"%string]) = Running l
    /\ List.length (PrerecPlay.remaining l) = 2%nat
    /\ In (PrerecPlay.amp_min l) (PrerecPlay.remaining l).
Proof.
  eexists. split; [vm_compute; reflexivity|].
  edestruct (prerec_calibration_brackets sample_scipy default_prerec_play
               [1 # 2; 1 # 4] ["HCI 1"%string]) as (_ & L & _ & I & _).
  - vm_compute. reflexivity.
  - split; [exact L | exact I].
Defined.











Lemma time_sleep_ok (d : Q) (w w' : world) (r : result unit) :
  0 <= d -> time_sleep d w = (r, w') -> r = Ok tt /\ w' = w.
Proof.
  intros D. unfold time_sleep.
  destruct (Qlt_le_dec d 0) as [N | _]; [exfalso; lra|].
  intros [= <- <-]. split; reflexivity.
Qed.

(** One pass of the prerecorded note loop at a non-negative pace: it
    goes on, ends the loop, or fails on a full relay or on a message
    that [mido.Message] rejects. *)
Lemma PrerecPlay_body_outcome (a : PrerecPlay.args) (i : unit)
      (l l' : PrerecPlay.locals) (w w' : world) (r : result bool) :
  PrerecPlay.body a i (l, w) = (r, (l', w')) ->
  0 <= PrerecPlay.dt l ->
  0 <= PrerecPlay.dt l'
  /\ (r = Ok true \/ r = Ok false \/ r = Raise Full \/ r = Raise ValueError).
Proof.
  intros E D. unfold PrerecPlay.body in E.
  next_statement E as l0 s0 G0; [|read_statement G0; discriminate].
  read_statement G0.
  destruct (PrerecPlay.remaining l) as [|y rest] eqn:R.
  - read_statement E. split; [exact D | right; left; reflexivity].
  - next_statement E as u1 s1 G1; [|read_statement G1; discriminate].
    read_statement G1.
    next_statement E as u2 s2 G2.
    2:{ apply in_world_inv in G2. destruct G2 as (w2 & P & E2).
        cbn [fst snd] in P, E2. injection E2 as -> ->.
        apply vis_put_inv in P. destruct P as (_ & _ & [X | [X _]]);
          [discriminate|]. injection X as ->.
        split; [exact D | right; right; left; reflexivity]. }
    apply in_world_inv in G2. destruct G2 as (w2 & P & ->). cbn [fst snd] in *.
    destruct (map_note_between y (PrerecPlay.amp_min l) (PrerecPlay.amp_max l)
                (PrerecPlay.note_low a) (PrerecPlay.note_high a))
      as (n & MN & _).
    rewrite MN in E.
    next_statement E as n0 s3 G3; [|read_statement G3; discriminate].
    read_statement G3.
    next_statement E as u4 s4 G4.
    2:{ apply (note_update_frame PrerecPlay.prev_note
                 (fun n => PrerecPlay.set_prev_note (Some n))
                 PrerecPlay.dt (fun _ _ => eq_refl)) in G4.
        destruct G4 as ([X | X] & DT & _); [discriminate|]. injection X as ->.
        split; [rewrite DT; exact D | right; right; right; reflexivity]. }
    destruct s4 as [l4 w4].
    apply (note_update_frame PrerecPlay.prev_note
             (fun n => PrerecPlay.set_prev_note (Some n))
             PrerecPlay.dt (fun _ _ => eq_refl)) in G4.
    destruct G4 as (_ & DT & _). cbn in DT.
    next_statement E as u5 s5 G5.
    + apply in_world_inv in G5. destruct G5 as (w5 & T & ->).
      read_statement E. split; [rewrite DT; exact D | left; reflexivity].
    + apply in_world_inv in G5. destruct G5 as (w5 & T & _).
      apply (time_sleep_ok _ _ _ _ D) in T. destruct T as [X _]. discriminate.
Qed.

(** The same for the controller loop, where whatever is sent is a
    control change of the configured controller. *)
Lemma PrerecMod_body_outcome (a : PrerecMod.args) (i : unit)
      (l l' : PrerecMod.locals) (w w' : world) (r : result bool) :
  PrerecMod.body a i (l, w) = (r, (l', w')) ->
  0 <= PrerecMod.dt l ->
  0 <= PrerecMod.dt l'
  /\ (r = Ok true \/ r = Ok false \/ r = Raise Full \/ r = Raise ValueError)
  /\ exists sent, device w' = device w ++ sent
                  /\ Forall (is_cc (PrerecMod.cc a) (PrerecMod.channel_midi a)) sent.
Proof.
  intros E D. unfold PrerecMod.body in E.
  assert (NOTHING : exists sent, device w = device w ++ sent
                      /\ Forall (is_cc (PrerecMod.cc a) (PrerecMod.channel_midi a)) sent)
    by (exists []; rewrite app_nil_r; split; [reflexivity | constructor]).
  next_statement E as l0 s0 G0; [|read_statement G0; discriminate].
  read_statement G0.
  destruct (PrerecMod.remaining l) as [|y rest] eqn:R.
  - read_statement E.
    split; [exact D|]. split; [right; left; reflexivity | exact NOTHING].
  - next_statement E as u1 s1 G1; [|read_statement G1; discriminate].
    read_statement G1.
    next_statement E as u2 s2 G2.
    2:{ apply in_world_inv in G2. destruct G2 as (w2 & P & E2).
        cbn [fst snd] in P, E2. injection E2 as -> ->.
        apply vis_put_inv in P. destruct P as (DV & _ & [X | [X _]]);
          [discriminate|]. injection X as ->.
        split; [exact D|]. split; [right; right; left; reflexivity|].
        rewrite DV. exact NOTHING. }
    apply in_world_inv in G2. destruct G2 as (w2 & P & ->). cbn [fst snd] in *.
    apply vis_put_inv in P. destruct P as (DV & _ & _).
    destruct (map_cc_between y (PrerecMod.amp_min l) (PrerecMod.amp_max l))
      as (v & MV & B).
    rewrite MV in E.
    next_statement E as v0 s3 G3; [|read_statement G3; discriminate].
    read_statement G3.
    next_statement E as u4 s4 G4.
    2:{ apply in_world_inv in G4. destruct G4 as (w4 & S & E4).
        cbn [fst snd] in S, E4. injection E4 as -> ->.
        apply emit_inv in S. destruct S as [(X & _) | (X & _ & ->)];
          [discriminate|]. injection X as ->.
        split; [exact D|]. split; [right; right; right; reflexivity|].
        rewrite DV. exact NOTHING. }
    apply in_world_inv in G4. destruct G4 as (w4 & S & ->). cbn [fst snd] in *.
    apply emit_inv in S. destruct S as [(_ & _ & DS & _) | (X & _)];
      [|discriminate].
    next_statement E as u5 s5 G5.
    + apply in_world_inv in G5. destruct G5 as (w5 & T & ->).
      apply (time_sleep_ok _ _ _ _ D) in T. destruct T as [_ ->].
      read_statement E.
      split; [exact D|]. split; [left; reflexivity|].
      eexists. split; [rewrite DS, DV; reflexivity|].
      constructor; [|constructor]. eexists. split; [reflexivity | exact B].
    + apply in_world_inv in G5. destruct G5 as (w5 & T & _).
      apply (time_sleep_ok _ _ _ _ D) in T. destruct T as [X _]. discriminate.
Qed.

Lemma prerec_play_boot_pace (sp : scipy_signal) (a : PrerecPlay.args)
      (data : list Q) (ports : list string) (l : PrerecPlay.locals) :
  0 < PrerecPlay.sampling_rate a ->
  locals_of (PrerecPlay.bridge_worker sp a data ports) = Some l ->
  thread (PrerecPlay.bridge_worker sp a data ports) = Running l
  /\ 0 <= PrerecPlay.dt l.
Proof.
  intros FS. unfold PrerecPlay.bridge_worker, boot.
  destruct (PrerecPlay.setup sp a data (main_world ports))
    as [[[l0|] | x] w] eqn:E; cbn; try discriminate.
  intros [= <-]. split; [reflexivity|].
  destruct (PrerecPlay_setup_locals sp a data _ _ _ E) as [_ H].
  destruct (H l0 eq_refl) as (f & DT & _).
  exact (truediv_one_positive _ _ FS DT).
Qed.

Lemma prerec_mod_boot_pace (sp : scipy_signal) (a : PrerecMod.args)
      (data : list Q) (ports : list string) (l : PrerecMod.locals) :
  0 < PrerecMod.sampling_rate a ->
  locals_of (PrerecMod.bridge_worker sp a data ports) = Some l ->
  thread (PrerecMod.bridge_worker sp a data ports) = Running l
  /\ 0 <= PrerecMod.dt l.
Proof.
  intros FS. unfold PrerecMod.bridge_worker, boot.
  destruct (PrerecMod.setup sp a data (main_world ports))
    as [[[l0|] | x] w] eqn:E; cbn; try discriminate.
  intros [= <-]. split; [reflexivity|].
  destruct (PrerecMod_setup_locals sp a data _ _ _ E) as [_ H].
  destruct (H l0 eq_refl) as (f & DT & _).
  exact (truediv_one_positive _ _ FS DT).
Qed.

(** X21. With a positive sampling rate a prerecorded worker leaves its
    loop only because the recording is used up, by cancellation, by a
    full relay ([Full]), with a [ValueError] (a message that
    [mido.Message] rejects) or with an [OverflowError]; nothing in the
    loop divides by zero, and the pacing sleep is never given a
    negative length. *)
Theorem prerec_loops_exit_kinds
        (sp : scipy_signal) (ap : PrerecPlay.args) (am : PrerecMod.args)
        (data : list Q) (ports : list string) (es : list (event unit)) :
  0 < PrerecPlay.sampling_rate ap -> 0 < PrerecMod.sampling_rate am ->
  match thread (run (PrerecPlay.body ap)
                    (PrerecPlay.bridge_worker sp ap data ports) es) with
  | Stopped how _ => prerec_exit how
  | _ => True
  end
  /\ match thread (run (PrerecMod.body am)
                       (PrerecMod.bridge_worker sp am data ports) es) with
     | Stopped how _ => prerec_exit how
     | _ => True
     end.
Proof.
  intros FP FM. split.
  - destruct (run_exit_kinds (PrerecPlay.body ap)
                (fun l => 0 <= PrerecPlay.dt l) prerec_exit)
      with (es := es) (s := PrerecPlay.bridge_worker sp ap data ports)
      as [_ X].
    + intros i l0 w r l' w' E P.
      destruct (PrerecPlay_body_outcome ap i l0 l' w w' r E P) as (P' & O).
      split; [exact P'|].
      destruct O as [-> | [-> | [-> | ->]]];
        [exact I | left; reflexivity | right; right; left; reflexivity
        | right; right; right; left; reflexivity].
    + right; left. reflexivity.
    + intros l0 R. apply (prerec_play_boot_pace sp ap data ports l0 FP).
      unfold locals_of. rewrite R. reflexivity.
    + intros how0 l0 S.
      destruct (prerec_play_boot_pace sp ap data ports l0 FP) as [R _];
        [unfold locals_of; rewrite S; reflexivity | congruence].
    + destruct (thread _) as [l | how l | how] eqn:T; try exact I.
      exact (X how l eq_refl).
  - destruct (run_exit_kinds (PrerecMod.body am)
                (fun l => 0 <= PrerecMod.dt l) prerec_exit)
      with (es := es) (s := PrerecMod.bridge_worker sp am data ports)
      as [_ X].
    + intros i l0 w r l' w' E P.
      destruct (PrerecMod_body_outcome am i l0 l' w w' r E P) as (P' & O & _).
      split; [exact P'|].
      destruct O as [-> | [-> | [-> | ->]]];
        [exact I | left; reflexivity | right; right; left; reflexivity
        | right; right; right; left; reflexivity].
    + right; left. reflexivity.
    + intros l0 R. apply (prerec_mod_boot_pace sp am data ports l0 FM).
      unfold locals_of. rewrite R. reflexivity.
    + intros how0 l0 S.
      destruct (prerec_mod_boot_pace sp am data ports l0 FM) as [R _];
        [unfold locals_of; rewrite S; reflexivity | congruence].
    + destruct (thread _) as [l | how l | how] eqn:T; try exact I.
      exact (X how l eq_refl).
Qed.

Lemma prerec_loops_exit_kinds_witness :
  match thread (run (PrerecPlay.body default_prerec_play)
                    (PrerecPlay.bridge_worker sample_scipy default_prerec_play
                       [1 # 2; 1 # 4] ["HCI 1"%string])
                    [Iterate tt; Redraw; Iterate tt; Iterate tt]) with
  | Stopped how _ => prerec_exit how
  | _ => True
  end.
Proof.
  apply (prerec_loops_exit_kinds sample_scipy default_prerec_play
           default_prerec_mod
           [1 # 2; 1 # 4] ["HCI 1"%string]
           [Iterate tt; Redraw; Iterate tt; Iterate tt]); reflexivity.
Defined.

(** ** Setup that does not reach the loop *)

Lemma run_stays_aborted {L I : Type} (body : I -> M (L * world) bool)
      (es : list (event I)) (s : sys L) :
  locals_of s = None ->
  locals_of (run body s es) = None
  /\ device (env (run body s es)) = device (env s).
Proof.
  intros A.
  destruct (run_terminated body es s) as [T D].
  - unfold locals_of, terminated in *. destruct (thread s); congruence.
  - split; [|exact D]. unfold locals_of in *. rewrite T. exact A.
Qed.

Lemma PrerecMod_setup_effect (sp : scipy_signal) (a : PrerecMod.args)
      (data : list Q) (w w' : world) (r : result (option PrerecMod.locals)) :
  PrerecMod.setup sp a data w = (r, w') -> device w' = device w.
Proof.
  unfold PrerecMod.setup. intros E.
  next_statement E as u0 w0 G0; [|read_statement G0; discriminate].
  read_statement G0.
  next_statement E as d w1 G1; [|read_statement G1; congruence].
  read_statement G1.
  next_statement E as f w2 G2; [|read_statement G2; congruence].
  read_statement G2.
  next_statement E as u3 w3 G3; [|read_statement G3; congruence].
  read_statement G3.
  next_statement E as u4 w4 G4; [|read_statement G4; discriminate].
  read_statement G4.
  next_statement E as xs w8 G8; [|read_statement G8; congruence].
  read_statement G8.
  next_statement E as lo w5 G5; [|read_statement G5; congruence].
  read_statement G5.
  next_statement E as hi w6 G6; [|read_statement G6; congruence].
  read_statement G6.
  next_statement E as u7 w7 G7; [|read_statement G7; discriminate].
  read_statement G7. read_statement E. congruence.
Qed.

(** X22. When the requested MIDI port cannot be opened, no worker
    reaches its loop and nothing is ever sent, whatever happens
    afterwards. *)
Theorem missing_port_sends_nothing
        (sp : scipy_signal) (ports : list string)
        (alp : LivePlay.args) (alm : LiveMod.args)
        (app : PrerecPlay.args) (apm : PrerecMod.args)
        (t0 : Q) (resolved : list stream_info) (data : list Q)
        (esl : list (event poll)) (esp : list (event unit)) :
  existsb (String.eqb (LivePlay.midi_port alp)) ports = false ->
  existsb (String.eqb (LiveMod.midi_port alm)) ports = false ->
  existsb (String.eqb (PrerecPlay.midi_port app)) ports = false ->
  existsb (String.eqb (PrerecMod.midi_port apm)) ports = false ->
  (let s := run (LivePlay.body alp)
                (LivePlay.bridge_worker sp alp t0 resolved ports) esl in
   locals_of s = None /\ device (env s) = [])
  /\ (let s := run (LiveMod.body alm)
                   (LiveMod.bridge_worker sp alm t0 resolved ports) esl in
      locals_of s = None /\ device (env s) = [])
  /\ (let s := run (PrerecPlay.body app)
                   (PrerecPlay.bridge_worker sp app data ports) esp in
      locals_of s = None /\ device (env s) = [])
  /\ (let s := run (PrerecMod.body apm)
                   (PrerecMod.bridge_worker sp apm data ports) esp in
      locals_of s = None /\ device (env s) = []).
Proof.
  intros P1 P2 P3 P4.
  split; [|split; [|split]]; cbv zeta.
  - assert (A : locals_of (LivePlay.bridge_worker sp alp t0 resolved ports) = None
                /\ device (env (LivePlay.bridge_worker sp alp t0 resolved ports)) = []).
    { unfold LivePlay.bridge_worker, boot.
      destruct (LivePlay.setup sp alp t0 resolved (main_world ports))
        as [[[l|] | x] w] eqn:E;
        pose proof (LivePlay_setup_effect sp alp t0 resolved _ _ _ E) as [D _];
        cbn; try (split; [reflexivity | exact D]).
      destruct (LivePlay_setup_locals _ _ _ _ _ _ _ E) as (_ & _ & _ & _ & X & _).
      cbn in X. congruence. }
    destruct A as [A D].
    destruct (run_stays_aborted (LivePlay.body alp) esl _ A) as [A' D'].
    split; [exact A' | congruence].
  - assert (A : locals_of (LiveMod.bridge_worker sp alm t0 resolved ports) = None
                /\ device (env (LiveMod.bridge_worker sp alm t0 resolved ports)) = []).
    { unfold LiveMod.bridge_worker, boot.
      destruct (LiveMod.setup sp alm t0 resolved (main_world ports))
        as [[[l|] | x] w] eqn:E;
        pose proof (LiveMod_setup_effect sp alm t0 resolved _ _ _ E) as [D _];
        cbn; try (split; [reflexivity | exact D]).
      destruct (LiveMod_setup_locals _ _ _ _ _ _ _ E) as (_ & _ & _ & _ & X & _).
      cbn in X. congruence. }
    destruct A as [A D].
    destruct (run_stays_aborted (LiveMod.body alm) esl _ A) as [A' D'].
    split; [exact A' | congruence].
  - assert (A : locals_of (PrerecPlay.bridge_worker sp app data ports) = None
                /\ device (env (PrerecPlay.bridge_worker sp app data ports)) = []).
    { unfold PrerecPlay.bridge_worker, boot.
      destruct (PrerecPlay.setup sp app data (main_world ports))
        as [[[l|] | x] w] eqn:E;
        pose proof (PrerecPlay_setup_effect sp app data _ _ _ E) as [D _];
        cbn; try (split; [reflexivity | exact D]).
      destruct (PrerecPlay_setup_locals sp app data _ _ _ E) as [_ H].
      destruct (H l eq_refl) as (_ & _ & _ & X & _). cbn in X. congruence. }
    destruct A as [A D].
    destruct (run_stays_aborted (PrerecPlay.body app) esp _ A) as [A' D'].
    split; [exact A' | congruence].
  - assert (A : locals_of (PrerecMod.bridge_worker sp apm data ports) = None
                /\ device (env (PrerecMod.bridge_worker sp apm data ports)) = []).
    { unfold PrerecMod.bridge_worker, boot.
      destruct (PrerecMod.setup sp apm data (main_world ports))
        as [[[l|] | x] w] eqn:E;
        destruct (PrerecMod_setup_locals sp apm data _ _ _ E) as [NN H];
        cbn.
      - destruct (H l eq_refl) as (_ & _ & _ & X & _). cbn in X. congruence.
      - contradiction.
      - split; [reflexivity|].
        exact (PrerecMod_setup_effect sp apm data _ _ _ E). }
    destruct A as [A D].
    destruct (run_stays_aborted (PrerecMod.body apm) esp _ A) as [A' D'].
    split; [exact A' | congruence].
Qed.

Lemma missing_port_sends_nothing_witness :
  let s := run (LivePlay.body default_live_play)
               (LivePlay.bridge_worker sample_scipy default_live_play 0
                  [{| name := "OpenSignals"; nominal_srate := 100 |}]
                  ["loopMIDI Port"%string])
               [Redraw; Interrupt] in
  locals_of s = None /\ device (env s) = [].
Proof.
  apply (missing_port_sends_nothing sample_scipy ["loopMIDI Port"%string]
           default_live_play default_live_mod default_prerec_play
           default_prerec_mod
           0 [{| name := "OpenSignals"; nominal_srate := 100 |}]
           [1 # 2; 1 # 4] [Redraw; Interrupt] []); reflexivity.
Defined.

Lemma live_filter_raises (sp : scipy_signal) (info : stream_info)
      (cutoff : Q) (x : exn) :
  RespFilter_init sp (stream_fs info) cutoff = Raise x -> x = ValueError.
Proof.
  unfold RespFilter_init, Py.truediv.
  assert (B : Qeq_bool ((1 # 2) * stream_fs info) 0 = false).
  { destruct (Qeq_bool ((1 # 2) * stream_fs info) 0) eqn:N; [|reflexivity].
    apply Qeq_bool_iff in N. exfalso. revert N. unfold stream_fs.
    destruct (Qeq_bool (nominal_srate info) 0) eqn:Z0; [lra|].
    apply Qeq_bool_neq in Z0. lra. }
  rewrite B. cbn [rbind]. unfold butter.
  destruct (Qlt_le_dec 0 _); [destruct (Qlt_le_dec _ 1)|]; cbn [rbind];
    try discriminate; intros [= <-]; reflexivity.
Qed.

Lemma LivePlay_setup_outcome (sp : scipy_signal) (a : LivePlay.args) (t0 : Q)
      (resolved : list stream_info) (w w' : world)
      (r : result (option LivePlay.locals)) :
  LivePlay.setup sp a t0 resolved w = (r, w') ->
  match r with
  | Ok (Some _) => matching_streams resolved <> []
  | Ok None => matching_streams resolved = []
               /\ log w' = log w ++ [ResolvingStreams; NoStreamsFound]
  | Raise x => matching_streams resolved <> []
               /\ (x = IndexError \/ x = ValueError \/ x = RuntimeError)
  end.
Proof.
  unfold LivePlay.setup. intros E.
  next_statement E as u0 w0 G0; [|unfold logging_info in G0; discriminate G0].
  unfold logging_info in G0. injection G0 as _ <-.
  destruct (matching_streams resolved) as [|s0 rest] eqn:MS.
  - next_statement E as u1 w1 G1; [|unfold logging_info in G1; discriminate G1].
    unfold logging_info in G1. injection G1 as _ <-.
    unfold mret in E. injection E as <- <-. cbn.
    split; [reflexivity | rewrite <- app_assoc; reflexivity].
  - assert (NE : s0 :: rest <> []) by discriminate.
    next_statement E as info w1 G1.
    2:{ apply mlift_inv in G1. destruct G1 as [SEL _].
        split; [exact NE|]. left. exact (getitem_raises _ _ _ SEL). }
    apply mlift_inv in G1. destruct G1 as [SEL ->].
    next_statement E as u2 w2 G2; [|unfold logging_info in G2; discriminate G2].
    unfold logging_info in G2. injection G2 as _ <-.
    next_statement E as f w3 G3.
    2:{ apply mlift_inv in G3. destruct G3 as [INIT _].
        split; [exact NE|]. right; left. exact (live_filter_raises _ _ _ _ INIT). }
    apply mlift_inv in G3. destruct G3 as [INIT ->].
    next_statement E as u4 w4 G4.
    2:{ unfold MidiOut_init in G4. destruct (existsb _ _); [discriminate|].
        injection G4 as <- _. split; [exact NE|]. right; right; reflexivity. }
    unfold mret in E. injection E as <- _. exact NE.
Qed.

Lemma LiveMod_setup_outcome (sp : scipy_signal) (a : LiveMod.args) (t0 : Q)
      (resolved : list stream_info) (w w' : world)
      (r : result (option LiveMod.locals)) :
  LiveMod.setup sp a t0 resolved w = (r, w') ->
  match r with
  | Ok (Some _) => matching_streams resolved <> []
  | Ok None => matching_streams resolved = []
               /\ log w' = log w ++ [ResolvingStreams; NoStreamsFound]
  | Raise x => matching_streams resolved <> []
               /\ (x = IndexError \/ x = ValueError \/ x = RuntimeError)
  end.
Proof.
  unfold LiveMod.setup. intros E.
  next_statement E as u0 w0 G0; [|unfold logging_info in G0; discriminate G0].
  unfold logging_info in G0. injection G0 as _ <-.
  destruct (matching_streams resolved) as [|s0 rest] eqn:MS.
  - next_statement E as u1 w1 G1; [|unfold logging_info in G1; discriminate G1].
    unfold logging_info in G1. injection G1 as _ <-.
    unfold mret in E. injection E as <- <-. cbn.
    split; [reflexivity | rewrite <- app_assoc; reflexivity].
  - assert (NE : s0 :: rest <> []) by discriminate.
    next_statement E as info w1 G1.
    2:{ apply mlift_inv in G1. destruct G1 as [SEL _].
        split; [exact NE|]. left. exact (getitem_raises _ _ _ SEL). }
    apply mlift_inv in G1. destruct G1 as [SEL ->].
    next_statement E as u2 w2 G2; [|unfold logging_info in G2; discriminate G2].
    unfold logging_info in G2. injection G2 as _ <-.
    next_statement E as f w3 G3.
    2:{ apply mlift_inv in G3. destruct G3 as [INIT _].
        split; [exact NE|]. right; left. exact (live_filter_raises _ _ _ _ INIT). }
    apply mlift_inv in G3. destruct G3 as [INIT ->].
    next_statement E as u4 w4 G4.
    2:{ unfold MidiOut_init in G4. destruct (existsb _ _); [discriminate|].
        injection G4 as <- _. split; [exact NE|]. right; right; reflexivity. }
    unfold mret in E. injection E as <- _. exact NE.
Qed.

(** X23. How a live worker starts.  It returns quietly, having logged
    only the two lines about resolving streams, exactly when no stream
    name contains "OpenSignals".  Otherwise it either reaches its loop
    or fails with [IndexError] (stream index), [ValueError] (cutoff
    against the stream's rate) or [RuntimeError] (MIDI port); it never
    divides by zero, a stream rate of zero being replaced by 100 Hz.
    Nothing is sent during the start. *)
Theorem live_start_outcomes
        (sp : scipy_signal) (ap : LivePlay.args) (am : LiveMod.args)
        (t0 : Q) (resolved : list stream_info) (ports : list string) :
  let outcome {L : Type} (s : sys L) :=
    device (env s) = []
    /\ match thread s with
       | Running _ => matching_streams resolved <> []
       | Aborted NormalExit =>
           matching_streams resolved = []
           /\ log (env s) = [ResolvingStreams; NoStreamsFound]
       | Aborted (Failed x) =>
           matching_streams resolved <> []
           /\ (x = IndexError \/ x = ValueError \/ x = RuntimeError)
       | _ => False
       end in
  outcome (LivePlay.bridge_worker sp ap t0 resolved ports)
  /\ outcome (LiveMod.bridge_worker sp am t0 resolved ports).
Proof.
  cbv zeta. split.
  - unfold LivePlay.bridge_worker, boot.
    destruct (LivePlay.setup sp ap t0 resolved (main_world ports))
      as [[[l|] | x] w] eqn:E;
      pose proof (LivePlay_setup_effect sp ap t0 resolved _ _ _ E) as [D _];
      pose proof (LivePlay_setup_outcome sp ap t0 resolved _ _ _ E) as O;
      cbn in *; (split; [exact D | exact O]).
  - unfold LiveMod.bridge_worker, boot.
    destruct (LiveMod.setup sp am t0 resolved (main_world ports))
      as [[[l|] | x] w] eqn:E;
      pose proof (LiveMod_setup_effect sp am t0 resolved _ _ _ E) as [D _];
      pose proof (LiveMod_setup_outcome sp am t0 resolved _ _ _ E) as O;
      cbn in *; (split; [exact D | exact O]).
Qed.

(** ** How a prerecorded worker starts *)

Lemma truediv_raises (a b : Q) (x : exn) :
  Py.truediv a b = Raise x -> x = ZeroDivisionError /\ b == 0.
Proof.
  unfold Py.truediv. destruct (Qeq_bool b 0) eqn:B; [|discriminate].
  intros [= <-]. split; [reflexivity | apply Qeq_bool_iff, B].
Qed.

Lemma truediv_ok_nonzero (a b d : Q) : Py.truediv a b = Ok d -> ~ b == 0.
Proof.
  unfold Py.truediv. destruct (Qeq_bool b 0) eqn:B; [discriminate|].
  intros _. apply Qeq_bool_neq, B.
Qed.

Lemma filter_raises (sp : scipy_signal) (fs cutoff : Q) (x : exn) :
  ~ fs == 0 -> RespFilter_init sp fs cutoff = Raise x -> x = ValueError.
Proof.
  intros NZ. unfold RespFilter_init.
  destruct (Py.truediv cutoff ((1 # 2) * fs)) as [norm | e] eqn:T; cbn [rbind].
  - unfold butter.
    destruct (Qlt_le_dec 0 _); [destruct (Qlt_le_dec _ 1)|]; cbn [rbind];
      try discriminate; intros [= <-]; reflexivity.
  - destruct (truediv_raises _ _ _ T) as [_ Z0]. exfalso. apply NZ. lra.
Qed.

Lemma np_min_raises (l : list Q) (x : exn) :
  np_min l = Raise x -> x = ValueError /\ l = [].
Proof. destruct l; [intros [= <-]; split; reflexivity | discriminate]. Qed.

Lemma np_max_raises (l : list Q) (x : exn) :
  np_max l = Raise x -> x = ValueError /\ l = [].
Proof. destruct l; [intros [= <-]; split; reflexivity | discriminate]. Qed.

Lemma filter_all_nonempty (f : RespFilter) (data : list Q) (m : Q) :
  np_min (filter_all f data) = Ok m -> data <> [].
Proof. intros H ->. discriminate H. Qed.

Lemma PrerecPlay_setup_raises (sp : scipy_signal) (a : PrerecPlay.args)
      (rows : list Q) (w w' : world) (x : exn) :
  PrerecPlay.setup sp a rows w = (Raise x, w') ->
  (x = ZeroDivisionError <-> PrerecPlay.sampling_rate a == 0)
  /\ (x = TypeError -> List.length rows = 1%nat)
  /\ (x = ZeroDivisionError \/ x = ValueError \/ x = RuntimeError
      \/ x = TypeError).
Proof.
  unfold PrerecPlay.setup. intros E.
  remember (Raise x) as r eqn:RE.
  next_statement E as u0 w0 G0; [|unfold logging_info in G0; discriminate G0].
  unfold logging_info in G0. injection G0 as _ <-.
  next_statement E as d w1 G1.
  2:{ apply mlift_inv in G1. destruct G1 as [T _]. injection RE as ->.
      destruct (truediv_raises _ _ _ T) as [-> Z0].
      split; [split; [intros _; exact Z0 | reflexivity]|].
      split; [discriminate | left; reflexivity]. }
  apply mlift_inv in G1. destruct G1 as [T ->].
  pose proof (truediv_ok_nonzero _ _ _ T) as NZ.
  assert (OTHER : (x = ValueError \/ x = RuntimeError)
                  \/ (x = TypeError /\ List.length rows = 1%nat) ->
                  (x = ZeroDivisionError <-> PrerecPlay.sampling_rate a == 0)
                  /\ (x = TypeError -> List.length rows = 1%nat)
                  /\ (x = ZeroDivisionError \/ x = ValueError
                      \/ x = RuntimeError \/ x = TypeError)).
  { intros O. split; [|split].
    - split; [|intros Z0; contradiction].
      intros ->. destruct O as [[O | O] | [O _]]; discriminate.
    - intros ->. destruct O as [[O | O] | [_ O]]; [discriminate.. | exact O].
    - destruct O as [[O | O] | [O _]]; auto. }
  apply OTHER. clear OTHER.
  next_statement E as f w2 G2.
  2:{ apply mlift_inv in G2. destruct G2 as [INIT _]. injection RE as ->.
      left; left. exact (filter_raises _ _ _ _ NZ INIT). }
  apply mlift_inv in G2. destruct G2 as [INIT ->].
  next_statement E as u3 w3 G3.
  2:{ unfold MidiOut_init in G3. destruct (existsb _ _); [discriminate|].
      injection G3 as <- _. injection RE as <-. left; right; reflexivity. }
  next_statement E as u4 w4 G4; [|unfold logging_info in G4; discriminate G4].
  next_statement E as xs w8 G8.
  2:{ apply mlift_inv in G8. destruct G8 as [IT _]. injection RE as ->.
      right. exact (iterate_raises _ _ IT). }
  next_statement E as lo w5 G5.
  2:{ apply mlift_inv in G5. destruct G5 as [MIN _]. injection RE as ->.
      left; left. exact (proj1 (np_min_raises _ _ MIN)). }
  next_statement E as hi w6 G6.
  2:{ apply mlift_inv in G6. destruct G6 as [MAX _]. injection RE as ->.
      left; left. exact (proj1 (np_max_raises _ _ MAX)). }
  next_statement E as u7 w7 G7; [|unfold logging_info in G7; discriminate G7].
  unfold mret in E. injection E as <- _. discriminate RE.
Qed.

Lemma PrerecPlay_setup_rows (sp : scipy_signal) (a : PrerecPlay.args)
      (rows : list Q) (w w' : world) (l : PrerecPlay.locals) :
  PrerecPlay.setup sp a rows w = (Ok (Some l), w') ->
  (2 <= List.length rows)%nat.
Proof.
  unfold PrerecPlay.setup. intros E.
  remember (Ok (Some l)) as r eqn:RE.
  next_statement E as u0 w0 G0; [|discriminate RE].
  next_statement E as d w1 G1; [|discriminate RE].
  next_statement E as f w2 G2; [|discriminate RE].
  next_statement E as u3 w3 G3; [|discriminate RE].
  next_statement E as u4 w4 G4; [|discriminate RE].
  next_statement E as xs w8 G8; [|discriminate RE].
  apply mlift_inv in G8. destruct G8 as [IT _].
  destruct (iterate_loadtxt _ _ IT) as [-> LEN].
  next_statement E as lo w5 G5; [|discriminate RE].
  apply mlift_inv in G5. destruct G5 as [MIN _].
  pose proof (filter_all_nonempty _ _ _ MIN) as NE.
  destruct rows as [|y [|y' rest]]; cbn in *; [contradiction | contradiction | lia].
Qed.

Lemma PrerecMod_setup_raises (sp : scipy_signal) (a : PrerecMod.args)
      (rows : list Q) (w w' : world) (x : exn) :
  PrerecMod.setup sp a rows w = (Raise x, w') ->
  (x = ZeroDivisionError <-> PrerecMod.sampling_rate a == 0)
  /\ (x = TypeError -> List.length rows = 1%nat)
  /\ (x = ZeroDivisionError \/ x = ValueError \/ x = RuntimeError
      \/ x = TypeError).
Proof.
  unfold PrerecMod.setup. intros E.
  remember (Raise x) as r eqn:RE.
  next_statement E as u0 w0 G0; [|unfold logging_info in G0; discriminate G0].
  unfold logging_info in G0. injection G0 as _ <-.
  next_statement E as d w1 G1.
  2:{ apply mlift_inv in G1. destruct G1 as [T _]. injection RE as ->.
      destruct (truediv_raises _ _ _ T) as [-> Z0].
      split; [split; [intros _; exact Z0 | reflexivity]|].
      split; [discriminate | left; reflexivity]. }
  apply mlift_inv in G1. destruct G1 as [T ->].
  pose proof (truediv_ok_nonzero _ _ _ T) as NZ.
  assert (OTHER : (x = ValueError \/ x = RuntimeError)
                  \/ (x = TypeError /\ List.length rows = 1%nat) ->
                  (x = ZeroDivisionError <-> PrerecMod.sampling_rate a == 0)
                  /\ (x = TypeError -> List.length rows = 1%nat)
                  /\ (x = ZeroDivisionError \/ x = ValueError
                      \/ x = RuntimeError \/ x = TypeError)).
  { intros O. split; [|split].
    - split; [|intros Z0; contradiction].
      intros ->. destruct O as [[O | O] | [O _]]; discriminate.
    - intros ->. destruct O as [[O | O] | [_ O]]; [discriminate.. | exact O].
    - destruct O as [[O | O] | [O _]]; auto. }
  apply OTHER. clear OTHER.
  next_statement E as f w2 G2.
  2:{ apply mlift_inv in G2. destruct G2 as [INIT _]. injection RE as ->.
      left; left. exact (filter_raises _ _ _ _ NZ INIT). }
  apply mlift_inv in G2. destruct G2 as [INIT ->].
  next_statement E as u3 w3 G3.
  2:{ unfold MidiOut_init in G3. destruct (existsb _ _); [discriminate|].
      injection G3 as <- _. injection RE as <-. left; right; reflexivity. }
  next_statement E as u4 w4 G4; [|unfold logging_info in G4; discriminate G4].
  next_statement E as xs w8 G8.
  2:{ apply mlift_inv in G8. destruct G8 as [IT _]. injection RE as ->.
      right. exact (iterate_raises _ _ IT). }
  next_statement E as lo w5 G5.
  2:{ apply mlift_inv in G5. destruct G5 as [MIN _]. injection RE as ->.
      left; left. exact (proj1 (np_min_raises _ _ MIN)). }
  next_statement E as hi w6 G6.
  2:{ apply mlift_inv in G6. destruct G6 as [MAX _]. injection RE as ->.
      left; left. exact (proj1 (np_max_raises _ _ MAX)). }
  next_statement E as u7 w7 G7; [|unfold logging_info in G7; discriminate G7].
  unfold mret in E. injection E as <- _. discriminate RE.
Qed.

Lemma PrerecMod_setup_rows (sp : scipy_signal) (a : PrerecMod.args)
      (rows : list Q) (w w' : world) (l : PrerecMod.locals) :
  PrerecMod.setup sp a rows w = (Ok (Some l), w') ->
  (2 <= List.length rows)%nat.
Proof.
  unfold PrerecMod.setup. intros E.
  remember (Ok (Some l)) as r eqn:RE.
  next_statement E as u0 w0 G0; [|discriminate RE].
  next_statement E as d w1 G1; [|discriminate RE].
  next_statement E as f w2 G2; [|discriminate RE].
  next_statement E as u3 w3 G3; [|discriminate RE].
  next_statement E as u4 w4 G4; [|discriminate RE].
  next_statement E as xs w8 G8; [|discriminate RE].
  apply mlift_inv in G8. destruct G8 as [IT _].
  destruct (iterate_loadtxt _ _ IT) as [-> LEN].
  next_statement E as lo w5 G5; [|discriminate RE].
  apply mlift_inv in G5. destruct G5 as [MIN _].
  pose proof (filter_all_nonempty _ _ _ MIN) as NE.
  destruct rows as [|y [|y' rest]]; cbn in *; [contradiction | contradiction | lia].
Qed.

(** X24. How a prerecorded worker starts.  It reaches its loop only
    with a non-zero sampling rate and a recording of at least two
    rows; otherwise it fails, with [ZeroDivisionError] exactly when
    the sampling rate is zero, else with [ValueError] (cutoff out of
    range, or an empty recording), [RuntimeError] (MIDI port) or
    [TypeError] (only on a recording of a single row, which is read as
    a 0-d array).  It never returns quietly, and nothing is sent
    during the start. *)
Theorem prerec_start_outcomes
        (sp : scipy_signal) (ap : PrerecPlay.args) (am : PrerecMod.args)
        (rows : list Q) (ports : list string) :
  let outcome {L : Type} (rate : Q) (s : sys L) :=
    device (env s) = []
    /\ match thread s with
       | Running _ => ~ rate == 0 /\ (2 <= List.length rows)%nat
       | Aborted (Failed x) =>
           (x = ZeroDivisionError <-> rate == 0)
           /\ (x = TypeError -> List.length rows = 1%nat)
           /\ (x = ZeroDivisionError \/ x = ValueError \/ x = RuntimeError
               \/ x = TypeError)
       | _ => False
       end in
  outcome (PrerecPlay.sampling_rate ap)
          (PrerecPlay.bridge_worker sp ap rows ports)
  /\ outcome (PrerecMod.sampling_rate am)
             (PrerecMod.bridge_worker sp am rows ports).
Proof.
  cbv zeta. split.
  - unfold PrerecPlay.bridge_worker, boot.
    destruct (PrerecPlay.setup sp ap rows (main_world ports))
      as [[[l|] | x] w] eqn:E;
      pose proof (PrerecPlay_setup_effect sp ap rows _ _ _ E) as [D _];
      destruct (PrerecPlay_setup_locals sp ap rows _ _ _ E) as [NN H];
      cbn in D; cbn; (split; [exact D|]).
    + destruct (H l eq_refl) as (f & T & _).
      split; [exact (truediv_ok_nonzero _ _ _ T)
             | exact (PrerecPlay_setup_rows sp ap rows _ _ _ E)].
    + apply NN. reflexivity.
    + exact (PrerecPlay_setup_raises sp ap rows _ _ _ E).
  - unfold PrerecMod.bridge_worker, boot.
    destruct (PrerecMod.setup sp am rows (main_world ports))
      as [[[l|] | x] w] eqn:E;
      pose proof (PrerecMod_setup_effect sp am rows _ _ _ E) as D;
      destruct (PrerecMod_setup_locals sp am rows _ _ _ E) as [NN H];
      cbn in D; cbn; (split; [exact D|]).
    + destruct (H l eq_refl) as (f & T & _).
      split; [exact (truediv_ok_nonzero _ _ _ T)
             | exact (PrerecMod_setup_rows sp am rows _ _ _ E)].
    + apply NN. reflexivity.
    + exact (PrerecMod_setup_raises sp am rows _ _ _ E).
Qed.
